(** * Laser chess (Khet): the rules engine, the event log and the search

    A shallow embedding of [laserChess/laser_model.py] and of the command
    entry points of [laserChess/laser_controller.py].

    Python objects are shared and mutated in place.  The embedding keeps the
    sharing explicit:
    - a token is referred to by its index in [Game.tokens] (the numpy array
      built once by [Game.__init__] and never reordered), so that the board,
      the event log and an action all name the same object;
    - a square is referred to by its coordinates, the two fields a [Square]
      is built with and that nothing ever writes again;
    - every method that mutates the game takes the game and returns the new
      one inside [result], which also carries a raised exception or the
      exhaustion of the fuel that bounds recursion and [while] loops. *)

From Stdlib Require Import ZArith List Bool Lia Floats String.
From stdpp Require Import base list.
Import ListNotations.
Open Scope Z_scope.

(** ** Outcomes of a method call *)

(** The exceptions the modelled code can raise.  [BadReference] stands for
    the use of a token index outside [tokens], which no Python reference can
    be. *)
Inductive exn : Set :=
| IndexError
| KeyError
| AttributeError
| UnboundLocalError
| TypeError
| ValueError
| BadReference.

(** A call returns a value, raises, or has not returned when the fuel
    that bounds its recursion and its [while] loops ran out. *)
Inductive result (A : Type) : Type :=
| Ok (a : A)
| Raise (e : exn)
| Diverge.

Arguments Ok {A} a.
Arguments Raise {A} e.
Arguments Diverge {A}.

Definition bind {A B : Type} (c : result A) (k : A -> result B) : result B :=
  match c with
  | Ok a => k a
  | Raise e => Raise e
  | Diverge => Diverge
  end.

Notation "x <- c ;; k" := (bind c (fun x => k))
  (at level 100, c at next level, right associativity, only parsing).

Definition of_option {A : Type} (e : exn) (o : option A) : result A :=
  match o with
  | Some a => Ok a
  | None => Raise e
  end.

(** [o is None] *)
Definition is_None {A : Type} (o : option A) : bool :=
  match o with
  | Some _ => false
  | None => true
  end.

(** [l[i]] on a Python list: indices [-len l .. len l - 1] are valid, a
    negative one counts from the end, anything else raises [IndexError]. *)
Definition py_index {A : Type} (l : list A) (i : Z) : result A :=
  let n := Z.of_nat (length l) in
  if (0 <=? i) && (i <? n) then of_option IndexError (l !! Z.to_nat i)
  else if (- n <=? i) && (i <? 0) then of_option IndexError (l !! Z.to_nat (n + i))
  else Raise IndexError.

(** ** Enumerations *)

Module Color.

Inductive t : Set := none | blue | red.

Definition eqb (a b : t) : bool :=
  match a, b with
  | none, none | blue, blue | red, red => true
  | _, _ => false
  end.

End Color.

Module Orientation.

Inductive t : Set := right | up | left | down.

(** The [IntEnum] values. *)
Definition value (o : t) : Z :=
  match o with
  | right => 0
  | up => 1
  | left => 2
  | down => 3
  end.

(** [Orientation(v)]: the member whose value is [v], [ValueError] when
    there is none. *)
Definition call (v : Z) : result t :=
  match v with
  | 0 => Ok right
  | 1 => Ok up
  | 2 => Ok left
  | 3 => Ok down
  | _ => Raise ValueError
  end.

Definition eqb (a b : t) : bool := value a =? value b.

End Orientation.

Inductive Name : Set := queen | defender | deflector | switch | laser.

Definition Name_eqb (a b : Name) : bool :=
  match a, b with
  | queen, queen | defender, defender | deflector, deflector
  | switch, switch | laser, laser => true
  | _, _ => false
  end.

(** ** Tokens, squares, board *)

(** [Token] and its subclasses.  [Queen.__init__] sets [orientation] to
    [Orientation.up]; every other class receives it as an argument. *)
Record Token : Set := mkToken {
  name : Name;
  row : Z;
  column : Z;
  color : Color.t;
  destroyed : bool;
  orientation : Orientation.t
}.

(** A reference to a token object: its index in [Game.tokens]. *)
Abbreviation token_ref := nat (only parsing).

(** A reference to a square object: its [row] and [column] fields. *)
Abbreviation square_ref := (Z * Z)%type (only parsing).

Record Square : Set := mkSquare {
  sq_row : Z;
  sq_column : Z;
  sq_color : Color.t;
  inhabiting_token : option token_ref;
  highlighted : bool
}.

Definition ref_of (sq : Square) : square_ref := (sq_row sq, sq_column sq).

(** [Board.__init__] with its default [rows=8, columns=10]. *)
Definition Board_color (i j : Z) : Color.t :=
  if (j =? 0) || ((j =? 8) && ((i =? 0) || (i =? 7))) then Color.red
  else if (j =? 9) || ((j =? 1) && ((i =? 0) || (i =? 7))) then Color.blue
  else Color.none.

Definition Board (rows columns : Z) : list (list Square) :=
  map (fun i => map (fun j => mkSquare i j (Board_color i j) None false)
                    (seqZ 0 columns))
      (seqZ 0 rows).

(** ** The game *)

Inductive Event : Set :=
| EMove (token : token_ref) (square : square_ref)
| ERotation (token : token_ref) (o : Orientation.t)
| EDestruction (token : token_ref).

Inductive Action : Set :=
| AMove (token : token_ref) (square : square_ref)
| ARotation (token : token_ref) (o : Orientation.t).

(** One entry of [positions_log]: a [[row, col]] pair or one of the two
    marker strings. *)
Inductive PosEntry : Set :=
| Pos (r c : Z)
| Marker_destroyed
| Marker_out.

(** [log] is kept newest first: [self.log.append e] is [e :: log] and
    [self.log.pop()] takes the head.  [positions_log] is in source order;
    the attribute is created by [activate_laser], through which every
    method that appends to it is reached, and a game that has not fired yet
    carries the empty list. *)
Record Game : Set := mkGame {
  squares : list (list Square);
  log : list Event;
  turn : Z;
  tokens : list Token;
  positions_log : list PosEntry
}.

Definition set_squares (s : list (list Square)) (g : Game) : Game :=
  mkGame s (log g) (turn g) (tokens g) (positions_log g).

Definition set_log (l : list Event) (g : Game) : Game :=
  mkGame (squares g) l (turn g) (tokens g) (positions_log g).

Definition set_turn (n : Z) (g : Game) : Game :=
  mkGame (squares g) (log g) n (tokens g) (positions_log g).

Definition set_tokens (ts : list Token) (g : Game) : Game :=
  mkGame (squares g) (log g) (turn g) ts (positions_log g).

Definition set_positions_log (p : list PosEntry) (g : Game) : Game :=
  mkGame (squares g) (log g) (turn g) (tokens g) p.

(** [self.board.squares[row][column]] *)
Definition get_square (g : Game) (r c : Z) : result Square :=
  line <- py_index (squares g) r ;;
  py_index line c.

(** Reading a token through a reference. *)
Definition get_token (g : Game) (t : token_ref) : result Token :=
  of_option BadReference (tokens g !! t).

(** Attribute writes on the object a reference names.  A square
    reference holds the fields of a square of the board, which are its
    indices in [squares]. *)
Definition update_token (t : token_ref) (f : Token -> Token) (g : Game) : Game :=
  set_tokens (alter f t (tokens g)) g.

Definition update_square (s : square_ref) (f : Square -> Square) (g : Game) : Game :=
  set_squares (alter (alter f (Z.to_nat (snd s))) (Z.to_nat (fst s)) (squares g)) g.

Definition with_position (r c : Z) (t : Token) : Token :=
  mkToken (name t) r c (color t) (destroyed t) (orientation t).

Definition with_destroyed (d : bool) (t : Token) : Token :=
  mkToken (name t) (row t) (column t) (color t) d (orientation t).

Definition with_orientation (o : Orientation.t) (t : Token) : Token :=
  mkToken (name t) (row t) (column t) (color t) (destroyed t) o.

Definition with_inhabiting (o : option token_ref) (s : Square) : Square :=
  mkSquare (sq_row s) (sq_column s) (sq_color s) o (highlighted s).

Definition with_highlighted (h : bool) (s : Square) : Square :=
  mkSquare (sq_row s) (sq_column s) (sq_color s) (inhabiting_token s) h.

(** The token list of [Game.__init__], in source order. *)
Definition initial_tokens : list Token :=
  [ (* red team *)
    mkToken laser 0 0 Color.red false Orientation.down;
    mkToken queen 0 5 Color.red false Orientation.up;
    mkToken defender 0 4 Color.red false Orientation.down;
    mkToken defender 0 6 Color.red false Orientation.down;
    mkToken deflector 0 7 Color.red false Orientation.down;
    mkToken deflector 1 2 Color.red false Orientation.left;
    mkToken deflector 3 0 Color.red false Orientation.right;
    mkToken deflector 3 7 Color.red false Orientation.down;
    mkToken deflector 4 0 Color.red false Orientation.down;
    mkToken deflector 4 7 Color.red false Orientation.right;
    mkToken deflector 5 6 Color.red false Orientation.down;
    mkToken switch 3 4 Color.red false Orientation.right;
    mkToken switch 3 5 Color.red false Orientation.down;
    (* blue team *)
    mkToken laser 7 9 Color.blue false Orientation.up;
    mkToken queen 7 4 Color.blue false Orientation.up;
    mkToken defender 7 3 Color.blue false Orientation.up;
    mkToken defender 7 5 Color.blue false Orientation.up;
    mkToken deflector 7 2 Color.blue false Orientation.up;
    mkToken deflector 6 7 Color.blue false Orientation.right;
    mkToken deflector 4 2 Color.blue false Orientation.up;
    mkToken deflector 4 9 Color.blue false Orientation.left;
    mkToken deflector 3 2 Color.blue false Orientation.left;
    mkToken deflector 3 9 Color.blue false Orientation.up;
    mkToken deflector 2 3 Color.blue false Orientation.up;
    mkToken switch 4 4 Color.blue false Orientation.up;
    mkToken switch 4 5 Color.blue false Orientation.left ].

(** [self.red_laser] and [self.blue_laser]: the first and the fourteenth
    object of [tokens]. *)
Definition red_laser : token_ref := 0%nat.

Definition blue_laser : token_ref := 13%nat.

(** [self.laser_dict[color]] *)
Definition laser_dict (c : Color.t) : result token_ref :=
  match c with
  | Color.blue => Ok blue_laser
  | Color.red => Ok red_laser
  | Color.none => Raise KeyError
  end.

(** [Game.arrangeTokens]: the loop over [self.tokens], by reference.  Its
    test [squares[row][column] is not None] reads a [Square] object and
    always succeeds. *)
Fixpoint arrangeTokens_loop (refs : list token_ref) (g : Game) : result Game :=
  match refs with
  | [] => Ok g
  | t :: rest =>
      token <- get_token g t ;;
      sq <- get_square g (row token) (column token) ;;
      arrangeTokens_loop rest (update_square (ref_of sq) (with_inhabiting (Some t)) g)
  end.

Definition arrangeTokens (g : Game) : result Game :=
  arrangeTokens_loop (seq 0 (length (tokens g))) g.

(** [Game.__init__] *)
Definition Game_init : result Game :=
  arrangeTokens (mkGame (Board 8 10) [] 0 initial_tokens []).

(** ** Legal actions *)

(** The dictionary of [Laser.getPossibleRotations]. *)
Definition dict_orientation (o : Orientation.t) : Orientation.t :=
  match o with
  | Orientation.right => Orientation.down
  | Orientation.down => Orientation.right
  | Orientation.left => Orientation.up
  | Orientation.up => Orientation.left
  end.

(** [Token.getPossibleRotations], by class.  [Queen] returns the empty
    list; [Deflector] and [Defender] the two neighbours; [Switch] the value
    [1 - orientation % 2]; [Laser] looks its orientation up in its
    dictionary. *)
Definition Token_getPossibleRotations (token : Token) : result (list Orientation.t) :=
  let v := Orientation.value (orientation token) in
  match name token with
  | queen => Ok []
  | deflector | defender =>
      a <- Orientation.call ((v - 1) mod 4) ;;
      b <- Orientation.call ((v + 1) mod 4) ;;
      Ok [a; b]
  | switch =>
      a <- Orientation.call (1 - v mod 2) ;;
      Ok [a]
  | laser => Ok [dict_orientation (orientation token)]
  end.

(** [Game.getPossibleRotations] *)
Definition getPossibleRotations (g : Game) (token : token_ref) : result (list Orientation.t) :=
  tk <- get_token g token ;;
  Token_getPossibleRotations tk.

(** The body of the two nested [for] loops of [getPossibleMoves], over the
    offsets [(i, j)] in the order the loops produce them. *)
Fixpoint getPossibleMoves_loop (g : Game) (token : Token) (offsets : list (Z * Z))
  : result (list square_ref) :=
  match offsets with
  | [] => Ok []
  | (i, j) :: rest =>
      let r := row token + i in
      let c := column token + j in
      if (r <? 0) || (r >? 7) || (c <? 0) || (c >? 9)
      then getPossibleMoves_loop g token rest
      else
        square <- get_square g r c ;;
        possible_moves <- getPossibleMoves_loop g token rest ;;
        if is_None (inhabiting_token square)
           && (Color.eqb (sq_color square) Color.none
               || Color.eqb (sq_color square) (color token))
        then Ok (ref_of square :: possible_moves)
        else Ok possible_moves
  end.

Definition neighbourhood : list (Z * Z) :=
  i ← seqZ (-1) 3; j ← seqZ (-1) 3; [(i, j)].

(** [Game.getPossibleMoves] *)
Definition getPossibleMoves (g : Game) (token : option token_ref) : result (list square_ref) :=
  match token with
  | None => Ok []
  | Some t =>
      tk <- get_token g t ;;
      if Name_eqb (name tk) laser then Ok []
      else getPossibleMoves_loop g tk neighbourhood
  end.

(** [Game.getAllPossibleActions]: the loop over [self.tokens[in_game]]. *)
Fixpoint getAllPossibleActions_loop (g : Game) (c : Color.t) (refs : list token_ref)
  : result (list Action) :=
  match refs with
  | [] => Ok []
  | t :: rest =>
      tk <- get_token g t ;;
      if Color.eqb (color tk) c then
        possible_moves <- getPossibleMoves g (Some t) ;;
        possible_rotations <- getPossibleRotations g t ;;
        actions <- getAllPossibleActions_loop g c rest ;;
        Ok (map (AMove t) possible_moves ++ map (ARotation t) possible_rotations ++ actions)
      else getAllPossibleActions_loop g c rest
  end.

Definition in_game (g : Game) : list token_ref :=
  List.filter (fun t => match tokens g !! t with
                   | Some tk => negb (destroyed tk)
                   | None => false
                   end)
         (seq 0 (length (tokens g))).

Definition getAllPossibleActions (g : Game) (c : Color.t) : result (list Action) :=
  getAllPossibleActions_loop g c (in_game g).

(** ** Applying and undoing actions *)

(** [Game.moveToken], with [Token.move] inlined: the token takes the
    coordinates of [end_square], the start square is vacated, then the end
    square receives the token. *)
Definition moveToken (g : Game) (token : token_ref) (end_square : square_ref)
  (forward : bool) : result Game :=
  tk <- get_token g token ;;
  start_square <- get_square g (row tk) (column tk) ;;
  let g := update_token token (with_position (fst end_square) (snd end_square)) g in
  let g := update_square (ref_of start_square) (with_inhabiting None) g in
  let g := update_square end_square (with_inhabiting (Some token)) g in
  if forward then Ok (set_log (EMove token (ref_of start_square) :: log g) g)
  else Ok g.

(** [RotatableToken.changeOrientation]; [Queen] is a plain [Token] and
    has no such method. *)
Definition changeOrientation (g : Game) (token : token_ref) (o : Orientation.t)
  : result Game :=
  tk <- get_token g token ;;
  match name tk with
  | queen => Raise AttributeError
  | _ =>
      o' <- Orientation.call (Orientation.value o mod 4) ;;
      Ok (update_token token (with_orientation o') g)
  end.

(** [Game.rotateToken] *)
Definition rotateToken (g : Game) (token : token_ref) (o : Orientation.t)
  (forward : bool) : result Game :=
  tk <- get_token g token ;;
  let start_orientation := orientation tk in
  g <- changeOrientation g token o ;;
  if forward then Ok (set_log (ERotation token start_orientation :: log g) g)
  else Ok g.

(** [Game.doAction] *)
Definition doAction (g : Game) (action : Action) : result Game :=
  match action with
  | AMove token square => moveToken g token square true
  | ARotation token o => rotateToken g token o true
  end.

(** [Game.undoLastEvent].  The method pops one event and, for a
    destruction, calls itself on the shortened log; [undo_from l g] is the
    call made when [self.log] is [l]. *)
Fixpoint undo_from (l : list Event) (g : Game) : result Game :=
  match l with
  | [] => Raise IndexError
  | event :: l' =>
      let g := set_log l' g in
      match event with
      | EMove token square => moveToken g token square false
      | ERotation token o => rotateToken g token o false
      | EDestruction token =>
          _ <- get_token g token ;;
          undo_from l' (update_token token (with_destroyed false) g)
      end
  end.

Definition undoLastEvent (g : Game) : result Game := undo_from (log g) g.

(** ** The beam resolver *)

Definition append_positions (p : list PosEntry) (g : Game) : Game :=
  set_positions_log (positions_log g ++ p) g.

(** [Game.is_destroyed].  [and] binds tighter than [or]; a name that is
    neither queen, switch nor defender reaches the final [else]. *)
Definition is_destroyed (token : Token) (direction : Orientation.t) : bool :=
  let orientation := orientation token in
  let eq := Orientation.eqb in
  match name token with
  | queen => true
  | switch => false
  | defender =>
      if eq direction Orientation.right && eq orientation Orientation.left
         || eq direction Orientation.left && eq orientation Orientation.right
         || eq direction Orientation.up && eq orientation Orientation.down
         || eq direction Orientation.down && eq orientation Orientation.up
      then false
      else true
  | _ =>
      if eq direction Orientation.right && eq orientation Orientation.left
         || eq direction Orientation.right && eq orientation Orientation.up
         || eq direction Orientation.left && eq orientation Orientation.right
         || eq direction Orientation.left && eq orientation Orientation.down
         || eq direction Orientation.up && eq orientation Orientation.down
         || eq direction Orientation.up && eq orientation Orientation.left
         || eq direction Orientation.down && eq orientation Orientation.up
         || eq direction Orientation.down && eq orientation Orientation.right
      then false
      else true
  end.

(** The four [while] loops of [reflect_beam], one per direction.  A call
    stands for the test of the loop condition when [token_hit] is still
    [None]; the result is [(token_hit, row, col)] at loop exit.  Only the
    [up] and [down] loops change [row]; no loop changes [col]. *)
Fixpoint reflect_beam_while (fuel : nat) (g : Game) (direction : Orientation.t)
  (row col : Z) : result (option token_ref * Z * Z) :=
  match fuel with
  | O => Diverge
  | S fuel' =>
      let condition :=
        match direction with
        | Orientation.up => row >? -1
        | Orientation.down => row <? 8
        | Orientation.left => col >? -1
        | Orientation.right => col <? 11
        end in
      if condition then
        square <- get_square g row col ;;
        let row' :=
          match direction with
          | Orientation.up => row - 1
          | Orientation.down => row + 1
          | _ => row
          end in
        match inhabiting_token square with
        | Some t => Ok (Some t, row', col)
        | None => reflect_beam_while fuel' g direction row' col
        end
      else Ok (None, row, col)
  end.

(** [Game.reflect_beam], with the call to [hitToken] abstracted so that
    the three mutually recursive methods can be tied by one fixpoint. *)
Definition reflect_beam_with
  (hit : Game -> token_ref -> Orientation.t -> result Game)
  (fuel : nat) (g : Game) (token : token_ref) (direction : Orientation.t)
  : result Game :=
  tk <- get_token g token ;;
  r <- reflect_beam_while fuel g direction (row tk) (column tk) ;;
  match r with
  | (Some token_hit, _, _) => hit g token_hit direction
  | (None, row, col) => Ok (append_positions [Pos row col; Marker_out] g)
  end.

(** [Game.reflect]: the outgoing direction, by name, incoming direction
    and orientation.  Names other than switch and deflector match no
    branch and the method returns. *)
Definition reflect_with
  (beam : Game -> token_ref -> Orientation.t -> result Game)
  (g : Game) (token : token_ref) (direction : Orientation.t) : result Game :=
  tk <- get_token g token ;;
  let orientation := orientation tk in
  let eq := Orientation.eqb in
  let horizontal := eq orientation Orientation.left || eq orientation Orientation.right in
  match name tk with
  | switch =>
      if eq direction Orientation.right then
        if horizontal then beam g token Orientation.down
        else beam g token Orientation.up
      else if eq direction Orientation.left then
        if horizontal then beam g token Orientation.up
        else beam g token Orientation.down
      else if eq direction Orientation.up then
        if horizontal then beam g token Orientation.left
        else beam g token Orientation.right
      else
        if horizontal then beam g token Orientation.right
        else beam g token Orientation.left
  | deflector =>
      if eq direction Orientation.right then
        if eq orientation Orientation.left then beam g token Orientation.down
        else beam g token Orientation.up
      else if eq direction Orientation.left then
        if eq orientation Orientation.right then beam g token Orientation.up
        else beam g token Orientation.down
      else if eq direction Orientation.up then
        if eq orientation Orientation.left then beam g token Orientation.left
        else beam g token Orientation.right
      else
        if eq orientation Orientation.right then beam g token Orientation.right
        else beam g token Orientation.left
  | _ => Ok g
  end.

(** The destroy branch of [hitToken]. *)
Definition destroy (g : Game) (token_hit : token_ref) : result Game :=
  let g := update_token token_hit (with_destroyed true) g in
  tk <- get_token g token_hit ;;
  square <- get_square g (row tk) (column tk) ;;
  let g := update_square (ref_of square) (with_inhabiting None) g in
  let g := append_positions [Marker_destroyed] g in
  Ok (set_log (EDestruction token_hit :: log g) g).

(** [Game.hitToken].  One unit of fuel is spent per call; the nested
    [reflect] and [reflect_beam] run on what is left. *)
Fixpoint hitToken (fuel : nat) (g : Game) (token_hit : token_ref)
  (orientation : Orientation.t) : result Game :=
  match fuel with
  | O => Diverge
  | S fuel' =>
      tk <- get_token g token_hit ;;
      let g := append_positions [Pos (row tk) (column tk)] g in
      if is_destroyed tk orientation then destroy g token_hit
      else reflect_with (reflect_beam_with (hitToken fuel') fuel') g token_hit orientation
  end.

Definition reflect_beam (fuel : nat) : Game -> token_ref -> Orientation.t -> result Game :=
  reflect_beam_with (hitToken fuel) fuel.

Definition reflect (fuel : nat) : Game -> token_ref -> Orientation.t -> result Game :=
  reflect_with (reflect_beam fuel).

(** The [for i in range(1, n)] loops of [activate_laser]: a square is
    read only while [token_hit] is still [None]. *)
Fixpoint activate_laser_for (g : Game) (cells : list (Z * Z)) : result (option token_ref) :=
  match cells with
  | [] => Ok None
  | (r, c) :: rest =>
      square <- get_square g r c ;;
      match inhabiting_token square with
      | Some t => Ok (Some t)
      | None => activate_laser_for g rest
      end
  end.

(** The branches of [activate_laser] on the laser's colour and
    orientation: [last_position] and the squares the [for] loop of the
    branch reads, in order. *)
Definition laser_path (lz : Token) : PosEntry * list (Z * Z) :=
  let row := row lz in
  let col := column lz in
  if Color.eqb (color lz) Color.red then
    if Orientation.eqb (orientation lz) Orientation.down
    then (Pos 7 col, map (fun i => (row + i, col)) (seqZ 1 7))
    else (Pos row 9, map (fun i => (row, col + i)) (seqZ 1 9))
  else
    if Orientation.eqb (orientation lz) Orientation.up
    then (Pos 0 col, map (fun i => (row - i, col)) (seqZ 1 7))
    else (Pos row 0, map (fun i => (row, col - i)) (seqZ 1 9)).

(** The game once [activate_laser] has reset [positions_log] and logged
    the laser's square. *)
Definition laser_fired (g : Game) (lz : Token) : Game :=
  append_positions [Pos (row lz) (column lz)] (set_positions_log [] g).

(** [Game.activate_laser] *)
Definition activate_laser (fuel : nat) (g : Game) (c : Color.t) : result Game :=
  laser <- laser_dict c ;;
  lz <- get_token g laser ;;
  let g := laser_fired g lz in
  let orientation := orientation lz in
  let '(last_position, cells) := laser_path lz in
  token_hit <- activate_laser_for g cells ;;
  match token_hit with
  | Some t => hitToken fuel g t orientation
  | None => Ok (append_positions [last_position; Marker_out] g)
  end.

(** ** The search *)

(** Python floats are IEEE 754 binary64, which is what [float] is.  An
    [int] operand of a float operation is converted first; the integers met
    here (coordinates, distances, [1] and [-1]) are far below 2^53 and are
    converted exactly.  [value = 0] starts the sums as an [int]; it is [0.0]
    from the first addition on and compares equal to it before. *)
Definition float_of_int (z : Z) : float :=
  if z <? 0 then PrimFloat.opp (PrimFloat.of_uint63 (Uint63.of_Z (- z)))
  else PrimFloat.of_uint63 (Uint63.of_Z z).

(** [AI]: [color] (from [Player]), [adversial_color], [depth_limit], the
    [names] and [colors] arrays and the [queen_index] dictionary, whose
    keys are blue and red. *)
Record AI : Set := mkAI {
  ai_color : Color.t;
  adversial_color : Color.t;
  depth_limit : Z;
  names : list Name;
  colors : list Color.t;
  queen_index_blue : nat;
  queen_index_red : nat
}.

Definition queen_index (ai : AI) (c : Color.t) : result nat :=
  match c with
  | Color.blue => Ok (queen_index_blue ai)
  | Color.red => Ok (queen_index_red ai)
  | Color.none => Raise KeyError
  end.

(** [np.argwhere((names == "queen") & (colors == color))[0][0]]: the first
    index at which both hold, [IndexError] when there is none. *)
Fixpoint argwhere_queen (ns : list Name) (cs : list Color.t) (c : Color.t) (i : nat)
  : result nat :=
  match ns, cs with
  | n :: ns', c' :: cs' =>
      if Name_eqb n queen && Color.eqb c' c then Ok i
      else argwhere_queen ns' cs' c (S i)
  | _, _ => Raise IndexError
  end.

(** [AI.__init__] *)
Definition AI_init (g : Game) (c : Color.t) (limit : Z) : result AI :=
  let adversial := if Color.eqb c Color.red then Color.blue else Color.red in
  let ns := map name (tokens g) in
  let cs := map color (tokens g) in
  qb <- argwhere_queen ns cs Color.blue 0 ;;
  qr <- argwhere_queen ns cs Color.red 0 ;;
  Ok (mkAI c adversial limit ns cs qb qr).

(** [tokens[self.names == n]]: the tokens at the positions where the
    [names] array holds [n].  Both arrays have the length [Game.__init__]
    gave [tokens]. *)
Fixpoint tokens_named (n : Name) (ns : list Name) (ts : list Token) : list Token :=
  match ns, ts with
  | n' :: ns', t :: ts' =>
      if Name_eqb n' n then t :: tokens_named n ns' ts' else tokens_named n ns' ts'
  | _, _ => []
  end.

(** [AI.distance_to_queen]; the warning it may emit has no effect. *)
Definition distance_to_queen (ai : AI) (token : Token) (ts : list Token) : result Z :=
  qi <- queen_index ai (color token) ;;
  q <- of_option IndexError (ts !! qi) ;;
  let distance := Z.abs (row token - row q) + Z.abs (column token - column q) in
  Ok (Z.max 1 distance).

(** The first loop of [evaluate_state], over the defenders. *)
Fixpoint evaluate_defenders (ai : AI) (ts : list Token) (defenders : list Token)
  (value : float) : result float :=
  match defenders with
  | [] => Ok value
  | tk :: rest =>
      if negb (destroyed tk) then
        let f := if Color.eqb (color tk) (ai_color ai) then 1 else -1 in
        d <- distance_to_queen ai tk ts ;;
        evaluate_defenders ai ts rest
          (value + float_of_int f * 1e4 / float_of_int d)%float
      else evaluate_defenders ai ts rest value
  end.

(** The second loop, over the deflectors. *)
Fixpoint evaluate_deflectors (ai : AI) (deflectors : list Token) (value : float) : float :=
  match deflectors with
  | [] => value
  | tk :: rest =>
      if negb (destroyed tk) then
        let f := if Color.eqb (color tk) (ai_color ai) then 1 else -1 in
        evaluate_deflectors ai rest (value + float_of_int f * 7.5e4)%float
      else evaluate_deflectors ai rest value
  end.

(** [AI.evaluate_state] *)
Definition evaluate_state (ai : AI) (g : Game) : result float :=
  let ts := tokens g in
  own_index <- queen_index ai (ai_color ai) ;;
  own_queen <- of_option IndexError (ts !! own_index) ;;
  if destroyed own_queen then Ok (-1e10)%float
  else
    other_index <- queen_index ai (adversial_color ai) ;;
    other_queen <- of_option IndexError (ts !! other_index) ;;
    if destroyed other_queen then Ok 1e10%float
    else
      value <- evaluate_defenders ai ts (tokens_named defender (names ai) ts) 0%float ;;
      Ok (evaluate_deflectors ai (tokens_named deflector (names ai) ts) value).

(** What [minimax] returns: the chosen action at depth 0, the evaluation
    at every other depth. *)
Inductive Returned : Set :=
| RAction (a : Action)
| REval (v : float).

(** The value of a recursive call, used as a number by the caller. *)
Definition as_evaluation (r : Returned) : result float :=
  match r with
  | REval v => Ok v
  | RAction _ => Raise TypeError
  end.

(** The [for action in possible_actions] loop of the maximizing branch.
    [recurse] is the recursive call [self.minimax(depth + 1, not max_plays,
    alpha, beta)]; the loop state is the game, [max_evaluation],
    [best_action] (unbound until first assigned) and [alpha]. *)
Fixpoint minimax_max_loop
  (recurse : Game -> float -> float -> result (Game * Returned))
  (fuel : nat) (c : Color.t) (possible_actions : list Action) (g : Game)
  (max_evaluation : float) (best_action : option Action) (alpha beta : float)
  : result (Game * float * option Action) :=
  match possible_actions with
  | [] => Ok (g, max_evaluation, best_action)
  | action :: rest =>
      g <- doAction g action ;;
      g <- activate_laser fuel g c ;;
      r <- recurse g alpha beta ;;
      g <- undoLastEvent (fst r) ;;
      evaluation <- as_evaluation (snd r) ;;
      let better := PrimFloat.ltb max_evaluation evaluation in
      let max_evaluation := if better then evaluation else max_evaluation in
      let best_action := if better then Some action else best_action in
      let alpha := if PrimFloat.ltb alpha evaluation then evaluation else alpha in
      if PrimFloat.ltb beta alpha then Ok (g, max_evaluation, best_action)
      else minimax_max_loop recurse fuel c rest g max_evaluation best_action alpha beta
  end.

(** The loop of the minimizing branch. *)
Fixpoint minimax_min_loop
  (recurse : Game -> float -> float -> result (Game * Returned))
  (fuel : nat) (c : Color.t) (possible_actions : list Action) (g : Game)
  (min_evaluation : float) (best_action : option Action) (alpha beta : float)
  : result (Game * float * option Action) :=
  match possible_actions with
  | [] => Ok (g, min_evaluation, best_action)
  | action :: rest =>
      g <- doAction g action ;;
      g <- activate_laser fuel g c ;;
      r <- recurse g alpha beta ;;
      g <- undoLastEvent (fst r) ;;
      evaluation <- as_evaluation (snd r) ;;
      let better := PrimFloat.ltb evaluation min_evaluation in
      let min_evaluation := if better then evaluation else min_evaluation in
      let best_action := if better then Some action else best_action in
      let beta := if PrimFloat.ltb evaluation beta then evaluation else beta in
      if PrimFloat.ltb beta alpha then Ok (g, min_evaluation, best_action)
      else minimax_min_loop recurse fuel c rest g min_evaluation best_action alpha beta
  end.

(** [AI.minimax] (with [verbose] false).  The game the search works on is
    threaded through and returned with the value. *)
Fixpoint minimax (fuel : nat) (ai : AI) (g : Game) (depth : Z) (max_plays : bool)
  (alpha beta : float) : result (Game * Returned) :=
  match fuel with
  | O => Diverge
  | S fuel' =>
      if depth >? depth_limit ai then
        v <- evaluate_state ai g ;;
        Ok (g, REval v)
      else
        let recurse := fun g a b => minimax fuel' ai g (depth + 1) (negb max_plays) a b in
        r <- (if max_plays then
                possible_actions <- getAllPossibleActions g (ai_color ai) ;;
                minimax_max_loop recurse fuel' (ai_color ai) possible_actions g
                  (-2e10)%float None alpha beta
              else
                possible_actions <- getAllPossibleActions g (adversial_color ai) ;;
                minimax_min_loop recurse fuel' (adversial_color ai) possible_actions g
                  2e10%float None alpha beta) ;;
        let '(g, final_eval, best_action) := r in
        if depth =? 0 then
          a <- of_option UnboundLocalError best_action ;;
          Ok (g, RAction a)
        else Ok (g, REval final_eval)
  end.

(** The call [ai.minimax()] with the default arguments. *)
Definition minimax_root (fuel : nat) (ai : AI) (g : Game) : result (Game * Returned) :=
  minimax fuel ai g 0 true (-2e10)%float 2e10%float.

(** ** Rotation commands on a token *)

(** [rotateClockwise]: defined by [RotatableToken], overridden by
    [Laser], absent from [Queen]. *)
Definition rotateClockwise (token : Token) : result Token :=
  match name token with
  | queen => Raise AttributeError
  | laser =>
      l <- Token_getPossibleRotations token ;;
      o <- of_option IndexError (l !! 0%nat) ;;
      Ok (with_orientation o token)
  | _ =>
      o <- Orientation.call ((Orientation.value (orientation token) - 1) mod 4) ;;
      Ok (with_orientation o token)
  end.

(** [rotateAntiClockwise], likewise. *)
Definition rotateAntiClockwise (token : Token) : result Token :=
  match name token with
  | queen => Raise AttributeError
  | laser =>
      l <- Token_getPossibleRotations token ;;
      o <- of_option IndexError (l !! 0%nat) ;;
      Ok (with_orientation o token)
  | _ =>
      o <- Orientation.call ((Orientation.value (orientation token) + 1) mod 4) ;;
      Ok (with_orientation o token)
  end.

(** ** The controller *)

Inductive Player : Set :=
| Human (c : Color.t)
| Computer (ai : AI).

(** [GameController] after [start]; the clients it refreshes are outside
    the model. *)
Record GameController : Set := mkController {
  game : Game;
  red_player : Player;
  blue_player : Player;
  selected_token : option token_ref
}.

Definition set_game (g : Game) (ctl : GameController) : GameController :=
  mkController g (red_player ctl) (blue_player ctl) (selected_token ctl).

Definition set_selected_token (t : option token_ref) (ctl : GameController)
  : GameController :=
  mkController (game ctl) (red_player ctl) (blue_player ctl) t.

(** [GameController.start] *)
Definition start (red_player_type blue_player_type : string) : result GameController :=
  g <- Game_init ;;
  red <- (if String.eqb red_player_type "AI"
          then ai <- AI_init g Color.red 1 ;; Ok (Computer ai)
          else Ok (Human Color.red)) ;;
  blue <- (if String.eqb blue_player_type "AI"
           then ai <- AI_init g Color.blue 1 ;; Ok (Computer ai)
           else Ok (Human Color.blue)) ;;
  Ok (mkController g red blue None).

(** [Board.unhighlightAllSquares] *)
Definition unhighlightAllSquares (g : Game) : Game :=
  set_squares (map (map (with_highlighted false)) (squares g)) g.

(** [GameController.getCurrentPlayerColor] *)
Definition getCurrentPlayerColor (ctl : GameController) : Color.t :=
  if turn (game ctl) mod 2 =? 0 then Color.red else Color.blue.

(** [GameController.finishTurn] *)
Definition finishTurn (fuel : nat) (ctl : GameController) : result GameController :=
  let c := if negb (turn (game ctl) mod 2 =? 0) then Color.blue else Color.red in
  g <- activate_laser fuel (game ctl) c ;;
  Ok (set_game (set_turn (turn g + 1) g) ctl).

(** The loop of [squareSelected] that highlights the possible moves. *)
Fixpoint highlight_moves (g : Game) (possible_moves : list square_ref) : result Game :=
  match possible_moves with
  | [] => Ok g
  | (r, c) :: rest =>
      square <- get_square g r c ;;
      highlight_moves (update_square (ref_of square) (with_highlighted true) g) rest
  end.

(** [GameController.squareSelected] *)
Definition squareSelected (fuel : nat) (ctl : GameController) (row column : Z)
  : result GameController :=
  square <- get_square (game ctl) row column ;;
  if highlighted square then
    token <- of_option AttributeError (selected_token ctl) ;;
    g <- moveToken (game ctl) token (ref_of square) true ;;
    ctl <- finishTurn fuel (set_game g ctl) ;;
    let ctl := set_game (unhighlightAllSquares (game ctl)) ctl in
    Ok (set_selected_token None ctl)
  else
    let ctl := set_game (unhighlightAllSquares (game ctl)) ctl in
    square <- get_square (game ctl) row column ;;
    let ctl := set_selected_token (inhabiting_token square) ctl in
    match selected_token ctl with
    | None => Ok ctl
    | Some t =>
        tk <- get_token (game ctl) t ;;
        if Color.eqb (color tk) (getCurrentPlayerColor ctl)
        then Ok (set_selected_token None ctl)
        else
          possible_moves <- getPossibleMoves (game ctl) (selected_token ctl) ;;
          g <- highlight_moves (game ctl) possible_moves ;;
          Ok (set_game g ctl)
    end.

(** [GameController.test_AI]: the player whose turn it is searches, the
    chosen action is applied and the turn finished.  A human player has no
    [minimax]. *)
Definition test_AI (fuel : nat) (ctl : GameController) : result GameController :=
  let player := if negb (turn (game ctl) mod 2 =? 0) then blue_player ctl
                else red_player ctl in
  match player with
  | Human _ => Raise AttributeError
  | Computer ai =>
      r <- minimax_root fuel ai (game ctl) ;;
      match snd r with
      | RAction action =>
          g <- doAction (fst r) action ;;
          finishTurn fuel (set_game g ctl)
      | REval _ => Raise TypeError
      end
  end.

(** ** Reading a position *)

(** The occupant of every square, row by row. *)
Definition occupancy (g : Game) : list (list (option token_ref)) :=
  map (map inhabiting_token) (squares g).

(** The squares that are highlighted. *)
Definition highlighted_squares (g : Game) : list (Z * Z) :=
  map ref_of (List.filter highlighted (concat (squares g))).

(** The token [t] stands on the board where its coordinates say. *)
Definition stands_on_board (g : Game) (t : token_ref) (tk : Token) : Prop :=
  tokens g !! t = Some tk
  /\ 0 <= row tk < 8 /\ 0 <= column tk < 10
  /\ exists square,
       get_square g (row tk) (column tk) = Ok square
       /\ inhabiting_token square = Some t.

(** The square of a grid at non-negative coordinates, and its update. *)
Definition grid_at (l : list (list Square)) (s : Z * Z) : option Square :=
  l !! Z.to_nat (fst s) ≫= (.!! Z.to_nat (snd s)).

Definition grid_alter (f : Square -> Square) (s : Z * Z) (l : list (list Square))
  : list (list Square) :=
  alter (alter f (Z.to_nat (snd s))) (Z.to_nat (fst s)) l.

(** A token stands on a square whose own coordinates are the token's. *)
Definition placed (g : Game) (t : nat) (tk : Token) : Prop :=
  tokens g !! t = Some tk
  /\ 0 <= row tk /\ 0 <= column tk
  /\ exists square,
       get_square g (row tk) (column tk) = Ok square
       /\ ref_of square = (row tk, column tk)
       /\ inhabiting_token square = Some t.

(** A square at the given coordinates, holding them, with no occupant. *)
Definition vacant (g : Game) (s : Z * Z) : Prop :=
  0 <= fst s /\ 0 <= snd s
  /\ exists square,
       get_square g (fst s) (snd s) = Ok square
       /\ ref_of square = s
       /\ inhabiting_token square = None.

(** Two games that differ in [positions_log] at most. *)
Definition same_position (g g' : Game) : Prop :=
  squares g' = squares g /\ tokens g' = tokens g
  /\ log g' = log g /\ turn g' = turn g.

(** An action that finds what it needs: a move of a token standing on
    its square to a vacant square, a rotation of a token that can rotate. *)
Definition applicable (g : Game) (a : Action) : Prop :=
  match a with
  | AMove t s => (exists tk, placed g t tk) /\ vacant g s
  | ARotation t o => exists tk, tokens g !! t = Some tk /\ name tk <> queen
  end.

(** The position is consistent: every square holds its own coordinates
    and every token that is not destroyed stands on its square. *)
Definition well_placed (g : Game) : Prop :=
  (forall r c square,
     0 <= r -> 0 <= c -> get_square g r c = Ok square -> ref_of square = (r, c))
  /\ (forall t tk,
        tokens g !! t = Some tk -> destroyed tk = false -> placed g t tk).

(** ** The rotation commands and the evaluation, as specified *)

(** The fixed pairing of the laser's orientations: right with down, left
    with up. *)
Definition partner (o : Orientation.t) : Orientation.t :=
  match o with
  | Orientation.right => Orientation.down
  | Orientation.down => Orientation.right
  | Orientation.left => Orientation.up
  | Orientation.up => Orientation.left
  end.

Section StaticEvaluation.

(** The colour the search plays for, and the token collection. *)
Variable searching : Color.t.

Variable ts : list Token.

Definition opponent : Color.t :=
  if Color.eqb searching Color.red then Color.blue else Color.red.

(** The queen of a colour: the first queen of that colour in the
    collection. *)
Definition queen_of (c : Color.t) : option Token :=
  List.find (fun t => Name_eqb (name t) queen && Color.eqb (color t) c) ts.

Definition manhattan (a b : Token) : Z :=
  Z.abs (row a - row b) + Z.abs (column a - column b).

(** Positive for the searching colour, negative otherwise. *)
Definition sign (t : Token) : float :=
  if Color.eqb (color t) searching then 1%float else (-1)%float.

(** The non-destroyed tokens of a kind, in collection order. *)
Definition alive (n : Name) (l : list Token) : list Token :=
  List.filter (fun t => Name_eqb (name t) n && negb (destroyed t)) l.

(** 10000 over the distance to the queen [q], floored at 1, signed. *)
Definition defender_term (q d : Token) : float :=
  (sign d * 1e4 / float_of_int (Z.max 1 (manhattan d q)))%float.

(** The flat 75000, signed. *)
Definition deflector_term (d : Token) : float := (sign d * 7.5e4)%float.

(** The terms of the defenders, each measured to the queen of its own
    colour; undefined when such a queen is missing. *)
Fixpoint defender_terms (ds : list Token) : option (list float) :=
  match ds with
  | [] => Some []
  | d :: rest =>
      match queen_of (color d), defender_terms rest with
      | Some q, Some terms => Some (defender_term q d :: terms)
      | _, _ => None
      end
  end.

(** The evaluation as the specification words it: the two sentinels,
    else the sum of the defenders' terms and of the deflectors' terms,
    added in that order from 0. *)
Definition static_evaluation : option float :=
  match queen_of searching, queen_of opponent with
  | Some own, Some other =>
      if destroyed own then Some (-1e10)%float
      else if destroyed other then Some 1e10%float
      else
        match defender_terms (alive defender ts) with
        | Some terms =>
            Some (fold_left PrimFloat.add
                    (terms ++ map deflector_term (alive deflector ts)) 0%float)
        | None => None
        end
  | _, _ => None
  end.

End StaticEvaluation.

(** ** Search nodes *)

(** The colour that acts at a node. *)
Definition acting_color (ai : AI) (max_plays : bool) : Color.t :=
  if max_plays then ai_color ai else adversial_color ai.

(** The value [max_evaluation] or [min_evaluation] starts from. *)
Definition initial_extremum (max_plays : bool) : float :=
  if max_plays then (-2e10)%float else 2e10%float.

(** ** Positions of play *)

(** The game [Game()] builds, computed once. *)
Definition fresh_game : Game :=
  Eval vm_compute in
    match Game_init with
    | Ok g => g
    | _ => mkGame [] [] 0 [] []
    end.

(** The controller after [start("Human", "Human")]. *)
Definition fresh_controller : GameController :=
  mkController fresh_game (Human Color.red) (Human Color.blue) None.

(** The [AI] the controller builds for red on the fresh game. *)
Definition red_ai : AI :=
  Eval vm_compute in
    match AI_init fresh_game Color.red 1 with
    | Ok ai => ai
    | _ => mkAI Color.red Color.blue 1 [] [] 0 0
    end.

(** Equality of actions, to look one up in a list. *)
Definition Action_eqb (a b : Action) : bool :=
  match a, b with
  | AMove t (r, c), AMove t' (r', c') => (t =? t')%nat && (r =? r') && (c =? c')
  | ARotation t o, ARotation t' o' => (t =? t')%nat && Orientation.eqb o o'
  | _, _ => false
  end.

Definition other_color (c : Color.t) : Color.t :=
  if Color.eqb c Color.red then Color.blue else Color.red.

(** An action of colour [c] applied after checking that
    [getAllPossibleActions] offers it. *)
Definition act (g : Game) (c : Color.t) (action : Action) : result Game :=
  possible_actions <- getAllPossibleActions g c ;;
  if existsb (Action_eqb action) possible_actions then doAction g action
  else Raise ValueError.

(** One ply as the search and [test_AI] play it: a legal action of colour
    [c], then the laser of [c]. *)
Definition ply (fuel : nat) (g : Game) (c : Color.t) (action : Action) : result Game :=
  g <- act g c action ;;
  activate_laser fuel g c.

(** Plies played in turn, starting with colour [c]. *)
Fixpoint play (fuel : nat) (g : Game) (c : Color.t) (actions : list Action)
  : result Game :=
  match actions with
  | [] => Ok g
  | action :: rest =>
      g <- ply fuel g c action ;;
      play fuel g (other_color c) rest
  end.

(** Red's queen steps from (0, 5) to (1, 5): a legal first action. *)
Definition queen_step : Action := AMove 1%nat (1, 5).

(** The fresh game after red's queen step and the red laser. *)
Definition after_queen_step : Game :=
  Eval vm_compute in
    match ply 2 fresh_game Color.red queen_step with
    | Ok g => g
    | _ => fresh_game
    end.

(** Six plies: red walks its switch from (3, 4) to (0, 3), blue turns a
    switch back and forth.  The red beams of the first two red plies destroy
    the two red deflectors of column 0, which is empty afterwards. *)
Definition switch_walk : result Game :=
  play 10 fresh_game Color.red
    [ AMove 11%nat (2, 4); ARotation 24%nat Orientation.right;
      AMove 11%nat (1, 3); ARotation 24%nat Orientation.up;
      AMove 11%nat (0, 3); ARotation 24%nat Orientation.right ].

Definition quiet_position : Game :=
  Eval vm_compute in
    match switch_walk with
    | Ok g => g
    | _ => fresh_game
    end.

(** After the walk red turns its laser to the right, towards the switch. *)
Definition switch_scenario : result Game :=
  g <- switch_walk ;;
  act g Color.red (ARotation red_laser Orientation.right).

Definition switch_in_path : Game :=
  Eval vm_compute in
    match switch_scenario with
    | Ok g => g
    | _ => fresh_game
    end.

(** Red brings the deflector of (1, 2) to (0, 2) and turns it up, blue
    turning a switch in between, and then turns its laser to the right. *)
Definition deflector_scenario : result Game :=
  g <- play 10 fresh_game Color.red
         [ AMove 5%nat (0, 2); ARotation 24%nat Orientation.right;
           ARotation 5%nat Orientation.up; ARotation 24%nat Orientation.up ] ;;
  act g Color.red (ARotation red_laser Orientation.right).

Definition deflector_in_path : Game :=
  Eval vm_compute in
    match deflector_scenario with
    | Ok g => g
    | _ => fresh_game
    end.

(** The destroy branch of [hitToken] run on each token of a list. *)
Fixpoint destroy_all (g : Game) (refs : list token_ref) : result Game :=
  match refs with
  | [] => Ok g
  | t :: rest =>
      g <- destroy g t ;;
      destroy_all g rest
  end.

(** The fresh game with the thirteen blue tokens destroyed. *)
Definition blue_wiped : Game :=
  Eval vm_compute in
    match destroy_all fresh_game (seq 13 13) with
    | Ok g => g
    | _ => fresh_game
    end.

(** ** Further readings of a position *)

(** [n] clockwise quarter turns, one command after the other. *)
Definition rotateClockwise_times (n : nat) (token : Token) : result Token :=
  Nat.iter n (fun r => bind r rotateClockwise) (Ok token).

(** Two orientations a quarter turn apart. *)
Definition adjacent (o o' : Orientation.t) : Prop :=
  Orientation.value o' = (Orientation.value o - 1) mod 4
  \/ Orientation.value o' = (Orientation.value o + 1) mod 4.

(** The grid of [Board.__init__]: 8 rows of 10 squares, each carrying its
    own coordinates and its home-zone colour. *)
Definition grid_ok (l : list (list Square)) : Prop :=
  length l = 8%nat
  /\ (forall i line, l !! i = Some line -> length line = 10%nat)
  /\ forall r c,
       0 <= r < 8 -> 0 <= c < 10 ->
       exists square,
         grid_at l (r, c) = Some square
         /\ ref_of square = (r, c)
         /\ sq_color square = Board_color r c.

Definition board_grid (g : Game) : Prop := grid_ok (squares g).

(** A square a token of [tk]'s colour may land on: no occupant, and a
    home-zone colour that is neutral or the token's. *)
Definition landing (g : Game) (tk : Token) (s : Z * Z) : Prop :=
  exists square,
    grid_at (squares g) s = Some square
    /\ inhabiting_token square = None
    /\ (sq_color square = Color.none \/ sq_color square = color tk).

(** The squares and the tokens agree: the grid is the board's, every
    token's coordinates are on the board, and the occupant of a square is a
    token that is not destroyed and carries the square's coordinates.  A
    token that is not destroyed need not be the occupant of its square. *)
Definition coherent (sq : list (list Square)) (ts : list Token) : Prop :=
  grid_ok sq
  /\ (forall t tk, ts !! t = Some tk -> 0 <= row tk < 8 /\ 0 <= column tk < 10)
  /\ (forall s square t,
        grid_at sq s = Some square ->
        inhabiting_token square = Some t ->
        exists tk,
          ts !! t = Some tk
          /\ ref_of square = (row tk, column tk)
          /\ destroyed tk = false).

Definition consistent (g : Game) : Prop := coherent (squares g) (tokens g).

(** The same, as tests. *)
Definition grid_okb (l : list (list Square)) : bool :=
  (length l =? 8)%nat
  && forallb (fun line => (length line =? 10)%nat) l
  && forallb
       (fun r =>
          forallb
            (fun c =>
               match grid_at l (r, c) with
               | Some square =>
                   (sq_row square =? r) && (sq_column square =? c)
                   && Color.eqb (sq_color square) (Board_color r c)
               | None => false
               end)
            (seqZ 0 10))
       (seqZ 0 8).

Definition coherentb (sq : list (list Square)) (ts : list Token) : bool :=
  grid_okb sq
  && forallb
       (fun tk => (0 <=? row tk) && (row tk <? 8) && (0 <=? column tk) && (column tk <? 10))
       ts
  && forallb
       (fun square =>
          match inhabiting_token square with
          | None => true
          | Some t =>
              match ts !! t with
              | Some tk =>
                  (sq_row square =? row tk) && (sq_column square =? column tk)
                  && negb (destroyed tk)
              | None => false
              end
          end)
       (concat sq).

Definition consistentb (g : Game) : bool := coherentb (squares g) (tokens g).

(** An action the rules offer to colour [c]: a possible move, or a
    possible rotation, of a token of that colour that is not destroyed. *)
Definition offered (g : Game) (c : Color.t) (a : Action) : Prop :=
  match a with
  | AMove t s =>
      exists tk moves,
        tokens g !! t = Some tk /\ destroyed tk = false /\ color tk = c
        /\ getPossibleMoves g (Some t) = Ok moves /\ In s moves
  | ARotation t o =>
      exists tk rotations,
        tokens g !! t = Some tk /\ destroyed tk = false /\ color tk = c
        /\ getPossibleRotations g t = Ok rotations /\ In o rotations
  end.

(** An action [doAction] can carry out on a coherent position: a move of
    a token that is not destroyed to a square of the board, a rotation of a
    token that has an orientation to change. *)
Definition sound_action (g : Game) (a : Action) : Prop :=
  match a with
  | AMove t s =>
      exists tk,
        tokens g !! t = Some tk /\ destroyed tk = false
        /\ 0 <= fst s < 8 /\ 0 <= snd s < 10
  | ARotation t o =>
      exists tk, tokens g !! t = Some tk /\ name tk <> queen
  end.

(** ** The outcome of a hit, in closed form *)

(** The game once the token [t], whose state was [tk], has been destroyed
    by a beam that left [trace] in [positions_log]. *)
Definition destroyed_by_beam (g : Game) (t : nat) (tk : Token) (trace : list PosEntry)
  : Game :=
  mkGame (grid_alter (with_inhabiting None) (row tk, column tk) (squares g))
    (EDestruction t :: log g) (turn g)
    (alter (with_destroyed true) t (tokens g))
    (positions_log g ++ trace ++ [Marker_destroyed]).

(** What [hitToken] comes to on a token that stands on its square: the
    token is destroyed at once; or it is a deflector, which is destroyed by
    the beam it reflects; or it is a switch, and the call does not return;
    or the beam ends on it. *)
Definition struck (g : Game) (t : nat) (tk : Token) (direction : Orientation.t)
  : result Game :=
  let here := Pos (row tk) (column tk) in
  if is_destroyed tk direction then Ok (destroyed_by_beam g t tk [here])
  else
    match name tk with
    | switch => Diverge
    | deflector => Ok (destroyed_by_beam g t tk [here; here])
    | _ => Ok (append_positions [here] g)
    end.

(** The orientation facing a beam that travels in [direction]. *)
Definition facing (direction : Orientation.t) : Orientation.t :=
  match direction with
  | Orientation.right => Orientation.left
  | Orientation.left => Orientation.right
  | Orientation.up => Orientation.down
  | Orientation.down => Orientation.up
  end.

(** ** Undoing *)

(** The tokens once those of [ds] have their [destroyed] mark reset, one
    after the other. *)
Definition revive (ds : list nat) (ts : list Token) : list Token :=
  fold_left (fun ts t => alter (with_destroyed false) t ts) ds ts.

(** The event is a move or a rotation. *)
Definition is_action (e : Event) : Prop :=
  match e with
  | EDestruction _ => False
  | _ => True
  end.

(** The last step of [undoLastEvent]: the logged move or rotation played
    back without logging. *)
Definition play_back (g : Game) (e : Event) : result Game :=
  match e with
  | EMove t s => moveToken g t s false
  | ERotation t o => rotateToken g t o false
  | EDestruction _ => Raise IndexError
  end.

(** The event [doAction] logs for the action [a] on the tokens [ts0], and
    the tokens [ts1] it leaves. *)
Definition logged (ts0 : list Token) (a : Action) (e : Event) (ts1 : list Token) : Prop :=
  match a with
  | AMove t s =>
      exists tk,
        ts0 !! t = Some tk /\ destroyed tk = false
        /\ e = EMove t (row tk, column tk)
        /\ ts1 = alter (with_position (fst s) (snd s)) t ts0
  | ARotation t o =>
      exists tk,
        ts0 !! t = Some tk /\ name tk <> queen
        /\ e = ERotation t (orientation tk)
        /\ ts1 = alter (with_orientation o) t ts0
  end.

(** A search function gives back the game it was given as far as the
    tokens, the log and the turn go, and keeps coherence. *)
Definition keeps (recurse : Game -> float -> float -> result (Game * Returned)) : Prop :=
  forall g a b r,
    consistent g ->
    recurse g a b = Ok r ->
    tokens (fst r) = tokens g /\ log (fst r) = log g /\ turn (fst r) = turn g
    /\ consistent (fst r).

(** ** The rotation commands of the controller *)

(** [GameController.rotateSelectedTokenClockwise]: the command is called
    on the selected token itself, not through [Game.rotateToken]; with no
    selection it is looked up on [None]. *)
Definition rotateSelectedTokenClockwise (fuel : nat) (ctl : GameController)
  : result GameController :=
  token <- of_option AttributeError (selected_token ctl) ;;
  tk <- get_token (game ctl) token ;;
  tk <- rotateClockwise tk ;;
  let ctl := set_game (update_token token (fun _ => tk) (game ctl)) ctl in
  let ctl := set_game (unhighlightAllSquares (game ctl)) ctl in
  let ctl := set_selected_token None ctl in
  finishTurn fuel ctl.

(** [GameController.rotateSelectedTokenAntiClockwise] *)
Definition rotateSelectedTokenAntiClockwise (fuel : nat) (ctl : GameController)
  : result GameController :=
  token <- of_option AttributeError (selected_token ctl) ;;
  tk <- get_token (game ctl) token ;;
  tk <- rotateAntiClockwise tk ;;
  let ctl := set_game (update_token token (fun _ => tk) (game ctl)) ctl in
  let ctl := set_game (unhighlightAllSquares (game ctl)) ctl in
  let ctl := set_selected_token None ctl in
  finishTurn fuel ctl.

(** What a rotation command of the controller did to the game: the
    selected token [t] has the orientation [o], the laser may have destroyed
    one token, and the log holds no rotation. *)
Definition rotated_unlogged (g g' : Game) (t : nat) (o : Orientation.t) : Prop :=
  turn g' = turn g + 1
  /\ ((tokens g' = alter (with_orientation o) t (tokens g) /\ log g' = log g)
      \/ exists t',
           tokens g' = alter (with_destroyed true) t' (alter (with_orientation o) t (tokens g))
           /\ log g' = EDestruction t' :: log g).

(** The fresh game with the blue switch of (4, 4) selected. *)
Definition switch_selected : GameController :=
  mkController fresh_game (Human Color.red) (Human Color.blue) (Some 24%nat).

(** The controller after the clockwise command on that selection. *)
Definition switch_turned : GameController :=
  Eval vm_compute in
    match rotateSelectedTokenClockwise 2 switch_selected with
    | Ok ctl => ctl
    | _ => fresh_controller
    end.

(** ** The computer's turn *)

(** The controller after [start("AI", "Human")]. *)
Definition red_ai_controller : GameController :=
  mkController fresh_game (Computer red_ai) (Human Color.blue) None.

(** The same after [test_AI]. *)
Definition red_ai_moved : GameController :=
  Eval vm_compute in
    match test_AI 4 red_ai_controller with
    | Ok ctl => ctl
    | _ => fresh_controller
    end.

(** ** A move by two clicks *)

(** The fresh controller after a click on (4, 4), which selects the blue
    switch standing there, and after a second click on (5, 4). *)
Definition switch_picked : GameController :=
  Eval vm_compute in
    match squareSelected 0 fresh_controller 4 4 with
    | Ok ctl => ctl
    | _ => fresh_controller
    end.

Definition switch_dropped : GameController :=
  Eval vm_compute in
    match squareSelected 2 switch_picked 5 4 with
    | Ok ctl => ctl
    | _ => fresh_controller
    end.

(** ** The positions the program reaches *)








(** ** The search as specified for a node without legal actions *)


(** ** The reflection of a switch *)

(** Modelled on the specification's reflection table for a switch: the
    outgoing direction by incoming direction, for an orientation among left
    and right and for one among up and down. *)
Definition switch_reflection (orientation direction : Orientation.t) : Orientation.t :=
  match orientation with
  | Orientation.left | Orientation.right =>
      match direction with
      | Orientation.right => Orientation.down
      | Orientation.left => Orientation.up
      | Orientation.up => Orientation.left
      | Orientation.down => Orientation.right
      end
  | Orientation.up | Orientation.down =>
      match direction with
      | Orientation.right => Orientation.up
      | Orientation.left => Orientation.down
      | Orientation.up => Orientation.right
      | Orientation.down => Orientation.left
      end
  end.

(** * Properties *)

(** ** The positions of play are what the code computes *)

Lemma Game_init_fresh : Game_init = Ok fresh_game.
Proof. reflexivity. Qed.

Lemma AI_init_red : AI_init fresh_game Color.red 1 = Ok red_ai.
Proof. reflexivity. Qed.

Lemma start_fresh_controller : start "Human" "Human" = Ok fresh_controller.
Proof. reflexivity. Qed.

Lemma switch_walk_quiet_position : switch_walk = Ok quiet_position.
Proof. reflexivity. Qed.

Lemma ply_after_queen_step : ply 2 fresh_game Color.red queen_step = Ok after_queen_step.
Proof. reflexivity. Qed.

(** ** A result does not depend on the fuel *)

(** A sequence that returns has returned at each step. *)
Lemma bind_Ok {A B : Type} (c : result A) (k : A -> result B) (b : B) :
  bind c k = Ok b -> exists a, c = Ok a /\ k a = Ok b.
Proof. destruct c as [a | |]; simpl; [eauto | discriminate | discriminate]. Qed.

(** A [while] loop of [reflect_beam] that finished finishes the same way
    on more fuel. *)
Lemma reflect_beam_while_more_fuel (n : nat) :
  forall (m : nat) (g : Game) (direction : Orientation.t) (row col : Z) x,
    (n <= m)%nat ->
    reflect_beam_while n g direction row col = Ok x ->
    reflect_beam_while m g direction row col = Ok x.
Proof.
  induction n as [| n IH]; intros m g direction row col x Hle H; [discriminate |].
  destruct m as [| m]; [lia |]. cbn [reflect_beam_while] in *.
  destruct (match direction with
            | Orientation.right => col <? 11
            | Orientation.up => row >? -1
            | Orientation.left => col >? -1
            | Orientation.down => row <? 8
            end); [| exact H].
  destruct (get_square g row col) as [square | |]; cbn [bind] in *; try discriminate.
  destruct (inhabiting_token square); [exact H |].
  apply IH; [lia | exact H].
Qed.

(** [reflect_beam] and [reflect] carry the property of the hit they
    call over to themselves. *)
Lemma reflect_beam_with_more_fuel
  (hit hit' : Game -> nat -> Orientation.t -> result Game) (n m : nat) :
  (forall g t d g', hit g t d = Ok g' -> hit' g t d = Ok g') ->
  (n <= m)%nat ->
  forall g t d g',
    reflect_beam_with hit n g t d = Ok g' ->
    reflect_beam_with hit' m g t d = Ok g'.
Proof.
  intros Hh Hle g t d g' H. unfold reflect_beam_with in *.
  apply bind_Ok in H as (tk & -> & H). cbn [bind].
  apply bind_Ok in H as (r & Hr & H).
  rewrite (reflect_beam_while_more_fuel n m _ _ _ _ _ Hle Hr). cbn [bind].
  destruct r as [[[t' |] r] c]; [apply Hh; exact H | exact H].
Qed.

Lemma reflect_with_more
  (beam beam' : Game -> nat -> Orientation.t -> result Game) :
  (forall g t d g', beam g t d = Ok g' -> beam' g t d = Ok g') ->
  forall g t d g',
    reflect_with beam g t d = Ok g' ->
    reflect_with beam' g t d = Ok g'.
Proof.
  intros Hb g t d g' H. unfold reflect_with in *.
  apply bind_Ok in H as (tk & -> & H). cbn [bind].
  destruct (name tk);
    repeat match goal with
           | |- context [if ?b then _ else _] => destruct b
           end;
    try exact H; apply Hb; exact H.
Qed.

(** A hit that returned returns the same game on more fuel. *)
Lemma hitToken_more_fuel (n : nat) :
  forall (m : nat) (g g' : Game) (t : nat) (d : Orientation.t),
    (n <= m)%nat ->
    hitToken n g t d = Ok g' ->
    hitToken m g t d = Ok g'.
Proof.
  induction n as [| n IH]; intros m g g' t d Hle H; [discriminate |].
  destruct m as [| m]; [lia |]. cbn [hitToken] in *.
  apply bind_Ok in H as (tk & -> & H). cbn [bind].
  destruct (is_destroyed tk d); [exact H |].
  revert H. apply reflect_with_more. apply reflect_beam_with_more_fuel; [| lia].
  intros g0 t0 d0 g0'. apply IH. lia.
Qed.

(** So does the firing of a laser. *)
Lemma activate_laser_more_fuel (n m : nat) (g g' : Game) (c : Color.t) :
  (n <= m)%nat ->
  activate_laser n g c = Ok g' ->
  activate_laser m g c = Ok g'.
Proof.
  intros Hle H. unfold activate_laser in *.
  apply bind_Ok in H as (l & -> & H). cbn [bind].
  apply bind_Ok in H as (lz & -> & H). cbn [bind].
  destruct (laser_path lz) as [last_position cells].
  apply bind_Ok in H as (hit & -> & H). cbn [bind].
  destruct hit as [t |]; [| exact H].
  eapply hitToken_more_fuel; eassumption.
Qed.

(** The two loops of the search carry the property of the recursive call
    over to themselves. *)
Lemma minimax_max_loop_more_fuel
  (recurse recurse' : Game -> float -> float -> result (Game * Returned)) (n m : nat)
  (c : Color.t) :
  (forall g a b r, recurse g a b = Ok r -> recurse' g a b = Ok r) ->
  (n <= m)%nat ->
  forall possible_actions g best best_action alpha beta r,
    minimax_max_loop recurse n c possible_actions g best best_action alpha beta = Ok r ->
    minimax_max_loop recurse' m c possible_actions g best best_action alpha beta = Ok r.
Proof.
  intros Hr Hle. induction possible_actions as [| action rest IH];
    intros g best best_action alpha beta r H; [exact H |].
  cbn [minimax_max_loop] in *.
  apply bind_Ok in H as (g1 & -> & H). cbn [bind].
  apply bind_Ok in H as (g2 & Hl & H).
  rewrite (activate_laser_more_fuel n m _ _ _ Hle Hl). cbn [bind].
  apply bind_Ok in H as (r1 & Hr1 & H). rewrite (Hr _ _ _ _ Hr1). cbn [bind].
  apply bind_Ok in H as (g3 & -> & H). cbn [bind].
  apply bind_Ok in H as (evaluation & -> & H). cbn [bind].
  destruct (PrimFloat.ltb beta _); [exact H |]. apply IH. exact H.
Qed.

Lemma minimax_min_loop_more_fuel
  (recurse recurse' : Game -> float -> float -> result (Game * Returned)) (n m : nat)
  (c : Color.t) :
  (forall g a b r, recurse g a b = Ok r -> recurse' g a b = Ok r) ->
  (n <= m)%nat ->
  forall possible_actions g best best_action alpha beta r,
    minimax_min_loop recurse n c possible_actions g best best_action alpha beta = Ok r ->
    minimax_min_loop recurse' m c possible_actions g best best_action alpha beta = Ok r.
Proof.
  intros Hr Hle. induction possible_actions as [| action rest IH];
    intros g best best_action alpha beta r H; [exact H |].
  cbn [minimax_min_loop] in *.
  apply bind_Ok in H as (g1 & -> & H). cbn [bind].
  apply bind_Ok in H as (g2 & Hl & H).
  rewrite (activate_laser_more_fuel n m _ _ _ Hle Hl). cbn [bind].
  apply bind_Ok in H as (r1 & Hr1 & H). rewrite (Hr _ _ _ _ Hr1). cbn [bind].
  apply bind_Ok in H as (g3 & -> & H). cbn [bind].
  apply bind_Ok in H as (evaluation & -> & H). cbn [bind].
  destruct (PrimFloat.ltb _ alpha); [exact H |]. apply IH. exact H.
Qed.

(** A search that returned returns the same game and value on more
    fuel. *)
Lemma minimax_more_fuel (n : nat) :
  forall (m : nat) (ai : AI) (g : Game) (depth : Z) (max_plays : bool)
         (alpha beta : float) r,
    (n <= m)%nat ->
    minimax n ai g depth max_plays alpha beta = Ok r ->
    minimax m ai g depth max_plays alpha beta = Ok r.
Proof.
  induction n as [| n IH]; intros m ai g depth max_plays alpha beta r Hle H;
    [discriminate |].
  destruct m as [| m]; [lia |]. cbn [minimax] in *.
  destruct (depth >? depth_limit ai); [exact H |].
  apply bind_Ok in H as (l & Hl & H).
  assert (Hrec : forall g0 a b r0,
             minimax n ai g0 (depth + 1) (negb max_plays) a b = Ok r0 ->
             minimax m ai g0 (depth + 1) (negb max_plays) a b = Ok r0)
    by (intros; apply (IH m); [lia | assumption]).
  destruct max_plays.
  - apply bind_Ok in Hl as (actions & -> & Hl). cbn [bind].
    rewrite (minimax_max_loop_more_fuel _ _ n m _ Hrec ltac:(lia) _ _ _ _ _ _ _ Hl).
    cbn [bind]. exact H.
  - apply bind_Ok in Hl as (actions & -> & Hl). cbn [bind].
    rewrite (minimax_min_loop_more_fuel _ _ n m _ Hrec ltac:(lia) _ _ _ _ _ _ _ Hl).
    cbn [bind]. exact H.
Qed.

(** The commands of the controller and the plies of a scenario
    likewise. *)
Lemma finishTurn_more_fuel (n m : nat) (ctl ctl' : GameController) :
  (n <= m)%nat ->
  finishTurn n ctl = Ok ctl' ->
  finishTurn m ctl = Ok ctl'.
Proof.
  intros Hle H. unfold finishTurn in *.
  apply bind_Ok in H as (g & Hl & H).
  rewrite (activate_laser_more_fuel n m _ _ _ Hle Hl). exact H.
Qed.

Lemma squareSelected_more_fuel (n m : nat) (ctl ctl' : GameController) (row column : Z) :
  (n <= m)%nat ->
  squareSelected n ctl row column = Ok ctl' ->
  squareSelected m ctl row column = Ok ctl'.
Proof.
  intros Hle H. unfold squareSelected in *.
  apply bind_Ok in H as (square & -> & H). cbn [bind].
  destruct (highlighted square); [| exact H].
  apply bind_Ok in H as (token & -> & H). cbn [bind].
  apply bind_Ok in H as (g & -> & H). cbn [bind].
  apply bind_Ok in H as (ctl1 & Hf & H).
  rewrite (finishTurn_more_fuel n m _ _ Hle Hf). exact H.
Qed.

Lemma ply_more_fuel (n m : nat) (g g' : Game) (c : Color.t) (action : Action) :
  (n <= m)%nat ->
  ply n g c action = Ok g' ->
  ply m g c action = Ok g'.
Proof.
  intros Hle H. unfold ply in *.
  apply bind_Ok in H as (g1 & -> & H). cbn [bind].
  eapply activate_laser_more_fuel; eassumption.
Qed.

Lemma play_more_fuel (n m : nat) (actions : list Action) :
  (n <= m)%nat ->
  forall (g g' : Game) (c : Color.t),
    play n g c actions = Ok g' ->
    play m g c actions = Ok g'.
Proof.
  intros Hle. induction actions as [| action rest IH]; intros g g' c H; [exact H |].
  cbn [play] in *. apply bind_Ok in H as (g1 & Hp & H).
  rewrite (ply_more_fuel n m _ _ _ _ Hle Hp). cbn [bind]. apply IH. exact H.
Qed.

Lemma test_AI_more_fuel (n m : nat) (ctl ctl' : GameController) :
  (n <= m)%nat ->
  test_AI n ctl = Ok ctl' ->
  test_AI m ctl = Ok ctl'.
Proof.
  intros Hle H. unfold test_AI, minimax_root in *.
  destruct (if negb (turn (game ctl) mod 2 =? 0) then blue_player ctl else red_player ctl)
    as [c | ai]; [discriminate |].
  apply bind_Ok in H as (r & Hm & H).
  rewrite (minimax_more_fuel n m _ _ _ _ _ _ _ Hle Hm). cbn [bind].
  destruct (snd r) as [action | v]; [| discriminate].
  apply bind_Ok in H as (g & -> & H). cbn [bind].
  eapply finishTurn_more_fuel; eassumption.
Qed.

(** ** Rotation commands *)

(** [Orientation(v % 4)] never raises: Python's [%] by 4 lands in 0..3. *)
Lemma Orientation_call_mod4 (v : Z) :
  exists o, Orientation.call (v mod 4) = Ok o /\ Orientation.value o = v mod 4.
Proof.
  assert (H : 0 <= v mod 4 < 4) by (apply Z.mod_pos_bound; lia).
  assert (C : v mod 4 = 0 \/ v mod 4 = 1 \/ v mod 4 = 2 \/ v mod 4 = 3) by lia.
  destruct C as [E | [E | [E | E]]]; rewrite E; simpl; eauto.
Qed.

(** C10: in the encoding right=0, up=1, left=2, down=3, [rotateClockwise]
    on a defender, deflector or switch sets the orientation to
    (current - 1) mod 4 and [rotateAntiClockwise] sets it to
    (current + 1) mod 4, touching nothing else; on a laser both commands
    give the partner of the current orientation under right<->down,
    left<->up.  (A queen has neither command.) *)
Theorem rotate_commands_step_or_toggle (token : Token) :
  let v := Orientation.value (orientation token) in
  match name token with
  | queen =>
      rotateClockwise token = Raise AttributeError
      /\ rotateAntiClockwise token = Raise AttributeError
  | laser =>
      rotateClockwise token = Ok (with_orientation (partner (orientation token)) token)
      /\ rotateAntiClockwise token
         = Ok (with_orientation (partner (orientation token)) token)
  | defender | deflector | switch =>
      exists cw acw,
        Orientation.value cw = (v - 1) mod 4
        /\ Orientation.value acw = (v + 1) mod 4
        /\ rotateClockwise token = Ok (with_orientation cw token)
        /\ rotateAntiClockwise token = Ok (with_orientation acw token)
  end.
Proof.
  destruct token as [n r c col d o]; simpl.
  destruct n; simpl; try (split; reflexivity);
    destruct (Orientation_call_mod4 (Orientation.value o - 1)) as (cw & Hc & Vc);
    destruct (Orientation_call_mod4 (Orientation.value o + 1)) as (acw & Ha & Va);
    exists cw, acw; unfold rotateClockwise, rotateAntiClockwise; simpl;
    rewrite Hc, Ha; auto.
Qed.

(** ** A reflected beam starts on the reflecting token's own square *)

(** [reflect_beam] reads the square of the reflecting token first, in
    each of the four loops: with the token on it, the loop stops at once
    and the token hit is the reflecting token itself. *)
Lemma reflect_beam_hits_reflector
  (hit : Game -> token_ref -> Orientation.t -> result Game)
  (fuel : nat) (g : Game) (t : token_ref) (tk : Token) (direction : Orientation.t) :
  stands_on_board g t tk ->
  reflect_beam_with hit (S fuel) g t direction = hit g t direction.
Proof.
  intros (Ht & Hr & Hc & square & Hs & Hi).
  unfold reflect_beam_with, get_token. rewrite Ht. simpl.
  assert (Cu : (row tk >? -1) = true) by lia.
  assert (Cd : (row tk <? 8) = true) by lia.
  assert (Cl : (column tk >? -1) = true) by lia.
  assert (Cr : (column tk <? 11) = true) by lia.
  destruct direction; rewrite ?Cu, ?Cd, ?Cl, ?Cr, Hs; simpl; rewrite Hi; reflexivity.
Qed.

(** Without fuel the loop of [reflect_beam] has not finished. *)
Lemma reflect_beam_no_fuel
  (hit : Game -> token_ref -> Orientation.t -> result Game)
  (g : Game) (t : token_ref) (tk : Token) (direction : Orientation.t) :
  tokens g !! t = Some tk ->
  reflect_beam_with hit 0 g t direction = Diverge.
Proof. intros Ht. unfold reflect_beam_with, get_token. rewrite Ht. reflexivity. Qed.

(** A switch on the board that is hit is hit again by its own reflected
    beam, in the direction it reflected to, and so on: no amount of fuel
    lets the call return. *)
Lemma switch_hit_never_returns (fuel : nat) :
  forall (g : Game) (t : token_ref) (tk : Token) (direction : Orientation.t),
    stands_on_board g t tk ->
    name tk = switch ->
    hitToken fuel g t direction = Diverge.
Proof.
  induction fuel as [| fuel IH]; intros g t tk direction Hb Hn; [reflexivity |].
  pose proof Hb as (Ht & _).
  simpl. unfold get_token at 1. rewrite Ht. simpl.
  unfold is_destroyed. rewrite Hn.
  set (g' := append_positions [Pos (row tk) (column tk)] g).
  assert (Hb' : stands_on_board g' t tk) by exact Hb.
  assert (R : forall d, reflect_beam_with (hitToken fuel) fuel g' t d = Diverge).
  { intros d. destruct fuel as [| fuel'].
    - eapply reflect_beam_no_fuel. exact Ht.
    - rewrite (reflect_beam_hits_reflector _ _ _ _ _ _ Hb').
      eapply IH; eassumption. }
  unfold reflect_with, get_token. change (tokens g') with (tokens g).
  rewrite Ht. simpl. rewrite Hn.
  destruct direction, (orientation tk); simpl; apply R.
Qed.

(** A deflector on the board that reflects is then hit by its own
    reflected beam, from a direction on which it does not reflect: the
    call ends in the destroy branch. *)
Lemma deflector_reflects_onto_itself (fuel : nat) (g : Game) (t : token_ref)
  (tk : Token) (direction : Orientation.t) :
  stands_on_board g t tk ->
  name tk = deflector ->
  is_destroyed tk direction = false ->
  hitToken (S (S fuel)) g t direction
  = destroy (append_positions [Pos (row tk) (column tk); Pos (row tk) (column tk)] g) t.
Proof.
  intros Hb Hn Hd. pose proof Hb as (Ht & _).
  cbn [hitToken]. unfold get_token at 1. rewrite Ht. cbn [of_option bind].
  rewrite Hd.
  set (g' := append_positions [Pos (row tk) (column tk)] g).
  assert (Hb' : stands_on_board g' t tk) by exact Hb.
  unfold reflect_with, get_token. change (tokens g') with (tokens g).
  rewrite Ht. cbn [of_option bind]. rewrite Hn.
  assert (E : forall d, is_destroyed tk d = true ->
              reflect_beam_with (hitToken (S fuel)) (S fuel) g' t d
              = destroy (append_positions [Pos (row tk) (column tk)] g') t).
  { intros d Hd'. rewrite (reflect_beam_hits_reflector _ _ _ _ _ _ Hb').
    cbn [hitToken]. unfold get_token. change (tokens g') with (tokens g).
    rewrite Ht. cbn [of_option bind]. rewrite Hd'. reflexivity. }
  assert (G : append_positions [Pos (row tk) (column tk)] g'
              = append_positions [Pos (row tk) (column tk); Pos (row tk) (column tk)] g).
  { unfold g', append_positions, set_positions_log. simpl.
    rewrite <- app_assoc. reflexivity. }
  rewrite <- G.
  unfold is_destroyed in Hd. rewrite Hn in Hd.
  destruct direction, (orientation tk) eqn:Ho; simpl in Hd; try discriminate;
    simpl; apply E; unfold is_destroyed; rewrite Hn, Ho; reflexivity.
Qed.

(** With the first occupied square of the laser's path known, firing the
    laser is the hit on its occupant. *)
Lemma activate_laser_first_hit (fuel : nat) (g : Game) (c : Color.t)
  (l t : token_ref) (lz : Token) :
  laser_dict c = Ok l ->
  tokens g !! l = Some lz ->
  activate_laser_for (laser_fired g lz) (snd (laser_path lz)) = Ok (Some t) ->
  activate_laser fuel g c = hitToken fuel (laser_fired g lz) t (orientation lz).
Proof.
  intros Hl Ht Hf. unfold activate_laser, get_token.
  rewrite Hl. cbn [bind]. rewrite Ht. cbn [bind of_option].
  destruct (laser_path lz) as [last_position cells]. simpl in Hf.
  rewrite Hf. reflexivity.
Qed.

(** *** A switch in the path of a laser *)

(** C2 (the code departs from the claim): in a position reached by legal
    plies from the fresh game, with the red switch on (0, 3) and the red
    laser pointing right, firing the red laser does not terminate: whatever
    the fuel, [activate_laser] has not returned.  The beam hits the switch,
    the reflected beam is started on the switch's own square and hits the
    switch again, without end. *)
Theorem beam_on_switch_bounces_forever :
  switch_scenario = Ok switch_in_path
  /\ occupancy switch_in_path !! 0%nat
     = Some [Some red_laser; None; None; Some 11%nat; Some 2%nat; Some 1%nat;
             Some 3%nat; Some 4%nat; None; None]
  /\ tokens switch_in_path !! 11%nat
     = Some (mkToken switch 0 3 Color.red false Orientation.right)
  /\ forall fuel, activate_laser fuel switch_in_path Color.red = Diverge.
Proof.
  split; [reflexivity |]. split; [reflexivity |]. split; [reflexivity |].
  intros fuel.
  rewrite (activate_laser_first_hit fuel switch_in_path Color.red red_laser 11%nat
             (mkToken laser 0 0 Color.red false Orientation.right))
    by reflexivity.
  apply switch_hit_never_returns
    with (tk := mkToken switch 0 3 Color.red false Orientation.right);
    [| reflexivity].
  split; [reflexivity |]. split; [simpl; lia |]. split; [simpl; lia |].
  eexists. split; reflexivity.
Qed.

(** *** A deflector oriented up, struck from the right *)

(** C3 (the code departs from the claim): in a position reached by legal
    plies from the fresh game, the red laser's beam travels right along
    row 0 and strikes the deflector on (0, 2), whose orientation is up.
    The deflector reflects the beam upwards, but the reflected beam is
    started on (0, 2) itself: it is recorded there a second time, strikes
    the same deflector from below, and the deflector ends destroyed, its
    square vacated, with a destruction event on the log. *)
Theorem deflector_up_struck_from_right_is_destroyed :
  deflector_scenario = Ok deflector_in_path
  /\ occupancy deflector_in_path !! 0%nat
     = Some [Some red_laser; None; Some 5%nat; None; Some 2%nat; Some 1%nat;
             Some 3%nat; Some 4%nat; None; None]
  /\ tokens deflector_in_path !! 5%nat
     = Some (mkToken deflector 0 2 Color.red false Orientation.up)
  /\ is_destroyed (mkToken deflector 0 2 Color.red false Orientation.up)
       Orientation.right = false
  /\ forall fuel, exists g',
       activate_laser (S (S fuel)) deflector_in_path Color.red = Ok g'
       /\ positions_log g' = [Pos 0 0; Pos 0 2; Pos 0 2; Marker_destroyed]
       /\ tokens g' !! 5%nat
          = Some (mkToken deflector 0 2 Color.red true Orientation.up)
       /\ occupancy g' !! 0%nat
          = Some [Some red_laser; None; None; None; Some 2%nat; Some 1%nat;
                  Some 3%nat; Some 4%nat; None; None]
       /\ log g' = EDestruction 5%nat :: log deflector_in_path.
Proof.
  split; [reflexivity |]. split; [reflexivity |]. split; [reflexivity |].
  split; [reflexivity |].
  intros fuel.
  rewrite (activate_laser_first_hit _ deflector_in_path Color.red red_laser 5%nat
             (mkToken laser 0 0 Color.red false Orientation.right))
    by reflexivity.
  rewrite (deflector_reflects_onto_itself fuel _ 5%nat
             (mkToken deflector 0 2 Color.red false Orientation.up));
    [| | reflexivity | reflexivity].
  - eexists. split; [vm_compute; reflexivity |]. repeat split.
  - split; [reflexivity |]. split; [simpl; lia |]. split; [simpl; lia |].
    eexists. split; reflexivity.
Qed.

(** Struck from the left, a deflector oriented up is destroyed at once. *)
Lemma deflector_up_struck_from_left (fuel : nat) (g : Game) (t : token_ref)
  (tk : Token) :
  tokens g !! t = Some tk ->
  name tk = deflector ->
  orientation tk = Orientation.up ->
  hitToken (S fuel) g t Orientation.left
  = destroy (append_positions [Pos (row tk) (column tk)] g) t.
Proof.
  intros Ht Hn Ho. simpl. unfold get_token at 1. rewrite Ht. simpl.
  unfold is_destroyed. rewrite Hn, Ho. reflexivity.
Qed.

(** On the board, the destroy branch marks the token and logs the event. *)
Lemma destroy_marks_and_logs (g : Game) (t : token_ref) (tk : Token) (square : Square) :
  tokens g !! t = Some tk ->
  get_square g (row tk) (column tk) = Ok square ->
  exists g',
    destroy g t = Ok g'
    /\ tokens g' = alter (with_destroyed true) t (tokens g)
    /\ log g' = EDestruction t :: log g
    /\ turn g' = turn g.
Proof.
  intros Ht Hs. unfold destroy, get_token. cbn [tokens update_token set_tokens].
  rewrite list_lookup_alter_eq, Ht. cbn [fmap option_fmap option_map of_option bind].
  cbn [row column with_destroyed].
  change (get_square (update_token t (with_destroyed true) g) (row tk) (column tk))
    with (get_square g (row tk) (column tk)).
  rewrite Hs. cbn [bind]. eexists. split; [reflexivity |]. repeat split.
Qed.

(** ** The static evaluation *)

(** The index [AI.__init__] stores for a colour is that of the first
    queen of that colour. *)
Lemma argwhere_queen_find (c : Color.t) (ts : list Token) :
  forall (i k : nat),
    argwhere_queen (map name ts) (map color ts) c i = Ok k ->
    exists q, ts !! (k - i)%nat = Some q /\ queen_of ts c = Some q /\ (i <= k)%nat.
Proof.
  unfold queen_of.
  induction ts as [| t rest IH]; intros i k H; simpl in H; [discriminate |].
  simpl. destruct (Name_eqb (name t) queen && Color.eqb (color t) c) eqn:E.
  - injection H as <-. exists t. rewrite Nat.sub_diag. auto.
  - apply IH in H as (q & Hq & Hf & Hle). exists q.
    replace (k - i)%nat with (S (k - S i)) by lia. simpl. auto with lia.
Qed.

(** Masking by the names array selects the tokens of that name. *)
Lemma tokens_named_filter (n : Name) (l : list Token) :
  tokens_named n (map name l) l = List.filter (fun t => Name_eqb (name t) n) l.
Proof.
  induction l as [| t rest IH]; simpl; [reflexivity |].
  destruct (Name_eqb (name t) n); rewrite IH; reflexivity.
Qed.

(** The factor [f], 1 or -1, as a float. *)
Lemma float_of_int_sign (b : bool) :
  float_of_int (if b then 1 else -1) = if b then 1%float else (-1)%float.
Proof. destruct b; reflexivity. Qed.

Section EvaluateState.

(** The [AI] is built once, on [g0]; [g] is the game it later evaluates.
    Names and colours of tokens are never written, so both games carry the
    same ones. *)
Variables (g0 g : Game) (c : Color.t) (limit : Z) (ai : AI).

Hypothesis built : AI_init g0 c limit = Ok ai.

Hypothesis same_names : map name (tokens g) = map name (tokens g0).

Hypothesis same_colors : map color (tokens g) = map color (tokens g0).

Hypothesis coloured : Forall (fun t => color t <> Color.none) (tokens g).

(** What [AI.__init__] stored. *)
Lemma AI_init_fields :
  ai_color ai = c /\ adversial_color ai = opponent c
  /\ names ai = map name (tokens g)
  /\ forall c', c' <> Color.none ->
       exists k q, queen_index ai c' = Ok k
                   /\ tokens g !! k = Some q /\ queen_of (tokens g) c' = Some q.
Proof.
  unfold AI_init in built. rewrite <- same_names, <- same_colors in built.
  destruct (argwhere_queen _ _ Color.blue 0) as [qb | |] eqn:Eb; try discriminate.
  destruct (argwhere_queen _ _ Color.red 0) as [qr | |] eqn:Er; try discriminate.
  simpl in built. injection built as <-. simpl.
  repeat split. intros c' Hc'.
  apply argwhere_queen_find in Eb as (b & Hb & Fb & _).
  apply argwhere_queen_find in Er as (r & Hr & Fr & _).
  rewrite Nat.sub_0_r in Hb, Hr.
  destruct c'; [congruence | exists qb, b | exists qr, r]; auto.
Qed.

(** [distance_to_queen] is the Manhattan distance to the queen of the
    token's colour, floored at 1. *)
Lemma distance_to_queen_spec (d : Token) :
  color d <> Color.none ->
  exists q, queen_of (tokens g) (color d) = Some q
            /\ distance_to_queen ai d (tokens g) = Ok (Z.max 1 (manhattan d q)).
Proof.
  intros Hd. destruct AI_init_fields as (_ & _ & _ & Hq).
  destruct (Hq _ Hd) as (k & q & Hk & Ht & Hf).
  exists q. split; [exact Hf |].
  unfold distance_to_queen. rewrite Hk. simpl. rewrite Ht. reflexivity.
Qed.

(** The first loop adds the defenders' terms to [value], in order. *)
Lemma evaluate_defenders_spec (l : list Token) :
  Forall (fun t => color t <> Color.none) l ->
  forall value, exists terms,
    defender_terms c (tokens g) (alive defender l) = Some terms
    /\ evaluate_defenders ai (tokens g)
         (List.filter (fun t => Name_eqb (name t) defender) l) value
       = Ok (fold_left PrimFloat.add terms value).
Proof.
  destruct AI_init_fields as (Hc & _).
  induction 1 as [| t rest Ht Hrest IH]; intros value; simpl.
  - exists []. auto.
  - destruct (Name_eqb (name t) defender); simpl; [| apply IH].
    destruct (destroyed t); simpl; [apply IH |].
    destruct (distance_to_queen_spec t Ht) as (q & Hq & Hd).
    rewrite Hd, Hq. simpl.
    destruct (IH (value + float_of_int (if Color.eqb (color t) (ai_color ai) then 1 else -1)
                          * 1e4 / float_of_int (Z.max 1 (manhattan t q)))%float)
      as (terms & Ht' & He).
    rewrite Ht', He. eexists. split; [reflexivity |].
    simpl. unfold defender_term, sign. rewrite float_of_int_sign, Hc. reflexivity.
Qed.

(** The second loop adds the deflectors' terms. *)
Lemma evaluate_deflectors_spec (l : list Token) (value : float) :
  evaluate_deflectors ai (List.filter (fun t => Name_eqb (name t) deflector) l) value
  = fold_left PrimFloat.add (map (deflector_term c) (alive deflector l)) value.
Proof.
  destruct AI_init_fields as (Hc & _).
  revert value. induction l as [| t rest IH]; intros value; simpl; [reflexivity |].
  destruct (Name_eqb (name t) deflector); simpl; [| apply IH].
  destruct (destroyed t); simpl; [apply IH |].
  rewrite IH. unfold deflector_term, sign. rewrite float_of_int_sign, Hc. reflexivity.
Qed.

(** C9: the static evaluation for a searching colour is a large negative
    sentinel when that colour's queen is destroyed, else a large positive
    one when the opponent's queen is destroyed, else the sum over the
    non-destroyed defenders of 10000 divided by the Manhattan distance to
    the queen of the defender's colour (floored at 1), positive for the
    searching colour and negative otherwise, plus a flat 75000, with the same
    sign convention, for every non-destroyed deflector. *)
Theorem evaluate_state_is_static_evaluation :
  c <> Color.none ->
  exists v,
    static_evaluation c (tokens g) = Some v
    /\ evaluate_state ai g = Ok v.
Proof.
  intros Hc. destruct AI_init_fields as (Ec & Ea & En & Hq).
  assert (Ho : opponent c <> Color.none)
    by (unfold opponent; destruct (Color.eqb c Color.red); discriminate).
  destruct (Hq c Hc) as (k & own & Hk & Hown & Fown).
  destruct (Hq _ Ho) as (k' & other & Hk' & Hother & Fother).
  unfold evaluate_state, static_evaluation.
  rewrite Ec, Ea, Hk, Fown, Fother. simpl. rewrite Hown. simpl.
  destruct (destroyed own); [eexists; split; reflexivity |].
  rewrite Hk'. simpl. rewrite Hother. simpl.
  destruct (destroyed other); [eexists; split; reflexivity |].
  rewrite En, !tokens_named_filter.
  destruct (evaluate_defenders_spec (tokens g) coloured 0%float) as (terms & Ht & He).
  rewrite Ht, He. simpl. eexists. split; [reflexivity |].
  rewrite evaluate_deflectors_spec, fold_left_app. reflexivity.
Qed.

End EvaluateState.

(** Red's [AI], built on the fresh game, evaluating the position after
    red's first ply, which cost red a deflector. *)
Lemma evaluate_state_after_queen_step :
  exists v,
    static_evaluation Color.red (tokens after_queen_step) = Some v
    /\ evaluate_state red_ai after_queen_step = Ok v.
Proof.
  apply (evaluate_state_is_static_evaluation fresh_game after_queen_step Color.red 1
           red_ai).
  - reflexivity.
  - reflexivity.
  - reflexivity.
  - unfold after_queen_step. cbn [tokens].
    repeat (constructor; [discriminate |]). constructor.
  - discriminate.
Defined.

(** Both red defenders are now two squares from their queen, and red is
    one deflector short. *)
Example evaluate_state_after_queen_step_value :
  evaluate_state red_ai after_queen_step = Ok (-85000)%float.
Proof. reflexivity. Qed.

(** ** Applying an action and undoing it *)

(** Indexing with a non-negative index is a plain lookup. *)
Lemma py_index_nonneg {A : Type} (l : list A) (i : Z) (x : A) :
  0 <= i -> py_index l i = Ok x -> l !! Z.to_nat i = Some x.
Proof.
  intros Hi. unfold py_index.
  destruct ((0 <=? i) && (i <? Z.of_nat (length l))) eqn:E.
  - destruct (l !! Z.to_nat i); simpl; congruence.
  - destruct ((- Z.of_nat (length l) <=? i) && (i <? 0)) eqn:E'; [lia | discriminate].
Qed.

(** And conversely. *)
Lemma py_index_lookup {A : Type} (l : list A) (i : Z) (x : A) :
  0 <= i -> l !! Z.to_nat i = Some x -> py_index l i = Ok x.
Proof.
  intros Hi Hl. unfold py_index.
  apply lookup_lt_Some in Hl as Hlt.
  assert (E : (0 <=? i) && (i <? Z.of_nat (length l)) = true) by lia.
  rewrite E, Hl. reflexivity.
Qed.

(** [get_square] at non-negative coordinates reads the grid there. *)
Lemma get_square_grid_at (g : Game) (r c : Z) (sq : Square) :
  0 <= r -> 0 <= c ->
  get_square g r c = Ok sq <-> grid_at (squares g) (r, c) = Some sq.
Proof.
  intros Hr Hc. unfold get_square, grid_at. simpl. split.
  - destruct (py_index (squares g) r) as [line | |] eqn:E; simpl; try discriminate.
    intros H. apply py_index_nonneg in E; [| exact Hr]. rewrite E. simpl.
    apply py_index_nonneg; assumption.
  - destruct (squares g !! Z.to_nat r) as [line |] eqn:E; simpl; [| discriminate].
    intros H. rewrite (py_index_lookup _ _ _ Hr E). simpl.
    apply py_index_lookup; assumption.
Qed.

(** Reading the grid after an update, at the updated square and
    elsewhere. *)
Lemma grid_at_alter_eq (l : list (list Square)) (s : Z * Z) (f : Square -> Square) :
  grid_at (grid_alter f s l) s = f <$> grid_at l s.
Proof.
  unfold grid_at, grid_alter. rewrite list_lookup_alter_eq.
  destruct (l !! Z.to_nat (fst s)) as [line |]; simpl; [| reflexivity].
  apply list_lookup_alter_eq.
Qed.

(** Another square is not touched. *)
Lemma grid_at_alter_ne (l : list (list Square)) (s s' : Z * Z) (f : Square -> Square) :
  0 <= fst s -> 0 <= snd s -> 0 <= fst s' -> 0 <= snd s' -> s <> s' ->
  grid_at (grid_alter f s l) s' = grid_at l s'.
Proof.
  destruct s as [r c], s' as [r' c']. simpl. intros Hr Hc Hr' Hc' Hne.
  unfold grid_at, grid_alter. simpl.
  destruct (decide (Z.to_nat r = Z.to_nat r')) as [E | N].
  - rewrite E, list_lookup_alter_eq.
    destruct (l !! Z.to_nat r') as [line |]; simpl; [| reflexivity].
    apply list_lookup_alter_ne. intros E'. apply Hne. f_equal; lia.
  - rewrite list_lookup_alter_ne by exact N. reflexivity.
Qed.

(** An update that does not change the element leaves the list as it
    is. *)
Lemma list_alter_fix {A : Type} (f : A -> A) (l : list A) (i : nat) (x : A) :
  l !! i = Some x -> f x = x -> alter f i l = l.
Proof.
  intros Hl Hf. rewrite <- (list_alter_id id l i) at 2 by reflexivity.
  apply list_alter_ext; [| reflexivity]. intros y Hy. unfold id. congruence.
Qed.

(** An update that does not change the square leaves the grid as it
    is. *)
Lemma grid_alter_fix (l : list (list Square)) (s : Z * Z) (f : Square -> Square)
  (sq : Square) :
  grid_at l s = Some sq -> f sq = sq -> grid_alter f s l = l.
Proof.
  unfold grid_at, grid_alter. intros H Hf.
  destruct (l !! Z.to_nat (fst s)) as [line |] eqn:E; simpl in H; [| discriminate].
  apply (list_alter_fix _ _ _ line E).
  eapply list_alter_fix; eassumption.
Qed.

(** Two updates of one square compose. *)
Lemma grid_alter_twice (l : list (list Square)) (s : Z * Z) (f f' : Square -> Square) :
  grid_alter f s (grid_alter f' s l) = grid_alter (f ∘ f') s l.
Proof.
  unfold grid_alter. rewrite list_alter_alter_eq.
  apply list_alter_ext; [| reflexivity].
  intros line _. simpl. apply list_alter_alter_eq.
Qed.

(** What [moveToken] computes for a token whose square is found where
    its coordinates say. *)
Lemma moveToken_result (g : Game) (t : nat) (tk : Token) (a : Square) (s : Z * Z)
  (forward : bool) :
  tokens g !! t = Some tk ->
  get_square g (row tk) (column tk) = Ok a ->
  ref_of a = (row tk, column tk) ->
  moveToken g t s forward
  = Ok (mkGame
          (grid_alter (with_inhabiting (Some t)) s
             (grid_alter (with_inhabiting None) (row tk, column tk) (squares g)))
          (if forward then EMove t (row tk, column tk) :: log g else log g)
          (turn g)
          (alter (with_position (fst s) (snd s)) t (tokens g))
          (positions_log g)).
Proof.
  intros Ht Ha Ra. unfold moveToken, get_token. rewrite Ht. cbn [of_option bind].
  rewrite Ha. cbn [bind]. rewrite Ra. destruct forward; reflexivity.
Qed.

(** A move to a vacant square, undone at once, gives the game back. *)
Theorem move_then_undo (g : Game) (t : nat) (tk : Token) (s : Z * Z) :
  placed g t tk ->
  vacant g s ->
  exists g1,
    doAction g (AMove t s) = Ok g1
    /\ log g1 = EMove t (row tk, column tk) :: log g
    /\ undoLastEvent g1 = Ok g.
Proof.
  intros (Ht & Hr & Hc & a & Ha & Ra & Ia) (Hr' & Hc' & b & Hb & Rb & Ib).
  destruct s as [r' c']. cbn [fst snd] in *.
  assert (Hne : (row tk, column tk) <> (r', c')).
  { intros E. injection E as <- <-. congruence. }
  apply get_square_grid_at in Ha as Ga; [| assumption ..].
  apply get_square_grid_at in Hb as Gb; [| assumption ..].
  unfold doAction. rewrite (moveToken_result g t tk a (r', c') true Ht Ha Ra).
  eexists. split; [reflexivity |]. split; [reflexivity |].
  unfold undoLastEvent. cbn [log undo_from].
  set (g1 := set_log _ _).
  assert (Ht1 : tokens g1 !! t = Some (with_position r' c' tk)).
  { unfold g1. cbn [tokens set_log]. rewrite list_lookup_alter_eq, Ht. reflexivity. }
  assert (Gb1 : grid_at (squares g1) (r', c') = Some (with_inhabiting (Some t) b)).
  { unfold g1. cbn [squares set_log]. rewrite grid_at_alter_eq.
    rewrite grid_at_alter_ne, Gb by (simpl; assumption). reflexivity. }
  apply get_square_grid_at in Gb1; [| assumption ..].
  rewrite (moveToken_result g1 t _ _ (row tk, column tk) false Ht1 Gb1)
    by (unfold ref_of in *; simpl; exact Rb).
  f_equal. unfold g1. cbn [squares log turn tokens positions_log set_log row column
                             with_position fst snd].
  destruct g as [sq lg tn tks pl]. cbn [squares log turn tokens positions_log] in *.
  f_equal.
  - rewrite grid_alter_twice.
    rewrite (grid_alter_fix _ (r', c') _ b);
      [| rewrite grid_at_alter_ne by (simpl; assumption); exact Gb
       | destruct b as [br bc bk bi bh]; unfold compose, with_inhabiting;
         simpl in *; congruence].
    rewrite grid_alter_twice.
    apply (grid_alter_fix _ _ _ a Ga).
    destruct a as [ar ac ak ai ah]; unfold compose, with_inhabiting; simpl in *; congruence.
  - rewrite list_alter_alter_eq. apply (list_alter_fix _ _ _ tk Ht).
    destruct tk as [n r c k d o']; reflexivity.
Qed.

(** What [rotateToken] computes on a token that is not a queen. *)
Lemma rotateToken_result (g : Game) (t : nat) (tk : Token) (o : Orientation.t)
  (forward : bool) :
  tokens g !! t = Some tk ->
  name tk <> queen ->
  rotateToken g t o forward
  = Ok (mkGame (squares g)
          (if forward then ERotation t (orientation tk) :: log g else log g)
          (turn g)
          (alter (with_orientation o) t (tokens g))
          (positions_log g)).
Proof.
  intros Ht Hn. unfold rotateToken, changeOrientation, get_token.
  rewrite Ht. cbn [of_option bind].
  assert (E : Orientation.call (Orientation.value o mod 4) = Ok o)
    by (destruct o; reflexivity).
  rewrite E. destruct (name tk); try congruence; destruct forward; reflexivity.
Qed.

(** A rotation, undone at once, gives the game back. *)
Theorem rotate_then_undo (g : Game) (t : nat) (tk : Token) (o : Orientation.t) :
  tokens g !! t = Some tk ->
  name tk <> queen ->
  exists g1,
    doAction g (ARotation t o) = Ok g1
    /\ log g1 = ERotation t (orientation tk) :: log g
    /\ undoLastEvent g1 = Ok g.
Proof.
  intros Ht Hn. unfold doAction. rewrite (rotateToken_result g t tk o true Ht Hn).
  eexists. split; [reflexivity |]. split; [reflexivity |].
  unfold undoLastEvent. cbn [log undo_from].
  set (g1 := set_log _ _).
  assert (Ht1 : tokens g1 !! t = Some (with_orientation o tk)).
  { unfold g1. cbn [tokens set_log]. rewrite list_lookup_alter_eq, Ht. reflexivity. }
  rewrite (rotateToken_result g1 t _ (orientation tk) false Ht1) by exact Hn.
  f_equal. unfold g1. cbn [squares log turn tokens positions_log set_log].
  destruct g as [sq lg tn tks pl]. cbn [squares log turn tokens positions_log] in *.
  f_equal. rewrite list_alter_alter_eq. apply (list_alter_fix _ _ _ tk Ht).
  destruct tk; reflexivity.
Qed.

(** [reflect_beam] either passes the game to [hitToken] or records the
    exit of the beam. *)
Lemma reflect_beam_outcome
  (hit : Game -> nat -> Orientation.t -> result Game)
  (fuel : nat) (g g' : Game) (t : nat) (direction : Orientation.t) :
  reflect_beam_with hit fuel g t direction = Ok g' ->
  (exists t', hit g t' direction = Ok g') \/ same_position g g'.
Proof.
  unfold reflect_beam_with. intros H.
  destruct (get_token g t) as [tk | |]; simpl in H; try discriminate.
  destruct (reflect_beam_while fuel g direction (row tk) (column tk))
    as [[[[t' |] r] c] | |]; simpl in H; try discriminate.
  - left. eauto.
  - right. injection H as <-. repeat split.
Qed.

(** A hit either leaves the position as it is or ends in one destruction,
    logged on top. *)
Lemma hitToken_outcome (fuel : nat) :
  forall (g g' : Game) (t : nat) (direction : Orientation.t),
    hitToken fuel g t direction = Ok g' ->
    same_position g g'
    \/ exists t', log g' = EDestruction t' :: log g.
Proof.
  induction fuel as [| fuel IH]; intros g g' t direction H; [discriminate |].
  cbn [hitToken] in H.
  destruct (get_token g t) as [tk | |] eqn:Ht; cbn [bind] in H; try discriminate.
  set (g1 := append_positions [Pos (row tk) (column tk)] g) in H.
  destruct (is_destroyed tk direction).
  - right. unfold destroy in H.
    destruct (get_token (update_token t (with_destroyed true) g1) t) as [tk' | |];
      cbn [bind] in H; try discriminate.
    destruct (get_square (update_token t (with_destroyed true) g1) (row tk') (column tk'))
      as [sq | |]; cbn [bind] in H; try discriminate.
    injection H as <-. exists t. reflexivity.
  - assert (B : forall d, reflect_beam_with (hitToken fuel) fuel g1 t d = Ok g' ->
                same_position g g' \/ exists t', log g' = EDestruction t' :: log g).
    { intros d Hd. apply reflect_beam_outcome in Hd as [(t' & Hh) | Hs].
      - apply IH in Hh. exact Hh.
      - left. exact Hs. }
    unfold reflect_with in H.
    destruct (get_token g1 t) as [tk1 | |]; cbn [bind] in H; try discriminate.
    destruct (name tk1);
      repeat match type of H with
             | (if ?b then _ else _) = _ => destruct b
             end;
      try (apply B in H; exact H);
      injection H as <-; left; repeat split.
Qed.

(** So does the firing of a laser. *)
Lemma activate_laser_outcome (fuel : nat) (g g' : Game) (c : Color.t) :
  activate_laser fuel g c = Ok g' ->
  same_position g g'
  \/ exists t', log g' = EDestruction t' :: log g.
Proof.
  unfold activate_laser. intros H.
  destruct (laser_dict c) as [l | |]; cbn [bind] in H; try discriminate.
  destruct (get_token g l) as [lz | |]; cbn [bind] in H; try discriminate.
  destruct (laser_path lz) as [last_position cells].
  destruct (activate_laser_for _ cells) as [[t |] | |]; cbn [bind] in H;
    try discriminate.
  - apply hitToken_outcome in H. exact H.
  - injection H as <-. left. repeat split.
Qed.

(** [undoLastEvent] neither reads nor writes [positions_log]. *)
Lemma undoLastEvent_same_position (g g' g0 : Game) :
  same_position g g' ->
  undoLastEvent g = Ok g0 ->
  exists g0', undoLastEvent g' = Ok g0' /\ same_position g0 g0'.
Proof.
  intros (Hs & Ht & Hl & Hn) Hu.
  destruct g as [sq lg tn tks pl], g' as [sq' lg' tn' tks' pl'].
  cbn [squares tokens log turn] in *. subst sq' tks' lg' tn'.
  unfold undoLastEvent in *. cbn [log] in *.
  revert tks pl pl' g0 Hu. induction lg as [| e rest IH]; intros tks pl pl' g0 Hu;
    [discriminate |].
  cbn [undo_from] in *. destruct e as [t s | t o | t].
  - unfold moveToken, get_token, get_square in *. cbn [tokens squares set_log] in *.
    destruct (tks !! t) as [tk |]; cbn [of_option bind] in *; try discriminate.
    destruct (py_index sq (row tk)) as [line | |]; cbn [bind] in *; try discriminate.
    destruct (py_index line (column tk)) as [a | |]; try discriminate.
    injection Hu as <-. eexists. split; [reflexivity |]. repeat split.
  - unfold rotateToken, changeOrientation, get_token in *.
    cbn [tokens squares set_log] in *.
    destruct (tks !! t) as [tk |]; cbn [of_option bind] in *; try discriminate.
    destruct (name tk); try discriminate;
      destruct (Orientation.call _) as [o' | |]; cbn [bind] in *; try discriminate;
      injection Hu as <-; (eexists; split; [reflexivity |]; repeat split).
  - unfold get_token in *. cbn [tokens set_log] in *.
    destruct (tks !! t) as [tk |]; cbn [of_option bind] in *; try discriminate.
    unfold update_token, set_tokens in *. cbn [tokens squares log turn positions_log] in *.
    eapply IH. exact Hu.
Qed.

(** An applicable action, undone at once, gives the game back. *)
Lemma action_then_undo (g : Game) (a : Action) :
  applicable g a ->
  exists g1, doAction g a = Ok g1 /\ undoLastEvent g1 = Ok g.
Proof.
  destruct a as [t s | t o]; simpl.
  - intros ((tk & Hp) & Hv).
    destruct (move_then_undo g t tk s Hp Hv) as (g1 & Hd & _ & Hu). eauto.
  - intros (tk & Ht & Hn).
    destruct (rotate_then_undo g t tk o Ht Hn) as (g1 & Hd & _ & Hu). eauto.
Qed.

(** An applicable action, the beam, then one [undoLastEvent]: when the
    beam logged no destruction, the position is the one before the action. *)
Theorem ply_then_undo_without_destruction (fuel : nat) (g g1 g2 : Game)
  (c : Color.t) (a : Action) :
  applicable g a ->
  doAction g a = Ok g1 ->
  activate_laser fuel g1 c = Ok g2 ->
  log g2 = log g1 ->
  exists g3, undoLastEvent g2 = Ok g3 /\ same_position g g3.
Proof.
  intros Ha Hd Hl Hlog.
  destruct (action_then_undo g a Ha) as (g1' & Hd' & Hu).
  assert (g1' = g1) by congruence. subst g1'.
  apply activate_laser_outcome in Hl as [Hs | (t' & Ht')].
  - eapply undoLastEvent_same_position; eassumption.
  - rewrite Hlog in Ht'. apply (f_equal length) in Ht'. simpl in Ht'. lia.
Qed.

(** The squares [getPossibleMoves] offers are vacant. *)
Lemma getPossibleMoves_loop_vacant (g : Game) (tk : Token) :
  (forall r c square,
     0 <= r -> 0 <= c -> get_square g r c = Ok square -> ref_of square = (r, c)) ->
  forall (offsets : list (Z * Z)) (moves : list (Z * Z)) (s : Z * Z),
    getPossibleMoves_loop g tk offsets = Ok moves ->
    In s moves ->
    vacant g s.
Proof.
  intros Hg. induction offsets as [| [i j] rest IH]; intros moves s H Hin.
  - injection H as <-. destruct Hin.
  - cbn [getPossibleMoves_loop] in H.
    destruct ((row tk + i <? 0) || (row tk + i >? 7) || (column tk + j <? 0)
              || (column tk + j >? 9)) eqn:B; [eauto |].
    destruct (get_square g (row tk + i) (column tk + j)) as [square | |] eqn:Hs;
      cbn [bind] in H; try discriminate.
    destruct (getPossibleMoves_loop g tk rest) as [moves' | |]; cbn [bind] in H;
      try discriminate.
    destruct (is_None (inhabiting_token square) && _) eqn:E;
      injection H as <-; [| eauto].
    destruct Hin as [<- | Hin]; [| eauto].
    assert (Hr : 0 <= row tk + i) by lia.
    assert (Hc : 0 <= column tk + j) by lia.
    pose proof (Hg _ _ _ Hr Hc Hs) as R. rewrite R. cbn [fst snd].
    split; [exact Hr |]. split; [exact Hc |].
    exists square. split; [exact Hs |]. split; [exact R |].
    destruct (inhabiting_token square); [discriminate | reflexivity].
Qed.

(** [in_game] holds the tokens that are not destroyed. *)
Lemma in_game_alive (g : Game) (t : nat) :
  In t (in_game g) -> exists tk, tokens g !! t = Some tk /\ destroyed tk = false.
Proof.
  unfold in_game. rewrite filter_In. intros (_ & H).
  destruct (tokens g !! t) as [tk |]; [| discriminate].
  exists tk. split; [reflexivity |]. destruct (destroyed tk); [discriminate | reflexivity].
Qed.

(** In a consistent position every action [getAllPossibleActions]
    offers is applicable. *)
Lemma getAllPossibleActions_loop_applicable (g : Game) (c : Color.t) :
  well_placed g ->
  forall (refs : list nat) (actions : list Action) (a : Action),
    (forall t, In t refs -> In t (in_game g)) ->
    getAllPossibleActions_loop g c refs = Ok actions ->
    In a actions ->
    applicable g a.
Proof.
  intros (Hg & Hp). induction refs as [| t rest IH]; intros actions a Hrefs H Hin.
  - injection H as <-. destruct Hin.
  - assert (Hrest : forall t', In t' rest -> In t' (in_game g))
      by (intros t' Ht'; apply Hrefs; right; exact Ht').
    destruct (in_game_alive g t) as (tk & Ht & Hd); [apply Hrefs; left; reflexivity |].
    cbn [getAllPossibleActions_loop] in H. unfold get_token in H at 1.
    rewrite Ht in H. cbn [of_option bind] in H.
    destruct (Color.eqb (color tk) c); [| eauto].
    unfold getPossibleMoves, getPossibleRotations, get_token in H.
    rewrite Ht in H. cbn [of_option bind] in H.
    destruct (Name_eqb (name tk) laser) eqn:Hl; cbn [bind] in H.
    + destruct (Token_getPossibleRotations tk) as [rots | |] eqn:Hrot; cbn [bind] in H;
        try discriminate.
      destruct (getAllPossibleActions_loop g c rest) as [actions' | |]; cbn [bind] in H;
        try discriminate.
      injection H as <-. cbn [map app] in Hin.
      apply in_app_or in Hin as [Hin | Hin]; [| eauto].
      apply in_map_iff in Hin as (o & <- & _). exists tk. split; [exact Ht |].
      destruct (name tk); discriminate.
    + destruct (getPossibleMoves_loop g tk neighbourhood) as [moves | |] eqn:Hm;
        cbn [bind] in H; try discriminate.
      destruct (Token_getPossibleRotations tk) as [rots | |] eqn:Hrot; cbn [bind] in H;
        try discriminate.
      destruct (getAllPossibleActions_loop g c rest) as [actions' | |]; cbn [bind] in H;
        try discriminate.
      injection H as <-.
      apply in_app_or in Hin as [Hin | Hin];
        [| apply in_app_or in Hin as [Hin | Hin]; [| eauto]].
      * apply in_map_iff in Hin as (s & <- & Hs). split; [eauto |].
        eapply getPossibleMoves_loop_vacant; eassumption.
      * apply in_map_iff in Hin as (o & <- & Ho). exists tk. split; [exact Ht |].
        intros Hq. unfold Token_getPossibleRotations in Hrot. rewrite Hq in Hrot.
        injection Hrot as <-. destruct Ho.
Qed.

(** The round trip of one ply, for every legal action of a consistent
    position: the action applies, and if the beam that follows returns
    without logging a destruction, a single [undoLastEvent] restores the
    board, every token, the log and the turn. *)
Theorem legal_ply_then_undo_without_destruction (g : Game) (c : Color.t)
  (actions : list Action) (a : Action) :
  well_placed g ->
  getAllPossibleActions g c = Ok actions ->
  In a actions ->
  exists g1,
    doAction g a = Ok g1
    /\ forall fuel g2,
         activate_laser fuel g1 c = Ok g2 ->
         log g2 = log g1 ->
         exists g3, undoLastEvent g2 = Ok g3 /\ same_position g g3.
Proof.
  intros Hw Hall Hin.
  assert (Ha : applicable g a).
  { eapply getAllPossibleActions_loop_applicable; [exact Hw | | exact Hall | exact Hin].
    auto. }
  destruct (action_then_undo g a Ha) as (g1 & Hd & Hu).
  exists g1. split; [exact Hd |]. intros fuel g2 Hl Hlog.
  eapply ply_then_undo_without_destruction; eassumption.
Qed.

(** The position after the switch's walk is consistent. *)
Lemma quiet_position_well_placed : well_placed quiet_position.
Proof.
  split.
  - intros r c square Hr Hc H. apply get_square_grid_at in H; [| assumption ..].
    unfold grid_at in H. cbn [fst snd] in H.
    rewrite <- (Z2Nat.id r), <- (Z2Nat.id c) by assumption.
    revert H. generalize (Z.to_nat r) (Z.to_nat c). intros n m H.
    do 8 (destruct n as [| n];
          [do 10 (destruct m as [| m]; [injection H as <-; reflexivity |]);
           discriminate |]).
    discriminate.
  - intros t tk Ht Hd.
    do 26 (destruct t as [| t];
           [injection Ht as <-; first [discriminate Hd |
              split; [reflexivity |]; split; [simpl; lia |]; split; [simpl; lia |];
              eexists; split; [reflexivity |]; split; reflexivity] |]).
    discriminate.
Qed.

(** In that position red turns its switch; the red beam runs down the
    empty column 0 and leaves the board. *)
Lemma quiet_ply_then_undo :
  exists g1,
    doAction quiet_position (ARotation 11%nat Orientation.up) = Ok g1
    /\ forall fuel g2,
         activate_laser fuel g1 Color.red = Ok g2 ->
         log g2 = log g1 ->
         exists g3, undoLastEvent g2 = Ok g3 /\ same_position quiet_position g3.
Proof.
  eapply (legal_ply_then_undo_without_destruction quiet_position Color.red).
  - exact quiet_position_well_placed.
  - vm_compute. reflexivity.
  - simpl. tauto.
Defined.

(** There the beam does leave the board, and the undo restores all but
    [positions_log]. *)
Example quiet_ply_beam_leaves_the_board :
  exists g1 g2,
    act quiet_position Color.red (ARotation 11%nat Orientation.up) = Ok g1
    /\ activate_laser 0 g1 Color.red = Ok g2
    /\ log g2 = log g1
    /\ positions_log g2 = [Pos 0 0; Pos 7 0; Marker_out]
    /\ undoLastEvent g2 = Ok (set_positions_log (positions_log g2) quiet_position).
Proof.
  eexists. eexists. split; [vm_compute; reflexivity |].
  split; [vm_compute; reflexivity |]. repeat split.
Qed.

(** ** One ply and its undo, with a destruction *)

(** C1 (the code departs from the claim): on the fresh game red moves
    its queen, a legal action, and fires.  The beam destroys the red
    deflector of (3, 0); the log holds the destruction above the move.  One
    call of [undoLastEvent] unwinds both entries and restores every token
    (position, orientation, destroyed flag) and the log, but not the board:
    undoing a destruction resets the flag only, and square (3, 0), vacated
    by the hit, stays empty. *)
Theorem undo_after_destruction_leaves_square_empty :
  (exists possible_actions,
     getAllPossibleActions fresh_game Color.red = Ok possible_actions
     /\ In queen_step possible_actions)
  /\ exists g1 g2 g3,
       doAction fresh_game queen_step = Ok g1
       /\ (forall fuel, (2 <= fuel)%nat -> activate_laser fuel g1 Color.red = Ok g2)
       /\ log g2 = [EDestruction 6%nat; EMove 1%nat (0, 5)]
       /\ undoLastEvent g2 = Ok g3
       /\ tokens g3 = tokens fresh_game
       /\ log g3 = log fresh_game
       /\ occupancy fresh_game !! 3%nat
          = Some [Some 6%nat; None; Some 21%nat; None; Some 11%nat; Some 12%nat;
                  None; Some 7%nat; None; Some 22%nat]
       /\ occupancy g3 !! 3%nat
          = Some [None; None; Some 21%nat; None; Some 11%nat; Some 12%nat;
                  None; Some 7%nat; None; Some 22%nat].
Proof.
  split.
  - eexists. split; [vm_compute; reflexivity |]. simpl. tauto.
  - eexists. eexists. eexists.
    split; [vm_compute; reflexivity |].
    split.
    { intros fuel Hle. apply (activate_laser_more_fuel 2 fuel _ _ _ Hle).
      vm_compute. reflexivity. }
    split; [reflexivity |].
    split; [vm_compute; reflexivity |].
    repeat split.
Qed.

(** ** Selecting a square *)

(** C5 (the code departs from the claim): at turn 0, an even turn, the
    colour to move is red: [getCurrentPlayerColor] says so and [finishTurn]
    fires the red laser.  Yet [squareSelected] drops the selection when the
    clicked token has that colour and keeps it otherwise: a click on the red
    queen selects nothing, a click on the blue queen selects it and
    highlights its moves, and a click on one of these moves the blue queen,
    fires the red laser and advances the turn. *)
Theorem selection_rejects_the_side_to_move :
  start "Human" "Human" = Ok fresh_controller
  /\ turn (game fresh_controller) = 0
  /\ getCurrentPlayerColor fresh_controller = Color.red
  /\ tokens fresh_game !! 1%nat = Some (mkToken queen 0 5 Color.red false Orientation.up)
  /\ (forall fuel, squareSelected fuel fresh_controller 0 5 = Ok fresh_controller)
  /\ tokens fresh_game !! 14%nat
     = Some (mkToken queen 7 4 Color.blue false Orientation.up)
  /\ exists ctl ctl',
       (forall fuel, squareSelected fuel fresh_controller 7 4 = Ok ctl)
       /\ selected_token ctl = Some 14%nat
       /\ highlighted_squares (game ctl) = [(6, 3); (6, 4); (6, 5)]
       /\ (forall fuel, (2 <= fuel)%nat -> squareSelected fuel ctl 6 4 = Ok ctl')
       /\ tokens (game ctl') !! 14%nat
          = Some (mkToken queen 6 4 Color.blue false Orientation.up)
       /\ turn (game ctl') = 1
       /\ positions_log (game ctl') = [Pos 0 0; Pos 3 0; Pos 3 0; Marker_destroyed].
Proof.
  split; [exact start_fresh_controller |].
  split; [reflexivity |]. split; [reflexivity |]. split; [reflexivity |].
  split.
  { intros fuel. apply (squareSelected_more_fuel 0 fuel); [lia | reflexivity]. }
  split; [reflexivity |].
  eexists. eexists.
  split.
  { intros fuel. apply (squareSelected_more_fuel 0 fuel); [lia |].
    vm_compute. reflexivity. }
  split; [reflexivity |]. split; [reflexivity |].
  split.
  { intros fuel Hle. apply (squareSelected_more_fuel 2 fuel _ _ _ _ Hle).
    vm_compute. reflexivity. }
  repeat split.
Qed.

(** ** A node whose action list is empty *)

(** [minimax] has no branch for an empty action list.  Were the list
    empty at a node below the root and within the depth limit, the loop
    would run over nothing and the node would return the value its extremum
    started from. *)
Lemma node_without_actions_returns_initial_extremum (fuel : nat) (ai : AI)
  (g : Game) (depth : Z) (max_plays : bool) (alpha beta : float) :
  depth <= depth_limit ai ->
  depth <> 0 ->
  getAllPossibleActions g (acting_color ai max_plays) = Ok [] ->
  minimax (S fuel) ai g depth max_plays alpha beta
  = Ok (g, REval (initial_extremum max_plays)).
Proof.
  intros Hd H0 Ha. cbn [minimax].
  assert (E : (depth >? depth_limit ai) = false) by lia.
  assert (Z0 : (depth =? 0) = false) by lia.
  rewrite E. unfold acting_color in Ha.
  destruct max_plays; rewrite Ha; simpl; rewrite Z0; reflexivity.
Qed.

(** At the root it would have no [best_action] to return. *)
Lemma root_without_actions_raises (fuel : nat) (ai : AI) (g : Game)
  (alpha beta : float) :
  0 <= depth_limit ai ->
  getAllPossibleActions g (ai_color ai) = Ok [] ->
  minimax (S fuel) ai g 0 true alpha beta = Raise UnboundLocalError.
Proof.
  intros Hd Ha. cbn [minimax].
  assert (E : (0 >? depth_limit ai) = false) by lia.
  rewrite E, Ha. reflexivity.
Qed.

(** ** The search and the board *)

(** C7 (the code departs from the claim): the root call of red's search
    on the fresh game, with the controller's depth limit of 1, returns an
    action and an empty log, and every token has its position, orientation
    and destroyed flag back; the board's occupancy is not restored.  The
    deflectors the explored beams destroyed, on (3, 0), (4, 0), (3, 9) and
    (4, 9), are alive again but their squares stay empty, since undoing a
    destruction resets the flag only. *)
Theorem search_leaves_destroyed_squares_empty :
  exists g' action,
    (forall fuel, (4 <= fuel)%nat ->
       minimax_root fuel red_ai fresh_game = Ok (g', RAction action))
    /\ log g' = log fresh_game
    /\ tokens g' = tokens fresh_game
    /\ occupancy fresh_game !! 3%nat
       = Some [Some 6%nat; None; Some 21%nat; None; Some 11%nat; Some 12%nat;
               None; Some 7%nat; None; Some 22%nat]
    /\ occupancy g' !! 3%nat
       = Some [None; None; Some 21%nat; None; Some 11%nat; Some 12%nat;
               None; Some 7%nat; None; None]
    /\ occupancy fresh_game !! 4%nat
       = Some [Some 8%nat; None; Some 19%nat; None; Some 24%nat; Some 25%nat;
               None; Some 9%nat; None; Some 20%nat]
    /\ occupancy g' !! 4%nat
       = Some [None; None; Some 19%nat; None; Some 24%nat; Some 25%nat;
               None; Some 9%nat; None; None].
Proof.
  eexists. eexists. split.
  { intros fuel Hle. unfold minimax_root.
    apply (minimax_more_fuel 4 fuel _ _ _ _ _ _ _ Hle). vm_compute. reflexivity. }
  repeat split.
Qed.

(** ** Quarter turns *)

(** The clockwise and the anti-clockwise command undo each other on every
    token that has them, and bring the token back after four turns in one
    direction, two for a laser, whose commands both toggle. *)
Theorem rotation_commands_round_trip (token : Token) :
  name token <> queen ->
  bind (rotateClockwise token) rotateAntiClockwise = Ok token
  /\ bind (rotateAntiClockwise token) rotateClockwise = Ok token
  /\ rotateClockwise_times (if Name_eqb (name token) laser then 2 else 4) token
     = Ok token.
Proof.
  destruct token as [n r c k d o]. simpl. intros Hn.
  destruct n; try congruence; destruct o; repeat split; reflexivity.
Qed.

(** The red switch of the fresh game. *)
Lemma rotation_commands_round_trip_switch :
  bind (rotateClockwise (mkToken switch 3 4 Color.red false Orientation.right))
    rotateAntiClockwise
  = Ok (mkToken switch 3 4 Color.red false Orientation.right)
  /\ bind (rotateAntiClockwise (mkToken switch 3 4 Color.red false Orientation.right))
       rotateClockwise
     = Ok (mkToken switch 3 4 Color.red false Orientation.right)
  /\ rotateClockwise_times 4 (mkToken switch 3 4 Color.red false Orientation.right)
     = Ok (mkToken switch 3 4 Color.red false Orientation.right).
Proof.
  apply (rotation_commands_round_trip
           (mkToken switch 3 4 Color.red false Orientation.right)).
  discriminate.
Defined.

(** ** The rotations a token is offered *)

(** [getPossibleRotations] never raises and never offers the current
    orientation: a queen is offered nothing, a defender or deflector its
    two neighbours (so never the opposite orientation either), a switch one
    of right and up, a laser the partner of its orientation.  Each offered
    rotation, applied by [rotateToken], sets exactly that orientation and
    logs the previous one. *)
Theorem offered_rotations_are_turns (g : Game) (t : nat) (tk : Token) :
  tokens g !! t = Some tk ->
  exists rotations,
    getPossibleRotations g t = Ok rotations
    /\ (name tk = queen -> rotations = [])
    /\ (name tk = defender \/ name tk = deflector ->
          length rotations = 2%nat
          /\ forall o, In o rotations <-> adjacent (orientation tk) o)
    /\ (name tk = switch ->
          rotations = [Orientation.up] \/ rotations = [Orientation.right])
    /\ (name tk = laser -> rotations = [partner (orientation tk)])
    /\ forall o,
         In o rotations ->
         o <> orientation tk
         /\ rotateToken g t o true
            = Ok (mkGame (squares g) (ERotation t (orientation tk) :: log g) (turn g)
                    (alter (with_orientation o) t (tokens g)) (positions_log g)).
Proof.
  intros Ht. unfold getPossibleRotations, get_token. rewrite Ht. cbn [of_option bind].
  assert (R : forall o, name tk <> queen ->
              rotateToken g t o true
              = Ok (mkGame (squares g) (ERotation t (orientation tk) :: log g) (turn g)
                      (alter (with_orientation o) t (tokens g)) (positions_log g)))
    by (intros o Hn; apply (rotateToken_result g t tk o true Ht Hn)).
  destruct tk as [n r c k d o0]. cbn [name orientation] in *.
  unfold Token_getPossibleRotations, adjacent. cbn [name orientation].
  destruct n, o0; cbn; eexists; (split; [reflexivity |]);
    (split; [intros Hn; try discriminate Hn; reflexivity |]);
    (split;
     [intros [Hn | Hn]; try discriminate Hn;
      (split; [reflexivity |]);
      intros o; (split;
                 [intros [<- | [<- | []]]; cbn; auto
                 | intros [H | H]; destruct o; try discriminate H; simpl; auto]) |]);
    (split; [intros Hn; try discriminate Hn; auto |]);
    (split; [intros Hn; try discriminate Hn; reflexivity |]);
    intros o Hin;
    repeat (destruct Hin as [<- | Hin];
            [split; [discriminate | apply R; discriminate] |]);
    destruct Hin.
Qed.

(** The red deflector of (1, 2) in the fresh game, oriented left. *)
Lemma offered_rotations_fresh_deflector :
  exists rotations,
    getPossibleRotations fresh_game 5%nat = Ok rotations
    /\ (deflector = queen -> rotations = [])
    /\ (deflector = defender \/ deflector = deflector ->
          length rotations = 2%nat
          /\ forall o, In o rotations <-> adjacent Orientation.left o)
    /\ (deflector = switch ->
          rotations = [Orientation.up] \/ rotations = [Orientation.right])
    /\ (deflector = laser -> rotations = [partner Orientation.left])
    /\ forall o,
         In o rotations ->
         o <> Orientation.left
         /\ rotateToken fresh_game 5%nat o true
            = Ok (mkGame (squares fresh_game) (ERotation 5%nat Orientation.left :: log fresh_game)
                    (turn fresh_game)
                    (alter (with_orientation o) 5%nat (tokens fresh_game))
                    (positions_log fresh_game)).
Proof.
  apply (offered_rotations_are_turns fresh_game 5%nat
           (mkToken deflector 1 2 Color.red false Orientation.left)).
  reflexivity.
Defined.

(** ** The grid of the board *)

(** A grid place is read by [get_square]. *)
Lemma board_grid_get_square (g : Game) (r c : Z) :
  board_grid g -> 0 <= r < 8 -> 0 <= c < 10 ->
  exists square,
    get_square g r c = Ok square
    /\ grid_at (squares g) (r, c) = Some square
    /\ ref_of square = (r, c)
    /\ sq_color square = Board_color r c.
Proof.
  intros (_ & _ & Hg) Hr Hc. destruct (Hg r c Hr Hc) as (square & Hs & Hrc & Hk).
  exists square. split; [| auto]. apply get_square_grid_at; [lia | lia | exact Hs].
Qed.

(** Reading the grid after an update, wherever the update was. *)
Lemma grid_at_alter (l : list (list Square)) (s s' : Z * Z) (f : Square -> Square) :
  grid_at (grid_alter f s l) s' = grid_at l s'
  \/ grid_at (grid_alter f s l) s' = f <$> grid_at l s'.
Proof.
  unfold grid_at, grid_alter.
  destruct (decide (Z.to_nat (fst s) = Z.to_nat (fst s'))) as [E | N].
  - rewrite <- E, list_lookup_alter_eq.
    destruct (l !! Z.to_nat (fst s)) as [line |]; cbn; [| left; reflexivity].
    destruct (decide (Z.to_nat (snd s) = Z.to_nat (snd s'))) as [E2 | N2].
    + rewrite <- E2, list_lookup_alter_eq. right. reflexivity.
    + rewrite list_lookup_alter_ne by exact N2. left. reflexivity.
  - rewrite list_lookup_alter_ne by exact N. left. reflexivity.
Qed.

(** An update that keeps the coordinates and the colour of a square keeps
    the grid. *)
Lemma grid_ok_alter (l : list (list Square)) (s : Z * Z) (f : Square -> Square) :
  (forall square, ref_of (f square) = ref_of square
                  /\ sq_color (f square) = sq_color square) ->
  grid_ok l -> grid_ok (grid_alter f s l).
Proof.
  intros Hf (Hlen & Hrows & Hl). unfold grid_alter. split; [| split].
  - rewrite length_alter. exact Hlen.
  - intros i line. rewrite list_lookup_alter.
    destruct (decide (Z.to_nat (fst s) = i)) as [E | N]; [| apply Hrows].
    destruct (l !! Z.to_nat (fst s)) as [line0 |] eqn:E0; [| discriminate].
    cbn. intros H. injection H as <-. rewrite length_alter. eapply Hrows. exact E0.
  - intros r c Hr Hc. destruct (Hl r c Hr Hc) as (square & Hs & Hrc & Hk).
    destruct (grid_at_alter l s (r, c) f) as [E | E]; unfold grid_alter in E;
      rewrite E, Hs.
    + eauto.
    + exists (f square). destruct (Hf square) as (E1 & E2).
      split; [reflexivity |]. split; congruence.
Qed.

Lemma grid_ok_with_inhabiting (l : list (list Square)) (s : Z * Z) (o : option nat) :
  grid_ok l -> grid_ok (grid_alter (with_inhabiting o) s l).
Proof. apply grid_ok_alter. intros square. split; reflexivity. Qed.

(** ** The moves a token is offered *)

Lemma neighbourhood_spec (i j : Z) :
  In (i, j) neighbourhood <-> -1 <= i <= 1 /\ -1 <= j <= 1.
Proof.
  change neighbourhood
    with [(-1, -1); (-1, 0); (-1, 1); (0, -1); (0, 0); (0, 1); (1, -1); (1, 0); (1, 1)].
  simpl. split.
  - intros H. repeat (destruct H as [H | H]; [injection H as <- <-; lia |]). destruct H.
  - intros (Hi & Hj).
    assert (Ci : i = -1 \/ i = 0 \/ i = 1) by lia.
    assert (Cj : j = -1 \/ j = 0 \/ j = 1) by lia.
    destruct Ci as [-> | [-> | ->]], Cj as [-> | [-> | ->]]; tauto.
Qed.

Lemma getPossibleMoves_loop_spec (g : Game) (tk : Token) :
  board_grid g ->
  forall offsets,
  exists moves,
    getPossibleMoves_loop g tk offsets = Ok moves
    /\ forall r c,
         In (r, c) moves
         <-> (exists i j, In (i, j) offsets /\ r = row tk + i /\ c = column tk + j)
             /\ 0 <= r <= 7 /\ 0 <= c <= 9 /\ landing g tk (r, c).
Proof.
  intros Hg. induction offsets as [| [i j] rest IH].
  - exists []. split; [reflexivity |]. intros r c. split; [intros [] |].
    intros ((i & j & [] & _) & _).
  - destruct IH as (moves & Hm & Hspec). cbn [getPossibleMoves_loop].
    destruct ((row tk + i <? 0) || (row tk + i >? 7) || (column tk + j <? 0)
              || (column tk + j >? 9)) eqn:B.
    + exists moves. split; [exact Hm |]. intros r c. rewrite Hspec. split.
      * intros ((i' & j' & Hin & Hr & Hc) & Hb). split; [| exact Hb].
        exists i', j'. split; [right; exact Hin | auto].
      * intros ((i' & j' & [Hin | Hin] & Hr & Hc) & Hb); [| split; eauto].
        injection Hin as <- <-. lia.
    + destruct (board_grid_get_square g (row tk + i) (column tk + j) Hg)
        as (square & Hs & Ha & Hrc & Hk); [lia | lia |].
      rewrite Hs, Hm. cbn [bind].
      assert (L : landing g tk (row tk + i, column tk + j)
                  <-> is_None (inhabiting_token square)
                      && (Color.eqb (sq_color square) Color.none
                          || Color.eqb (sq_color square) (color tk)) = true).
      { unfold landing. rewrite Ha. split.
        - intros (sq & E & Hi & Hc). injection E as <-. rewrite Hi. cbn.
          destruct Hc as [-> | ->]; [reflexivity |].
          destruct (color tk); cbn; rewrite ?orb_true_r; reflexivity.
        - intros E. exists square. split; [reflexivity |].
          destruct (inhabiting_token square); [discriminate |]. split; [reflexivity |].
          cbn in E. destruct (sq_color square), (color tk); cbn in E;
            try discriminate; auto. }
      destruct (is_None (inhabiting_token square) && _) eqn:E.
      * eexists. split; [reflexivity |]. intros r c. cbn [In]. rewrite Hspec. split.
        -- intros [H | ((i' & j' & Hin & Hr & Hc) & Hb)].
           ++ rewrite Hrc in H. injection H as <- <-.
              split; [exists i, j; split; [left; reflexivity | auto] |].
              split; [lia |]. split; [lia |]. apply L. reflexivity.
           ++ split; [| exact Hb]. exists i', j'. split; [right; exact Hin | auto].
        -- intros ((i' & j' & [Hin | Hin] & Hr & Hc) & Hb).
           ++ injection Hin as <- <-. left. rewrite Hrc. subst. reflexivity.
           ++ right. split; eauto.
      * exists moves. split; [reflexivity |]. intros r c. rewrite Hspec. split.
        -- intros ((i' & j' & Hin & Hr & Hc) & Hb). split; [| exact Hb].
           exists i', j'. split; [right; exact Hin | auto].
        -- intros ((i' & j' & [Hin | Hin] & Hr & Hc) & Hb1 & Hb2 & Hl); [| split; eauto].
           injection Hin as <- <-. subst r c. apply L in Hl. discriminate.
Qed.

(** [getPossibleMoves] never raises on the board.  For a laser it is
    empty; for any other token it holds exactly the squares of the 3 x 3
    neighbourhood of the token's coordinates that lie on the board, have no
    occupant and whose home-zone colour is neutral or the token's. *)
Theorem possible_moves_are_the_free_neighbours (g : Game) (t : nat) (tk : Token) :
  board_grid g ->
  tokens g !! t = Some tk ->
  exists moves,
    getPossibleMoves g (Some t) = Ok moves
    /\ (name tk = laser -> moves = [])
    /\ (name tk <> laser ->
        forall r c,
          In (r, c) moves
          <-> Z.abs (r - row tk) <= 1 /\ Z.abs (c - column tk) <= 1
              /\ 0 <= r <= 7 /\ 0 <= c <= 9
              /\ landing g tk (r, c)).
Proof.
  intros Hg Ht. unfold getPossibleMoves, get_token. rewrite Ht. cbn [of_option bind].
  destruct (Name_eqb (name tk) laser) eqn:E.
  - exists []. split; [reflexivity |]. split; [reflexivity |].
    intros Hn. destruct (name tk); try discriminate. congruence.
  - destruct (getPossibleMoves_loop_spec g tk Hg neighbourhood) as (moves & Hm & Hspec).
    exists moves. split; [exact Hm |].
    split; [intros Hn; rewrite Hn in E; discriminate |].
    intros _ r c. rewrite Hspec. split.
    + intros ((i & j & Hin & Hr & Hc) & Hb). apply neighbourhood_spec in Hin.
      split; [lia |]. split; [lia |]. exact Hb.
    + intros (Hr & Hc & Hb). split; [| exact Hb].
      exists (r - row tk), (c - column tk). rewrite neighbourhood_spec. lia.
Qed.

(** The tests decide the properties. *)
Lemma grid_okb_sound (l : list (list Square)) : grid_okb l = true -> grid_ok l.
Proof.
  unfold grid_okb. rewrite !andb_true_iff, !forallb_forall.
  intros ((Hlen & Hrows) & Hl). split; [| split].
  - apply Nat.eqb_eq. exact Hlen.
  - intros i line Hi. apply Nat.eqb_eq, Hrows. eapply list_elem_of_In, list_elem_of_lookup_2.
    exact Hi.
  - intros r c Hr Hc.
    assert (Ir : In r (seqZ 0 8)) by (apply list_elem_of_In, elem_of_seqZ; lia).
    assert (Ic : In c (seqZ 0 10)) by (apply list_elem_of_In, elem_of_seqZ; lia).
    specialize (Hl r Ir). rewrite forallb_forall in Hl. specialize (Hl c Ic).
    destruct (grid_at l (r, c)) as [square |]; [| discriminate].
    exists square. rewrite !andb_true_iff in Hl. destruct Hl as ((E1 & E2) & E3).
    apply Z.eqb_eq in E1, E2. split; [reflexivity |]. split.
    + unfold ref_of. congruence.
    + destruct (sq_color square), (Board_color r c); try discriminate; reflexivity.
Qed.

Lemma coherentb_sound (sq : list (list Square)) (ts : list Token) :
  coherentb sq ts = true -> coherent sq ts.
Proof.
  unfold coherentb. rewrite !andb_true_iff, !forallb_forall.
  intros ((Hg & Ht) & Ho). split; [apply grid_okb_sound; exact Hg |]. split.
  - intros t tk E. specialize (Ht tk). rewrite !andb_true_iff in Ht.
    destruct Ht as (((H1 & H2) & H3) & H4); [| lia].
    eapply list_elem_of_In, list_elem_of_lookup_2. exact E.
  - intros s square t E Hi. unfold grid_at in E.
    destruct (sq !! Z.to_nat (fst s)) as [line |] eqn:El; [| discriminate]. cbn in E.
    assert (I : In square (concat sq)).
    { apply in_concat. exists line. split.
      - eapply list_elem_of_In, list_elem_of_lookup_2. exact El.
      - eapply list_elem_of_In, list_elem_of_lookup_2. exact E. }
    specialize (Ho square I). rewrite Hi in Ho.
    destruct (ts !! t) as [tk |]; [| discriminate]. exists tk.
    rewrite !andb_true_iff in Ho. destruct Ho as ((E1 & E2) & E3).
    apply Z.eqb_eq in E1, E2. split; [reflexivity |]. split.
    + unfold ref_of. congruence.
    + destruct (destroyed tk); [discriminate | reflexivity].
Qed.

Lemma consistentb_sound (g : Game) : consistentb g = true -> consistent g.
Proof. apply coherentb_sound. Qed.

(** The red queen of the fresh game, at (0, 5). *)
Lemma possible_moves_fresh_queen :
  exists moves,
    getPossibleMoves fresh_game (Some 1%nat) = Ok moves
    /\ (queen = laser -> moves = [])
    /\ (queen <> laser ->
        forall r c,
          In (r, c) moves
          <-> Z.abs (r - 0) <= 1 /\ Z.abs (c - 5) <= 1
              /\ 0 <= r <= 7 /\ 0 <= c <= 9
              /\ landing fresh_game (mkToken queen 0 5 Color.red false Orientation.up) (r, c)).
Proof.
  apply (possible_moves_are_the_free_neighbours fresh_game 1%nat
           (mkToken queen 0 5 Color.red false Orientation.up)).
  - apply grid_okb_sound. vm_compute. reflexivity.
  - reflexivity.
Defined.

(** ** Coherence is kept *)

(** A square of the grid holds the coordinates of its place. *)
Lemma grid_ok_place (l : list (list Square)) (s : Z * Z) (square : Square) :
  grid_ok l ->
  grid_at l s = Some square ->
  ref_of square = (Z.of_nat (Z.to_nat (fst s)), Z.of_nat (Z.to_nat (snd s)))
  /\ 0 <= fst (ref_of square) < 8 /\ 0 <= snd (ref_of square) < 10.
Proof.
  intros (Hlen & Hrows & Hl) E. unfold grid_at in E.
  destruct (l !! Z.to_nat (fst s)) as [line |] eqn:El; [| discriminate]. cbn in E.
  pose proof (lookup_lt_Some _ _ _ El) as B1.
  pose proof (lookup_lt_Some _ _ _ E) as B2.
  rewrite (Hrows _ _ El) in B2. rewrite Hlen in B1.
  destruct (Hl (Z.of_nat (Z.to_nat (fst s))) (Z.of_nat (Z.to_nat (snd s))))
    as (square' & E' & Hrc & _); [lia | lia |].
  unfold grid_at in E'. cbn [fst snd] in E'. rewrite !Nat2Z.id, El in E'. cbn in E'.
  assert (square' = square) by congruence. subst square'.
  rewrite Hrc. cbn [fst snd]. split; [reflexivity | lia].
Qed.

(** Where a square read after an update comes from. *)
Lemma grid_at_alter_inv (l : list (list Square)) (s s' : Z * Z) (f : Square -> Square)
  (square' : Square) :
  grid_at (grid_alter f s l) s' = Some square' ->
  (exists square,
      grid_at l s = Some square /\ grid_at l s' = Some square /\ square' = f square)
  \/ (grid_at l s' = Some square'
      /\ ~ (Z.to_nat (fst s) = Z.to_nat (fst s') /\ Z.to_nat (snd s) = Z.to_nat (snd s'))).
Proof.
  unfold grid_at, grid_alter.
  destruct (decide (Z.to_nat (fst s) = Z.to_nat (fst s'))) as [E | N].
  - rewrite <- E, list_lookup_alter_eq.
    destruct (l !! Z.to_nat (fst s)) as [line |]; cbn; [| discriminate].
    destruct (decide (Z.to_nat (snd s) = Z.to_nat (snd s'))) as [E2 | N2].
    + rewrite <- E2, list_lookup_alter_eq.
      destruct (line !! Z.to_nat (snd s)) as [square |]; cbn; [| discriminate].
      intros H. injection H as <-. left. exists square. auto.
    + rewrite list_lookup_alter_ne by exact N2. intros H. right. split; [exact H | tauto].
  - rewrite list_lookup_alter_ne by exact N. intros H. right. split; [exact H | tauto].
Qed.

(** A change of a token that keeps its coordinates, and does not destroy
    it, keeps coherence. *)
Lemma coherent_alter_token (sq : list (list Square)) (ts : list Token) (t : nat)
  (f : Token -> Token) :
  (forall tk, row (f tk) = row tk /\ column (f tk) = column tk
              /\ (destroyed tk = false -> destroyed (f tk) = false)) ->
  coherent sq ts -> coherent sq (alter f t ts).
Proof.
  intros Hf (Hg & Hb & Ho). split; [exact Hg |]. split.
  - intros t' tk'. rewrite list_lookup_alter.
    destruct (decide (t = t')) as [<- | N]; [| apply Hb].
    destruct (ts !! t) as [tk |] eqn:E; [| discriminate]. cbn. intros H. injection H as <-.
    destruct (Hf tk) as (-> & -> & _). eapply Hb. exact E.
  - intros s square t' E Hi. destruct (Ho s square t' E Hi) as (tk & Et & Hrc & Hd).
    destruct (decide (t = t')) as [<- | N].
    + exists (f tk). rewrite list_lookup_alter_eq, Et. cbn.
      destruct (Hf tk) as (-> & -> & Hd'). auto.
    + exists tk. rewrite list_lookup_alter_ne by exact N. auto.
Qed.

(** Destroying the occupant of a square and clearing the square keeps
    coherence. *)
Lemma coherent_destroy (sq : list (list Square)) (ts : list Token) (t : nat) (tk : Token) :
  coherent sq ts ->
  ts !! t = Some tk ->
  coherent (grid_alter (with_inhabiting None) (row tk, column tk) sq)
    (alter (with_destroyed true) t ts).
Proof.
  intros (Hg & Hb & Ho) Et. split; [apply grid_ok_with_inhabiting; exact Hg |]. split.
  - intros t' tk'. rewrite list_lookup_alter.
    destruct (decide (t = t')) as [<- | N]; [| apply Hb].
    rewrite Et. cbn. intros H. injection H as <-. cbn. eapply Hb. exact Et.
  - intros s square t' E Hi. apply grid_at_alter_inv in E.
    destruct E as [(square0 & _ & _ & ->) | (E & N)]; [discriminate |].
    destruct (Ho s square t' E Hi) as (tk' & Et' & Hrc & Hd).
    destruct (decide (t = t')) as [<- | N'].
    + exfalso. apply N. assert (tk' = tk) by congruence. subst tk'.
      destruct (grid_ok_place sq s square Hg E) as (Hp & _).
      rewrite Hrc in Hp. injection Hp as -> ->. cbn [fst snd]. rewrite !Nat2Z.id. auto.
    + exists tk'. rewrite list_lookup_alter_ne by exact N'. auto.
Qed.

(** Moving a token that is not destroyed to a square of the board keeps
    coherence, whatever stood there. *)
Lemma coherent_move (sq : list (list Square)) (ts : list Token) (t : nat) (tk : Token)
  (s : Z * Z) :
  coherent sq ts ->
  ts !! t = Some tk ->
  destroyed tk = false ->
  0 <= fst s < 8 -> 0 <= snd s < 10 ->
  coherent
    (grid_alter (with_inhabiting (Some t)) s
       (grid_alter (with_inhabiting None) (row tk, column tk) sq))
    (alter (with_position (fst s) (snd s)) t ts).
Proof.
  intros (Hg & Hb & Ho) Et Hd Hr Hc.
  assert (Hg1 : grid_ok (grid_alter (with_inhabiting None) (row tk, column tk) sq))
    by (apply grid_ok_with_inhabiting; exact Hg).
  split; [apply grid_ok_with_inhabiting; exact Hg1 |]. split.
  - intros t' tk'. rewrite list_lookup_alter.
    destruct (decide (t = t')) as [<- | N]; [| apply Hb].
    rewrite Et. cbn. intros H. injection H as <-. cbn. lia.
  - intros s' square t' E Hi. apply grid_at_alter_inv in E.
    destruct E as [(square0 & E0 & _ & ->) | (E & N)].
    + cbn in Hi. injection Hi as <-.
      exists (with_position (fst s) (snd s) tk). rewrite list_lookup_alter_eq, Et.
      split; [reflexivity |]. split; [| exact Hd].
      destruct (grid_ok_place _ s square0 Hg1 E0) as (Hp & _).
      unfold ref_of in *. cbn. rewrite Hp. rewrite !Z2Nat.id by lia. reflexivity.
    + apply grid_at_alter_inv in E.
      destruct E as [(square0 & _ & _ & ->) | (E & N0)]; [discriminate |].
      destruct (Ho s' square t' E Hi) as (tk' & Et' & Hrc & Hd').
      destruct (decide (t = t')) as [<- | N'].
      * exfalso. apply N0. assert (tk' = tk) by congruence. subst tk'.
        destruct (grid_ok_place sq s' square Hg E) as (Hp & _).
        rewrite Hrc in Hp. injection Hp as -> ->. cbn [fst snd]. rewrite !Nat2Z.id. auto.
      * exists tk'. rewrite list_lookup_alter_ne by exact N'. auto.
Qed.

(** ** The actions a colour is offered *)

Lemma in_game_spec (g : Game) (t : nat) :
  In t (in_game g) <-> exists tk, tokens g !! t = Some tk /\ destroyed tk = false.
Proof.
  unfold in_game. rewrite filter_In, in_seq. split.
  - intros (_ & H). destruct (tokens g !! t) as [tk |]; [| discriminate].
    exists tk. split; [reflexivity |]. destruct (destroyed tk); [discriminate | reflexivity].
  - intros (tk & E & Hd). pose proof (lookup_lt_Some _ _ _ E). rewrite E, Hd.
    split; [lia | reflexivity].
Qed.

Lemma Color_eqb_eq (a b : Color.t) : Color.eqb a b = true <-> a = b.
Proof. destruct a, b; cbn; split; intros H; try discriminate; reflexivity. Qed.

Lemma getAllPossibleActions_loop_spec (g : Game) (c : Color.t) :
  board_grid g ->
  forall refs,
    (forall t, In t refs -> exists tk, tokens g !! t = Some tk) ->
    exists actions,
      getAllPossibleActions_loop g c refs = Ok actions
      /\ forall a,
           In a actions
           <-> match a with
               | AMove t s =>
                   exists tk moves,
                     In t refs /\ tokens g !! t = Some tk /\ color tk = c
                     /\ getPossibleMoves g (Some t) = Ok moves /\ In s moves
               | ARotation t o =>
                   exists tk rotations,
                     In t refs /\ tokens g !! t = Some tk /\ color tk = c
                     /\ getPossibleRotations g t = Ok rotations /\ In o rotations
               end.
Proof.
  intros Hg. induction refs as [| t rest IH]; intros Hrefs.
  - exists []. split; [reflexivity |]. intros [t s | t o]; (split; [intros [] |]).
    + intros (tk & moves & [] & _).
    + intros (tk & rotations & [] & _).
  - destruct IH as (actions & Ha & Hspec); [intros t' H; apply Hrefs; right; exact H |].
    destruct (Hrefs t) as (tk & Et); [left; reflexivity |].
    cbn [getAllPossibleActions_loop]. unfold get_token at 1. rewrite Et. cbn [of_option bind].
    destruct (Color.eqb (color tk) c) eqn:Ec.
    + assert (exists moves, getPossibleMoves g (Some t) = Ok moves) as (moves & Em).
      { unfold getPossibleMoves, get_token. rewrite Et. cbn [of_option bind].
        destruct (Name_eqb (name tk) laser); [eauto |].
        destruct (getPossibleMoves_loop_spec g tk Hg neighbourhood) as (moves & Hm & _).
        eauto. }
      assert (exists rotations, getPossibleRotations g t = Ok rotations) as (rotations & Er).
      { unfold getPossibleRotations, get_token. rewrite Et. cbn [of_option bind].
        unfold Token_getPossibleRotations.
        destruct (name tk), (orientation tk); cbn; eauto. }
      rewrite Em, Er, Ha. cbn [bind]. eexists. split; [reflexivity |].
      apply Color_eqb_eq in Ec.
      intros [t' s | t' o]; rewrite !in_app_iff, !in_map_iff, Hspec.
      * split.
        -- intros [(s' & E & Hs) | [(o' & E & _) | (tk' & moves' & Hin & H)]];
             [injection E as <- <-; exists tk, moves; cbn; auto
             | discriminate E
             | exists tk', moves'; cbn; tauto].
        -- intros (tk' & moves' & [<- | Hin] & Et' & Hc & Em' & Hs).
           ++ left. exists s. split; [reflexivity |]. congruence.
           ++ right. right. exists tk', moves'. auto.
      * split.
        -- intros [(s' & E & _) | [(o' & E & Ho) | (tk' & rotations' & Hin & H)]];
             [discriminate E
             | injection E as <- <-; exists tk, rotations; cbn; auto
             | exists tk', rotations'; cbn; tauto].
        -- intros (tk' & rotations' & [<- | Hin] & Et' & Hc & Er' & Ho).
           ++ right. left. exists o. split; [reflexivity |]. congruence.
           ++ right. right. exists tk', rotations'. auto.
    + destruct (Color.eqb (color tk) c) eqn:Ec'; [discriminate |].
      exists actions. split; [exact Ha |].
      assert (Nc : color tk <> c) by (intros H; apply Color_eqb_eq in H; congruence).
      intros [t' s | t' o]; rewrite Hspec; split.
      * intros (tk' & moves' & Hin & H). exists tk', moves'. cbn. tauto.
      * intros (tk' & moves' & [<- | Hin] & Et' & Hc & H);
          [congruence | exists tk', moves'; auto].
      * intros (tk' & rotations' & Hin & H). exists tk', rotations'. cbn. tauto.
      * intros (tk' & rotations' & [<- | Hin] & Et' & Hc & H);
          [congruence | exists tk', rotations'; auto].
Qed.

Lemma getAllPossibleActions_spec (g : Game) (c : Color.t) :
  board_grid g ->
  exists actions,
    getAllPossibleActions g c = Ok actions
    /\ forall a, In a actions <-> offered g c a.
Proof.
  intros Hg. unfold getAllPossibleActions.
  destruct (getAllPossibleActions_loop_spec g c Hg (in_game g)) as (actions & Ha & Hspec).
  { intros t Hin. apply in_game_spec in Hin. destruct Hin as (tk & E & _). eauto. }
  exists actions. split; [exact Ha |].
  intros [t s | t o]; rewrite Hspec; unfold offered; split.
  - intros (tk & moves & Hin & Et & H). apply in_game_spec in Hin.
    destruct Hin as (tk' & Et' & Hd). exists tk, moves.
    assert (tk' = tk) by congruence. subst. tauto.
  - intros (tk & moves & Et & Hd & H). exists tk, moves.
    split; [apply in_game_spec; eauto | tauto].
  - intros (tk & rotations & Hin & Et & H). apply in_game_spec in Hin.
    destruct Hin as (tk' & Et' & Hd). exists tk, rotations.
    assert (tk' = tk) by congruence. subst. tauto.
  - intros (tk & rotations & Et & Hd & H). exists tk, rotations.
    split; [apply in_game_spec; eauto | tauto].
Qed.

(** An offered action can be carried out. *)
Lemma offered_sound_action (g : Game) (c : Color.t) (a : Action) :
  board_grid g -> offered g c a -> sound_action g a.
Proof.
  intros Hg. destruct a as [t s | t o]; cbn.
  - intros (tk & moves & Et & Hd & _ & Em & Hs). exists tk.
    split; [exact Et |]. split; [exact Hd |].
    unfold getPossibleMoves, get_token in Em. rewrite Et in Em. cbn [of_option bind] in Em.
    destruct (Name_eqb (name tk) laser); [injection Em as <-; destruct Hs |].
    destruct (getPossibleMoves_loop_spec g tk Hg neighbourhood) as (moves' & Hm & Hspec).
    assert (moves' = moves) by congruence. subst moves'. destruct s as [r c'].
    apply Hspec in Hs. cbn [fst snd]. lia.
  - intros (tk & rotations & Et & _ & _ & Er & Ho). exists tk. split; [exact Et |].
    intros Hn. unfold getPossibleRotations, get_token in Er. rewrite Et in Er.
    cbn [of_option bind] in Er. unfold Token_getPossibleRotations in Er. rewrite Hn in Er.
    injection Er as <-. destruct Ho.
Qed.

(** [getAllPossibleActions] never raises on the board, and holds exactly
    the possible moves and the possible rotations of the tokens of the
    colour that are not destroyed.  It is empty only when the colour has
    nothing left but, at most, a queen: every other kind of token has a
    rotation. *)
Theorem possible_actions_are_the_offered_ones (g : Game) (c : Color.t) :
  board_grid g ->
  exists actions,
    getAllPossibleActions g c = Ok actions
    /\ (forall a, In a actions <-> offered g c a)
    /\ (actions = [] ->
        forall t tk,
          tokens g !! t = Some tk -> color tk = c -> destroyed tk = false ->
          name tk = queen).
Proof.
  intros Hg. destruct (getAllPossibleActions_spec g c Hg) as (actions & Ha & Hspec).
  exists actions. split; [exact Ha |]. split; [exact Hspec |].
  intros -> t tk Et Hc Hd.
  destruct (Name_eqb (name tk) queen) eqn:Hn; [destruct (name tk); try discriminate; reflexivity |].
  exfalso.
  assert (exists o rest, getPossibleRotations g t = Ok (o :: rest)) as (o & rest & Er).
  { unfold getPossibleRotations, get_token. rewrite Et. cbn [of_option bind].
    unfold Token_getPossibleRotations.
    destruct (name tk), (orientation tk); try discriminate Hn; cbn; eauto. }
  apply (Hspec (ARotation t o)). cbn. exists tk, (o :: rest).
  split; [exact Et |]. split; [exact Hd |]. split; [exact Hc |]. split; [exact Er |].
  left. reflexivity.
Qed.

(** Red in the fresh game. *)
Lemma possible_actions_fresh_red :
  exists actions,
    getAllPossibleActions fresh_game Color.red = Ok actions
    /\ (forall a, In a actions <-> offered fresh_game Color.red a)
    /\ (actions = [] ->
        forall t tk,
          tokens fresh_game !! t = Some tk -> color tk = Color.red ->
          destroyed tk = false ->
          name tk = queen).
Proof.
  apply (possible_actions_are_the_offered_ones fresh_game Color.red).
  apply grid_okb_sound. vm_compute. reflexivity.
Defined.

(** ** A hit on a token that stands on its square *)

Lemma py_index_Ok_lookup {A : Type} (l : list A) (i : Z) (x : A) :
  py_index l i = Ok x -> exists n, l !! n = Some x.
Proof.
  unfold py_index.
  destruct ((0 <=? i) && (i <? Z.of_nat (length l))).
  - destruct (l !! Z.to_nat i) eqn:E; [| discriminate]. intros H. injection H as <-. eauto.
  - destruct ((- Z.of_nat (length l) <=? i) && (i <? 0)); [| discriminate].
    destruct (l !! Z.to_nat (Z.of_nat (length l) + i)) eqn:E; [| discriminate].
    intros H. injection H as <-. eauto.
Qed.

(** Whatever the indices, a square read by [get_square] is on the grid. *)
Lemma get_square_Ok_grid (g : Game) (r c : Z) (square : Square) :
  get_square g r c = Ok square -> exists s, grid_at (squares g) s = Some square.
Proof.
  unfold get_square. intros H. apply bind_Ok in H. destruct H as (line & El & Es).
  apply py_index_Ok_lookup in El, Es. destruct El as (i & El), Es as (j & Es).
  exists (Z.of_nat i, Z.of_nat j). unfold grid_at. cbn [fst snd].
  rewrite !Nat2Z.id, El. exact Es.
Qed.

(** In a coherent position the occupant of a square stands on the
    board. *)
Lemma occupant_stands (g : Game) (r c : Z) (square : Square) (t : nat) :
  consistent g ->
  get_square g r c = Ok square ->
  inhabiting_token square = Some t ->
  exists tk, stands_on_board g t tk /\ destroyed tk = false.
Proof.
  intros (Hg & Hb & Ho) Hs Hi. apply get_square_Ok_grid in Hs. destruct Hs as (s & Hs).
  destruct (Ho s square t Hs Hi) as (tk & Et & Hrc & Hd). exists tk.
  split; [| exact Hd]. destruct (Hb t tk Et) as (Hr & Hc).
  split; [exact Et |]. split; [exact Hr |]. split; [exact Hc |].
  exists square. split; [| exact Hi]. apply get_square_grid_at; [lia | lia |].
  destruct (grid_ok_place _ s square Hg Hs) as (Hp & _). rewrite Hrc in Hp.
  injection Hp as Er Ec. unfold grid_at in *. cbn [fst snd].
  rewrite Er, Ec, !Nat2Z.id. exact Hs.
Qed.

(** The destroy branch on the board. *)
Lemma destroy_result (g : Game) (t : nat) (tk : Token) :
  board_grid g ->
  tokens g !! t = Some tk ->
  0 <= row tk < 8 -> 0 <= column tk < 10 ->
  destroy g t
  = Ok (mkGame (grid_alter (with_inhabiting None) (row tk, column tk) (squares g))
          (EDestruction t :: log g) (turn g)
          (alter (with_destroyed true) t (tokens g))
          (positions_log g ++ [Marker_destroyed])).
Proof.
  intros Hg Et Hr Hc. unfold destroy, get_token, update_token, set_tokens.
  cbn [tokens]. rewrite list_lookup_alter_eq, Et. cbn [fmap option_fmap option_map of_option bind].
  cbn [row column with_destroyed].
  destruct (board_grid_get_square g (row tk) (column tk) Hg Hr Hc) as (square & Hs & _ & Hrc & _).
  change (get_square (mkGame (squares g) (log g) (turn g)
                        (alter (with_destroyed true) t (tokens g)) (positions_log g))
            (row tk) (column tk))
    with (get_square g (row tk) (column tk)).
  rewrite Hs. cbn [bind]. rewrite Hrc. reflexivity.
Qed.

Lemma hitToken_struck (fuel : nat) (g : Game) (t : nat) (tk : Token)
  (direction : Orientation.t) :
  board_grid g ->
  stands_on_board g t tk ->
  hitToken (S (S fuel)) g t direction = struck g t tk direction.
Proof.
  intros Hg Hb. pose proof Hb as (Et & Hr & Hc & _). unfold struck.
  destruct (is_destroyed tk direction) eqn:Hd.
  - cbn [hitToken]. unfold get_token. rewrite Et. cbn [of_option bind]. rewrite Hd.
    rewrite (destroy_result _ t tk); [| exact Hg | exact Et | exact Hr | exact Hc].
    unfold destroyed_by_beam. cbn. rewrite <- app_assoc. reflexivity.
  - destruct (name tk) eqn:Hn.
    + unfold is_destroyed in Hd. rewrite Hn in Hd. discriminate.
    + cbn [hitToken]. unfold get_token at 1. rewrite Et. cbn [of_option bind]. rewrite Hd.
      unfold reflect_with, get_token. cbn [tokens append_positions set_positions_log].
      rewrite Et. cbn [of_option bind]. rewrite Hn. reflexivity.
    + rewrite (deflector_reflects_onto_itself fuel g t tk direction Hb Hn Hd).
      rewrite (destroy_result _ t tk); [| exact Hg | exact Et | exact Hr | exact Hc].
      unfold destroyed_by_beam. cbn. rewrite <- app_assoc. reflexivity.
    + apply (switch_hit_never_returns _ g t tk direction Hb Hn).
    + cbn [hitToken]. unfold get_token at 1. rewrite Et. cbn [of_option bind]. rewrite Hd.
      unfold reflect_with, get_token. cbn [tokens append_positions set_positions_log].
      rewrite Et. cbn [of_option bind]. rewrite Hn. reflexivity.
Qed.

(** A hit on a token that stands on its square never reaches another
    token.  With two units of fuel or more [hitToken] is [struck]: a switch
    keeps reflecting the beam onto itself and the call never returns; a
    queen and a deflector are always destroyed, the deflector possibly by
    the beam it has just reflected; a defender is destroyed unless it faces
    the beam; a laser is destroyed where a deflector of its orientation
    would be destroyed at once, and ends the beam otherwise.  Destruction
    marks the token, clears its square and logs one event. *)
Theorem hit_on_a_standing_token (g : Game) (t : nat) (tk : Token)
  (direction : Orientation.t) :
  board_grid g ->
  stands_on_board g t tk ->
  (forall fuel, hitToken (S (S fuel)) g t direction = struck g t tk direction)
  /\ (name tk = switch -> forall fuel, hitToken fuel g t direction = Diverge)
  /\ (name tk = queen \/ name tk = deflector ->
      exists trace, struck g t tk direction = Ok (destroyed_by_beam g t tk trace))
  /\ (name tk = defender ->
      struck g t tk direction
      = if Orientation.eqb (orientation tk) (facing direction)
        then Ok (append_positions [Pos (row tk) (column tk)] g)
        else Ok (destroyed_by_beam g t tk [Pos (row tk) (column tk)]))
  /\ (name tk = laser ->
      struck g t tk direction
      = if is_destroyed
             (mkToken deflector (row tk) (column tk) (color tk) (destroyed tk)
                (orientation tk))
             direction
        then Ok (destroyed_by_beam g t tk [Pos (row tk) (column tk)])
        else Ok (append_positions [Pos (row tk) (column tk)] g)).
Proof.
  intros Hg Hb. split; [intros fuel; apply hitToken_struck; assumption |].
  split; [intros Hn fuel; apply (switch_hit_never_returns fuel g t tk direction Hb Hn) |].
  unfold struck, is_destroyed. cbn [name orientation].
  split; [| split].
  - intros [Hn | Hn]; rewrite Hn.
    + eexists. reflexivity.
    + destruct (_ || _); eexists; reflexivity.
  - intros Hn. rewrite Hn. destruct direction, (orientation tk); reflexivity.
  - intros Hn. rewrite Hn. destruct direction, (orientation tk); reflexivity.
Qed.

(** The blue defender of (7, 3), oriented up, struck by a beam that
    travels down, after red's first ply. *)
Lemma hit_on_the_blue_defender :
  (forall fuel,
      hitToken (S (S fuel)) after_queen_step 15%nat Orientation.down
      = struck after_queen_step 15%nat
          (mkToken defender 7 3 Color.blue false Orientation.up) Orientation.down)
  /\ struck after_queen_step 15%nat
       (mkToken defender 7 3 Color.blue false Orientation.up) Orientation.down
     = Ok (append_positions [Pos 7 3] after_queen_step).
Proof.
  destruct (hit_on_a_standing_token after_queen_step 15%nat
              (mkToken defender 7 3 Color.blue false Orientation.up) Orientation.down)
    as (H1 & _ & _ & H4 & _).
  - apply grid_okb_sound. vm_compute. reflexivity.
  - split; [reflexivity |]. split; [cbn; lia |]. split; [cbn; lia |].
    eexists. split; reflexivity.
  - split; [exact H1 |]. apply H4. reflexivity.
Defined.

(** ** Firing the laser *)

Lemma activate_laser_for_Some (g : Game) (t : nat) :
  forall cells,
    activate_laser_for g cells = Ok (Some t) ->
    exists r c square,
      get_square g r c = Ok square /\ inhabiting_token square = Some t.
Proof.
  induction cells as [| [r c] rest IH]; [discriminate |].
  cbn [activate_laser_for]. intros H. apply bind_Ok in H. destruct H as (square & Hs & H).
  destruct (inhabiting_token square) as [t' |] eqn:Hi.
  - injection H as <-. eauto.
  - apply IH. exact H.
Qed.

(** What firing changes: nothing but [positions_log], or one token that
    stood on the board. *)
Lemma activate_laser_effect (fuel : nat) (g g' : Game) (c : Color.t) :
  consistent g ->
  activate_laser fuel g c = Ok g' ->
  consistent g'
  /\ turn g' = turn g
  /\ ((squares g' = squares g /\ tokens g' = tokens g /\ log g' = log g)
      \/ exists t tk,
           stands_on_board g t tk
           /\ destroyed tk = false
           /\ name tk <> switch
           /\ squares g'
              = grid_alter (with_inhabiting None) (row tk, column tk) (squares g)
           /\ tokens g' = alter (with_destroyed true) t (tokens g)
           /\ log g' = EDestruction t :: log g).
Proof.
  intros Hc H. unfold activate_laser in H.
  apply bind_Ok in H. destruct H as (l & _ & H).
  apply bind_Ok in H. destruct H as (lz & _ & H).
  destruct (laser_path lz) as [last_position cells].
  apply bind_Ok in H. destruct H as (token_hit & Hf & H).
  set (g1 := laser_fired g lz) in *.
  assert (Hc1 : consistent g1) by exact Hc.
  destruct token_hit as [t |].
  - apply activate_laser_for_Some in Hf. destruct Hf as (r & c' & square & Hs & Hi).
    destruct (occupant_stands g1 r c' square t Hc1 Hs Hi) as (tk & Hb & Hd).
    apply (hitToken_more_fuel fuel (S (S fuel))) in H; [| lia].
    rewrite (hitToken_struck fuel g1 t tk (orientation lz)) in H;
      [| exact (proj1 Hc1) | exact Hb].
    pose proof Hb as (Et & _).
    assert (D : forall trace,
               consistent (destroyed_by_beam g1 t tk trace))
      by (intros trace; apply coherent_destroy; [exact Hc | exact Et]).
    unfold struck in H. destruct (is_destroyed tk (orientation lz)) eqn:Hdes.
    + injection H as <-. split; [apply D |]. split; [reflexivity |].
      right. exists t, tk. split; [exact Hb |]. split; [exact Hd |].
      split; [| auto]. intros Hn. unfold is_destroyed in Hdes. rewrite Hn in Hdes.
      discriminate.
    + destruct (name tk) eqn:Hn; try discriminate H; injection H as <-;
        try (split; [exact Hc |]; split; [reflexivity |]; left; auto).
      split; [apply D |]. split; [reflexivity |].
      right. exists t, tk. split; [exact Hb |]. split; [exact Hd |].
      split; [| auto]. rewrite Hn. discriminate.
  - injection H as <-. split; [exact Hc |]. split; [reflexivity |]. left. auto.
Qed.

(** Firing the laser on a coherent position, when it returns, leaves the
    position coherent and the turn as it was, and changes nothing but
    [positions_log], or destroys exactly one token: one that stood on the
    board, was not destroyed and is not a switch; the token is marked, its
    square cleared and one destruction logged.  The outcome does not depend
    on the [positions_log] the game had. *)
Theorem firing_destroys_at_most_one_token (fuel : nat) (g g' : Game) (c : Color.t) :
  consistent g ->
  activate_laser fuel g c = Ok g' ->
  consistent g'
  /\ turn g' = turn g
  /\ ((squares g' = squares g /\ tokens g' = tokens g /\ log g' = log g)
      \/ exists t tk,
           stands_on_board g t tk
           /\ destroyed tk = false
           /\ name tk <> switch
           /\ squares g'
              = grid_alter (with_inhabiting None) (row tk, column tk) (squares g)
           /\ tokens g' = alter (with_destroyed true) t (tokens g)
           /\ log g' = EDestruction t :: log g)
  /\ forall p, activate_laser fuel (set_positions_log p g) c = Ok g'.
Proof.
  intros Hc H. destruct (activate_laser_effect fuel g g' c Hc H) as (H1 & H2 & H3).
  split; [exact H1 |]. split; [exact H2 |]. split; [exact H3 |].
  intros p. rewrite <- H. reflexivity.
Qed.

(** The blue laser fired after red's first ply: it destroys the blue
    deflector of (4, 9). *)
Lemma blue_fires_after_queen_step :
  exists g',
    activate_laser 2 after_queen_step Color.blue = Ok g'
    /\ consistent g'
    /\ turn g' = turn after_queen_step
    /\ ((squares g' = squares after_queen_step /\ tokens g' = tokens after_queen_step
         /\ log g' = log after_queen_step)
        \/ exists t tk,
             stands_on_board after_queen_step t tk
             /\ destroyed tk = false
             /\ name tk <> switch
             /\ squares g'
                = grid_alter (with_inhabiting None) (row tk, column tk)
                    (squares after_queen_step)
             /\ tokens g' = alter (with_destroyed true) t (tokens after_queen_step)
             /\ log g' = EDestruction t :: log after_queen_step)
    /\ forall p, activate_laser 2 (set_positions_log p after_queen_step) Color.blue = Ok g'.
Proof.
  eexists. split; [vm_compute; reflexivity |].
  apply (firing_destroys_at_most_one_token 2 after_queen_step _ Color.blue).
  - apply consistentb_sound. vm_compute. reflexivity.
  - vm_compute. reflexivity.
Defined.

(** ** Undoing the last event *)

Lemma undo_from_set_log (l x : list Event) (g : Game) :
  undo_from l (set_log x g) = undo_from l g.
Proof. destruct l; reflexivity. Qed.

Lemma revive_lookup (ds : list nat) :
  forall (ts : list Token) (t : nat),
    is_Some (ts !! t) -> is_Some (revive ds ts !! t).
Proof.
  induction ds as [| d ds IH]; intros ts t H; [exact H |].
  cbn. apply IH. rewrite list_lookup_alter.
  destruct (decide (d = t)) as [-> | N]; [| exact H]. destruct H as (tk & ->). cbn. eauto.
Qed.

Lemma undo_from_destructions (ds : list nat) :
  forall (g : Game) (l : list Event),
    (forall t, In t ds -> is_Some (tokens g !! t)) ->
    undo_from (map EDestruction ds ++ l) g
    = undo_from l (set_tokens (revive ds (tokens g)) g).
Proof.
  induction ds as [| d ds IH]; intros g l H.
  - destruct g. reflexivity.
  - cbn [map app undo_from].
    destruct (H d) as (tk & Ed); [left; reflexivity |].
    unfold get_token. cbn [tokens set_log]. rewrite Ed. cbn [of_option bind].
    rewrite IH.
    + rewrite <- (undo_from_set_log l (map EDestruction ds ++ l)
                    (set_tokens (revive (d :: ds) (tokens g)) g)).
      reflexivity.
    + intros t Hin. cbn [tokens update_token set_tokens set_log].
      rewrite list_lookup_alter. destruct (decide (d = t)) as [<- | N].
      * rewrite Ed. cbn. eauto.
      * apply H. right. exact Hin.
Qed.

(** [undoLastEvent] resets the [destroyed] mark of the tokens of the
    destructions on top of the log, and nothing else of theirs, and then
    plays the first move or rotation below them back, leaving the rest of
    the log.  With no move or rotation in the log, empty or not, it raises
    [IndexError]. *)
Theorem undo_revives_then_plays_one_action_back (g : Game) (ds : list nat) :
  (forall t, In t ds -> is_Some (tokens g !! t)) ->
  (log g = map EDestruction ds -> undoLastEvent g = Raise IndexError)
  /\ (forall e l,
        log g = map EDestruction ds ++ e :: l ->
        is_action e ->
        undoLastEvent g
        = play_back
            (mkGame (squares g) l (turn g) (revive ds (tokens g)) (positions_log g))
            e).
Proof.
  intros H. unfold undoLastEvent. split.
  - intros E. rewrite <- (app_nil_r (map EDestruction ds)) in E. rewrite E.
    rewrite undo_from_destructions by exact H. reflexivity.
  - intros e l E He. rewrite E, undo_from_destructions by exact H.
    destruct e; [reflexivity | reflexivity | destruct He].
Qed.

(** After red's first ply the log holds the destruction of the red
    deflector of (3, 0) above the queen's move; the log of the fresh game
    with the blue tokens destroyed holds thirteen destructions and nothing
    else. *)
Lemma undo_after_queen_step_and_blue_wiped :
  undoLastEvent after_queen_step
  = play_back
      (mkGame (squares after_queen_step) [] (turn after_queen_step)
         (revive [6%nat] (tokens after_queen_step))
         (positions_log after_queen_step))
      (EMove 1%nat (0, 5))
  /\ undoLastEvent blue_wiped = Raise IndexError.
Proof.
  split.
  - apply (undo_revives_then_plays_one_action_back after_queen_step [6%nat]).
    + intros t [<- | []]. vm_compute. eauto.
    + reflexivity.
    + exact I.
  - apply (undo_revives_then_plays_one_action_back blue_wiped (rev (seq 13 13))).
    + intros t Hin. apply in_rev, in_seq in Hin.
      assert (Hlt : (t < length (tokens blue_wiped))%nat) by (vm_compute; lia).
      apply lookup_lt_is_Some_2. exact Hlt.
    + reflexivity.
Defined.

(** ** A ply and its undoing *)

Lemma alter_back {A : Type} (f f' : A -> A) (l : list A) (i : nat) (x : A) :
  l !! i = Some x -> f' (f x) = x -> alter f' i (alter f i l) = l.
Proof.
  intros E H. rewrite list_alter_alter_eq. apply (list_alter_fix _ _ _ x E). exact H.
Qed.

Lemma with_destroyed_back (tk : Token) :
  destroyed tk = false -> with_destroyed false (with_destroyed true tk) = tk.
Proof.
  destruct tk as [n r c k d o]. unfold with_destroyed. cbn. intros ->. reflexivity.
Qed.

(** An action that can be carried out is, and keeps coherence. *)
Lemma doAction_sound (g : Game) (a : Action) :
  consistent g ->
  sound_action g a ->
  exists g1 e,
    doAction g a = Ok g1
    /\ consistent g1
    /\ log g1 = e :: log g
    /\ turn g1 = turn g
    /\ logged (tokens g) a e (tokens g1).
Proof.
  intros Hc Ha. pose proof Hc as (Hg & Hb & _). destruct a as [t s | t o]; cbn in Ha.
  - destruct Ha as (tk & Et & Hd & Hr & Hcol). destruct (Hb t tk Et) as (Br & Bc).
    destruct (board_grid_get_square g (row tk) (column tk) Hg Br Bc)
      as (square & Hs & _ & Hrc & _).
    eexists. exists (EMove t (row tk, column tk)).
    split; [apply (moveToken_result g t tk square s true Et Hs Hrc) |].
    split; [apply coherent_move; assumption |].
    split; [reflexivity |]. split; [reflexivity |].
    exists tk. auto.
  - destruct Ha as (tk & Et & Hn).
    eexists. exists (ERotation t (orientation tk)).
    split; [apply (rotateToken_result g t tk o true Et Hn) |].
    split; [apply coherent_alter_token; [intros x; cbn; auto | exact Hc] |].
    split; [reflexivity |]. split; [reflexivity |].
    exists tk. auto.
Qed.

(** Undoing the logged event restores the tokens. *)
Lemma undo_logged (g2 : Game) (ts0 : list Token) (a : Action) (e : Event)
  (l : list Event) :
  consistent g2 ->
  (forall t tk, ts0 !! t = Some tk -> 0 <= row tk < 8 /\ 0 <= column tk < 10) ->
  logged ts0 a e (tokens g2) ->
  log g2 = e :: l ->
  exists g3,
    undoLastEvent g2 = Ok g3
    /\ tokens g3 = ts0 /\ log g3 = l /\ turn g3 = turn g2 /\ consistent g3.
Proof.
  intros Hc Hb0 Hl El. pose proof Hc as (Hg & Hb & _).
  unfold undoLastEvent. rewrite El. destruct a as [t s | t o]; cbn in Hl.
  - destruct Hl as (tk & Et & Hd & -> & E1).
    set (tk1 := with_position (fst s) (snd s) tk).
    assert (Et1 : tokens g2 !! t = Some tk1)
      by (rewrite E1, list_lookup_alter_eq, Et; reflexivity).
    destruct (Hb t tk1 Et1) as (Br & Bc).
    destruct (board_grid_get_square g2 (row tk1) (column tk1) Hg Br Bc)
      as (square & Hs & _ & Hrc & _).
    cbn [undo_from]. eexists.
    split; [apply (moveToken_result (set_log l g2) t tk1 square _ false Et1 Hs Hrc) |].
    cbn [tokens log turn squares set_log fst snd].
    split; [rewrite E1; apply (alter_back _ _ _ _ tk Et); destruct tk; reflexivity |].
    split; [reflexivity |]. split; [reflexivity |].
    destruct (Hb0 t tk Et) as (Br0 & Bc0).
    apply (coherent_move (squares g2) (tokens g2) t tk1 (row tk, column tk));
      [exact Hc | exact Et1 | exact Hd | exact Br0 | exact Bc0].
  - destruct Hl as (tk & Et & Hn & -> & E1).
    set (tk1 := with_orientation o tk).
    assert (Et1 : tokens g2 !! t = Some tk1)
      by (rewrite E1, list_lookup_alter_eq, Et; reflexivity).
    cbn [undo_from]. eexists.
    split; [apply (rotateToken_result (set_log l g2) t tk1 _ false Et1 Hn) |].
    cbn [tokens log turn squares set_log].
    split; [rewrite E1; apply (alter_back _ _ _ _ tk Et); destruct tk; reflexivity |].
    split; [reflexivity |]. split; [reflexivity |].
    apply coherent_alter_token; [intros x; cbn; auto | exact Hc].
Qed.

(** The same below one destruction. *)
Lemma undo_destruction_then_logged (g2 : Game) (ts0 ts1 : list Token) (a : Action)
  (e : Event) (l : list Event) (t' : nat) (tk' : Token) :
  consistent g2 ->
  (forall t tk, ts0 !! t = Some tk -> 0 <= row tk < 8 /\ 0 <= column tk < 10) ->
  logged ts0 a e ts1 ->
  ts1 !! t' = Some tk' ->
  destroyed tk' = false ->
  tokens g2 = alter (with_destroyed true) t' ts1 ->
  log g2 = EDestruction t' :: e :: l ->
  exists g3,
    undoLastEvent g2 = Ok g3
    /\ tokens g3 = ts0 /\ log g3 = l /\ turn g3 = turn g2 /\ consistent g3.
Proof.
  intros Hc Hb0 Hl Et' Hd' E2 El.
  set (g2' := mkGame (squares g2) (e :: l) (turn g2) ts1 (positions_log g2)).
  assert (U : undoLastEvent g2 = undoLastEvent g2').
  { unfold undoLastEvent. rewrite El. cbn [undo_from log g2'].
    unfold get_token. cbn [tokens set_log]. rewrite E2, list_lookup_alter_eq, Et'.
    cbn [fmap option_fmap option_map of_option bind].
    unfold update_token, set_tokens. cbn [tokens squares log turn positions_log set_log].
    rewrite ?E2.
    rewrite (alter_back _ _ _ _ tk' Et') by (apply with_destroyed_back; exact Hd').
    destruct e; reflexivity. }
  rewrite U. apply (undo_logged g2' ts0 a e l); [| exact Hb0 | exact Hl | reflexivity].
  unfold consistent, g2'. cbn [squares tokens].
  rewrite <- (alter_back (with_destroyed true) (with_destroyed false) ts1 t' tk' Et')
    by (apply with_destroyed_back; exact Hd').
  rewrite <- E2. apply coherent_alter_token; [intros x; cbn; auto | exact Hc].
Qed.

(** A ply, whatever happens to the game after the laser as long as the
    tokens, the log and coherence are kept, is undone by one call. *)
Lemma undo_after_firing (fuel : nat) (c : Color.t) (g g1 g2 g2' : Game) (a : Action)
  (e : Event) :
  consistent g ->
  consistent g1 ->
  logged (tokens g) a e (tokens g1) ->
  log g1 = e :: log g ->
  activate_laser fuel g1 c = Ok g2 ->
  consistent g2' ->
  tokens g2' = tokens g2 ->
  log g2' = log g2 ->
  exists g3,
    undoLastEvent g2' = Ok g3
    /\ tokens g3 = tokens g /\ log g3 = log g /\ turn g3 = turn g2' /\ consistent g3.
Proof.
  intros Hc Hc1 Hl El Hf Hc2 Et2 El2. pose proof Hc as (_ & Hb & _).
  destruct (activate_laser_effect fuel g1 g2 c Hc1 Hf)
    as (_ & _ & [(_ & Et & Elog) | (t & tk & Hs & Hd & _ & _ & Et & Elog)]).
  - apply (undo_logged g2' (tokens g) a e (log g)); [exact Hc2 | exact Hb | |].
    + rewrite Et2, Et. exact Hl.
    + rewrite El2, Elog. exact El.
  - destruct Hs as (Etk & _).
    apply (undo_destruction_then_logged g2' (tokens g) (tokens g1) a e (log g) t tk);
      [exact Hc2 | exact Hb | exact Hl | exact Etk | exact Hd | |].
    + rewrite Et2. exact Et.
    + rewrite El2, Elog, El. reflexivity.
Qed.

(** On a coherent position an action that can be carried out, followed by
    the laser of either colour, is undone by one call of [undoLastEvent]
    whether or not the beam destroyed a token: the call returns, and the
    state of every token, the log and the turn are those before the action,
    on a coherent position. *)
Theorem ply_then_undo_restores_the_tokens (g : Game) (a : Action) :
  consistent g ->
  sound_action g a ->
  exists g1,
    doAction g a = Ok g1
    /\ forall fuel c g2,
         activate_laser fuel g1 c = Ok g2 ->
         exists g3,
           undoLastEvent g2 = Ok g3
           /\ tokens g3 = tokens g /\ log g3 = log g /\ turn g3 = turn g
           /\ consistent g3.
Proof.
  intros Hc Ha. destruct (doAction_sound g a Hc Ha) as (g1 & e & E1 & Hc1 & El & Etn & Hl).
  exists g1. split; [exact E1 |]. intros fuel c g2 Hf.
  destruct (activate_laser_effect fuel g1 g2 c Hc1 Hf) as (Hc2 & Etn2 & _).
  destruct (undo_after_firing fuel c g g1 g2 g2 a e Hc Hc1 Hl El Hf Hc2 eq_refl eq_refl)
    as (g3 & E3 & H1 & H2 & H3 & H4).
  exists g3. split; [exact E3 |]. split; [exact H1 |]. split; [exact H2 |].
  split; [congruence | exact H4].
Qed.

(** Red's queen step in the fresh game, whose beam destroys the red
    deflector of (3, 0). *)
Lemma queen_step_then_undo :
  exists g3,
    undoLastEvent after_queen_step = Ok g3
    /\ tokens g3 = tokens fresh_game /\ log g3 = log fresh_game
    /\ turn g3 = turn fresh_game
    /\ consistent g3.
Proof.
  destruct (ply_then_undo_restores_the_tokens fresh_game queen_step) as (g1 & E1 & H).
  - apply consistentb_sound. vm_compute. reflexivity.
  - exists (mkToken queen 0 5 Color.red false Orientation.up). cbn.
    split; [reflexivity |]. split; [reflexivity |]. lia.
  - apply (H 2%nat Color.red after_queen_step).
    vm_compute in E1. injection E1 as <-. vm_compute. reflexivity.
Defined.

(** ** The search gives the position back *)

Lemma sound_action_tokens (g g' : Game) (a : Action) :
  tokens g' = tokens g -> sound_action g a -> sound_action g' a.
Proof. intros E. destruct a; cbn; rewrite E; auto. Qed.

(** One iteration of either loop of [minimax]: the action, the laser,
    the recursive call and the undoing. *)
Lemma iteration_keeps
  (recurse : Game -> float -> float -> result (Game * Returned))
  (fuel : nat) (c : Color.t) (g g1 g2 g3 : Game) (a : Action) (alpha beta : float)
  (r : Game * Returned) :
  keeps recurse ->
  consistent g ->
  sound_action g a ->
  doAction g a = Ok g1 ->
  activate_laser fuel g1 c = Ok g2 ->
  recurse g2 alpha beta = Ok r ->
  undoLastEvent (fst r) = Ok g3 ->
  tokens g3 = tokens g /\ log g3 = log g /\ turn g3 = turn g /\ consistent g3.
Proof.
  intros Hk Hc Ha E1 Ef Er Eu.
  destruct (doAction_sound g a Hc Ha) as (g1' & e & E1' & Hc1 & El & Etn & Hl).
  assert (g1' = g1) by congruence. subst g1'.
  destruct (activate_laser_effect fuel g1 g2 c Hc1 Ef) as (Hc2 & Etn2 & _).
  destruct (Hk g2 alpha beta r Hc2 Er) as (Rt & Rl & Rn & Rc).
  destruct (undo_after_firing fuel c g g1 g2 (fst r) a e Hc Hc1 Hl El Ef Rc Rt Rl)
    as (g3' & E3 & H1 & H2 & H3 & H4).
  assert (g3' = g3) by congruence. subst g3'.
  split; [exact H1 |]. split; [exact H2 |]. split; [congruence | exact H4].
Qed.

Lemma minimax_max_loop_keeps
  (recurse : Game -> float -> float -> result (Game * Returned))
  (fuel : nat) (c : Color.t) :
  keeps recurse ->
  forall actions g m ba alpha beta r,
    consistent g ->
    (forall a, In a actions -> sound_action g a) ->
    minimax_max_loop recurse fuel c actions g m ba alpha beta = Ok r ->
    tokens (fst (fst r)) = tokens g /\ log (fst (fst r)) = log g
    /\ turn (fst (fst r)) = turn g /\ consistent (fst (fst r)).
Proof.
  intros Hk. induction actions as [| a rest IH]; intros g m ba alpha beta r Hc Hs H.
  - injection H as <-. cbn. auto.
  - cbn [minimax_max_loop] in H.
    apply bind_Ok in H. destruct H as (g1 & E1 & H).
    apply bind_Ok in H. destruct H as (g2 & Ef & H).
    apply bind_Ok in H. destruct H as (rr & Er & H).
    apply bind_Ok in H. destruct H as (g3 & Eu & H).
    apply bind_Ok in H. destruct H as (ev & _ & H).
    destruct (iteration_keeps recurse fuel c g g1 g2 g3 a alpha beta rr Hk Hc
                (Hs a (or_introl eq_refl)) E1 Ef Er Eu) as (H1 & H2 & H3 & H4).
    cbv zeta in H.
    destruct (PrimFloat.ltb beta _) in H.
    + injection H as <-. cbn. auto.
    + apply IH in H; [| exact H4 |].
      * destruct H as (K1 & K2 & K3 & K4).
        split; [congruence |]. split; [congruence |]. split; [congruence | exact K4].
      * intros a' Hin. apply (sound_action_tokens g); [exact H1 |].
        apply Hs. right. exact Hin.
Qed.

Lemma minimax_min_loop_keeps
  (recurse : Game -> float -> float -> result (Game * Returned))
  (fuel : nat) (c : Color.t) :
  keeps recurse ->
  forall actions g m ba alpha beta r,
    consistent g ->
    (forall a, In a actions -> sound_action g a) ->
    minimax_min_loop recurse fuel c actions g m ba alpha beta = Ok r ->
    tokens (fst (fst r)) = tokens g /\ log (fst (fst r)) = log g
    /\ turn (fst (fst r)) = turn g /\ consistent (fst (fst r)).
Proof.
  intros Hk. induction actions as [| a rest IH]; intros g m ba alpha beta r Hc Hs H.
  - injection H as <-. cbn. auto.
  - cbn [minimax_min_loop] in H.
    apply bind_Ok in H. destruct H as (g1 & E1 & H).
    apply bind_Ok in H. destruct H as (g2 & Ef & H).
    apply bind_Ok in H. destruct H as (rr & Er & H).
    apply bind_Ok in H. destruct H as (g3 & Eu & H).
    apply bind_Ok in H. destruct H as (ev & _ & H).
    destruct (iteration_keeps recurse fuel c g g1 g2 g3 a alpha beta rr Hk Hc
                (Hs a (or_introl eq_refl)) E1 Ef Er Eu) as (H1 & H2 & H3 & H4).
    cbv zeta in H.
    destruct (PrimFloat.ltb _ alpha) in H.
    + injection H as <-. cbn. auto.
    + apply IH in H; [| exact H4 |].
      * destruct H as (K1 & K2 & K3 & K4).
        split; [congruence |]. split; [congruence |]. split; [congruence | exact K4].
      * intros a' Hin. apply (sound_action_tokens g); [exact H1 |].
        apply Hs. right. exact Hin.
Qed.

Lemma possible_actions_sound (g : Game) (c : Color.t) (actions : list Action) :
  consistent g ->
  getAllPossibleActions g c = Ok actions ->
  forall a, In a actions -> sound_action g a.
Proof.
  intros Hc E a Hin. pose proof Hc as (Hg & _).
  destruct (getAllPossibleActions_spec g c Hg) as (actions' & E' & Hspec).
  assert (actions' = actions) by congruence. subst actions'.
  apply (offered_sound_action g c a Hg). apply Hspec. exact Hin.
Qed.

Lemma minimax_keeps (fuel : nat) :
  forall ai depth max_plays, keeps (fun g a b => minimax fuel ai g depth max_plays a b).
Proof.
  induction fuel as [| fuel IH]; intros ai depth max_plays g alpha beta r Hc H;
    [discriminate |].
  cbn [minimax] in H. destruct (depth >? depth_limit ai).
  - apply bind_Ok in H. destruct H as (v & _ & H). injection H as <-. cbn. auto.
  - apply bind_Ok in H. destruct H as (((g' & final_eval) & best_action) & Hl & H).
    assert (K : tokens g' = tokens g /\ log g' = log g /\ turn g' = turn g
                /\ consistent g').
    { destruct max_plays.
      - apply bind_Ok in Hl. destruct Hl as (actions & Ea & Hl).
        apply (minimax_max_loop_keeps _ _ _ (IH ai (depth + 1) (negb true))
                 actions g _ _ _ _ _ Hc (possible_actions_sound g _ actions Hc Ea) Hl).
      - apply bind_Ok in Hl. destruct Hl as (actions & Ea & Hl).
        apply (minimax_min_loop_keeps _ _ _ (IH ai (depth + 1) (negb false))
                 actions g _ _ _ _ _ Hc (possible_actions_sound g _ actions Hc Ea) Hl). }
    destruct (depth =? 0).
    + apply bind_Ok in H. destruct H as (a & _ & H). injection H as <-. exact K.
    + injection H as <-. exact K.
Qed.

(** When [minimax] returns on a coherent position, at any depth and for
    either player, the game it leaves has the tokens, the log and the turn
    it was given, and is coherent: every ply tried was undone, with the
    tokens destroyed on the way marked alive again.  (The squares and
    [positions_log] are not part of what is given back.) *)
Theorem search_gives_tokens_log_and_turn_back (fuel : nat) (ai : AI) (g g' : Game)
  (depth : Z) (max_plays : bool) (alpha beta : float) (r : Returned) :
  consistent g ->
  minimax fuel ai g depth max_plays alpha beta = Ok (g', r) ->
  tokens g' = tokens g /\ log g' = log g /\ turn g' = turn g /\ consistent g'.
Proof.
  intros Hc H.
  apply (minimax_keeps fuel ai depth max_plays g alpha beta (g', r) Hc H).
Qed.

(** Red's search on the fresh game. *)
Lemma search_on_the_fresh_game :
  exists g' r,
    minimax_root 4 red_ai fresh_game = Ok (g', r)
    /\ tokens g' = tokens fresh_game /\ log g' = log fresh_game
    /\ turn g' = turn fresh_game
    /\ consistent g'.
Proof.
  eexists. eexists. split; [vm_compute; reflexivity |].
  eapply (search_gives_tokens_log_and_turn_back 4 red_ai fresh_game _ 0 true
            (-2e10)%float 2e10%float).
  - apply consistentb_sound. vm_compute. reflexivity.
  - vm_compute. reflexivity.
Defined.

(** ** The rotation commands of the controller *)

(** A hit changes no token but by marking one destroyed, which it logs. *)
Lemma hitToken_marks (fuel : nat) :
  forall (g g' : Game) (t : nat) (direction : Orientation.t),
    hitToken fuel g t direction = Ok g' ->
    turn g' = turn g
    /\ ((tokens g' = tokens g /\ log g' = log g)
        \/ exists t',
             tokens g' = alter (with_destroyed true) t' (tokens g)
             /\ log g' = EDestruction t' :: log g).
Proof.
  induction fuel as [| fuel IH]; intros g g' t direction H; [discriminate |].
  cbn [hitToken] in H.
  destruct (get_token g t) as [tk | |] eqn:Ht; cbn [bind] in H; try discriminate.
  set (g1 := append_positions [Pos (row tk) (column tk)] g) in H.
  destruct (is_destroyed tk direction).
  - unfold destroy in H.
    destruct (get_token (update_token t (with_destroyed true) g1) t) as [tk' | |];
      cbn [bind] in H; try discriminate.
    destruct (get_square (update_token t (with_destroyed true) g1) (row tk') (column tk'))
      as [sq | |]; cbn [bind] in H; try discriminate.
    injection H as <-. split; [reflexivity |]. right. exists t. split; reflexivity.
  - assert (B : forall d, reflect_beam_with (hitToken fuel) fuel g1 t d = Ok g' ->
                turn g' = turn g
                /\ ((tokens g' = tokens g /\ log g' = log g)
                    \/ exists t',
                         tokens g' = alter (with_destroyed true) t' (tokens g)
                         /\ log g' = EDestruction t' :: log g)).
    { intros d Hd. unfold reflect_beam_with in Hd.
      destruct (get_token g1 t) as [tk1 | |]; cbn [bind] in Hd; try discriminate.
      destruct (reflect_beam_while fuel g1 d (row tk1) (column tk1))
        as [[[[t' |] r] c] | |]; cbn [bind] in Hd; try discriminate.
      - apply IH in Hd. exact Hd.
      - injection Hd as <-. split; [reflexivity |]. left. split; reflexivity. }
    unfold reflect_with in H.
    destruct (get_token g1 t) as [tk1 | |]; cbn [bind] in H; try discriminate.
    destruct (name tk1);
      repeat match type of H with
             | (if ?b then _ else _) = _ => destruct b
             end;
      try (apply B in H; exact H);
      injection H as <-; (split; [reflexivity |]); left; split; reflexivity.
Qed.

Lemma activate_laser_marks (fuel : nat) (g g' : Game) (c : Color.t) :
  activate_laser fuel g c = Ok g' ->
  turn g' = turn g
  /\ ((tokens g' = tokens g /\ log g' = log g)
      \/ exists t',
           tokens g' = alter (with_destroyed true) t' (tokens g)
           /\ log g' = EDestruction t' :: log g).
Proof.
  unfold activate_laser. intros H.
  destruct (laser_dict c) as [l | |]; cbn [bind] in H; try discriminate.
  destruct (get_token g l) as [lz | |]; cbn [bind] in H; try discriminate.
  destruct (laser_path lz) as [last_position cells].
  destruct (activate_laser_for _ cells) as [[t |] | |]; cbn [bind] in H;
    try discriminate.
  - apply hitToken_marks in H. exact H.
  - injection H as <-. split; [reflexivity |]. left. split; reflexivity.
Qed.

Lemma alter_const {A : Type} (f : A -> A) (l : list A) (i : nat) (x : A) :
  l !! i = Some x -> alter (fun _ => f x) i l = alter f i l.
Proof.
  intros E. apply list_eq. intros j. rewrite !list_lookup_alter.
  destruct (decide (i = j)) as [<- | N]; [| reflexivity]. rewrite E. reflexivity.
Qed.

(** The body the two commands share. *)
Lemma rotate_selected_unlogged (fuel : nat) (ctl ctl' : GameController) (t : nat)
  (tk : Token) (o : Orientation.t) :
  tokens (game ctl) !! t = Some tk ->
  finishTurn fuel
    (set_selected_token None
       (set_game
          (unhighlightAllSquares
             (update_token t (fun _ => with_orientation o tk) (game ctl)))
          ctl))
  = Ok ctl' ->
  selected_token ctl' = None
  /\ red_player ctl' = red_player ctl /\ blue_player ctl' = blue_player ctl
  /\ rotated_unlogged (game ctl) (game ctl') t o.
Proof.
  intros Et H. unfold finishTurn in H. apply bind_Ok in H. destruct H as (g' & Hf & H).
  injection H as <-. apply activate_laser_marks in Hf. destruct Hf as (Hn & Hf).
  cbn [game set_game set_selected_token unhighlightAllSquares set_squares update_token
         set_tokens tokens log turn] in Hn, Hf.
  rewrite (alter_const (with_orientation o) _ _ _ Et) in Hf.
  unfold rotated_unlogged.
  cbn [game set_game set_selected_token set_turn selected_token red_player blue_player
         tokens log turn].
  split; [reflexivity |]. split; [reflexivity |]. split; [reflexivity |].
  split; [rewrite Hn; reflexivity |]. exact Hf.
Qed.

(** The rotation commands of the controller raise [AttributeError] when
    no token is selected or the selected token is a queen.  When one of them
    returns, the selected token, which is not a queen, has turned by a
    quarter (a laser: to the paired orientation), the selection is cleared,
    the players are the same and the turn has advanced by one; the laser
    fired by [finishTurn] may have marked one token destroyed, which is
    logged, but the rotation itself is not: the log holds nothing that
    [undoLastEvent] could play back for it. *)
Theorem selected_rotation_is_not_logged (fuel : nat) (ctl : GameController) :
  (selected_token ctl = None ->
     rotateSelectedTokenClockwise fuel ctl = Raise AttributeError
     /\ rotateSelectedTokenAntiClockwise fuel ctl = Raise AttributeError)
  /\ (forall t tk,
        selected_token ctl = Some t ->
        tokens (game ctl) !! t = Some tk ->
        name tk = queen ->
        rotateSelectedTokenClockwise fuel ctl = Raise AttributeError
        /\ rotateSelectedTokenAntiClockwise fuel ctl = Raise AttributeError)
  /\ (forall ctl',
        rotateSelectedTokenClockwise fuel ctl = Ok ctl'
        \/ rotateSelectedTokenAntiClockwise fuel ctl = Ok ctl' ->
        exists t tk o,
          selected_token ctl = Some t
          /\ tokens (game ctl) !! t = Some tk
          /\ name tk <> queen
          /\ (if Name_eqb (name tk) laser then o = partner (orientation tk)
              else adjacent (orientation tk) o)
          /\ selected_token ctl' = None
          /\ red_player ctl' = red_player ctl /\ blue_player ctl' = blue_player ctl
          /\ rotated_unlogged (game ctl) (game ctl') t o).
Proof.
  unfold rotateSelectedTokenClockwise, rotateSelectedTokenAntiClockwise.
  split; [intros ->; split; reflexivity |]. split.
  - intros t tk -> Et Hn. cbn [of_option bind]. unfold get_token. rewrite Et.
    cbn [of_option bind]. unfold rotateClockwise, rotateAntiClockwise. rewrite Hn.
    split; reflexivity.
  - intros ctl' H.
    destruct (selected_token ctl) as [t |]; [| destruct H; discriminate].
    cbn [of_option bind] in H. unfold get_token in H.
    destruct (tokens (game ctl) !! t) as [tk |] eqn:Et; [| destruct H; discriminate].
    cbn [of_option bind] in H.
    assert (R : forall rotate,
               (rotate = rotateClockwise \/ rotate = rotateAntiClockwise) ->
               forall tk', rotate tk = Ok tk' ->
               exists o, tk' = with_orientation o tk /\ name tk <> queen
                         /\ (if Name_eqb (name tk) laser then o = partner (orientation tk)
                             else adjacent (orientation tk) o)).
    { intros rotate Hr tk' E. unfold adjacent.
      destruct tk as [n r c k d o0]. cbn [name orientation].
      destruct Hr as [-> | ->]; unfold rotateClockwise, rotateAntiClockwise in E;
        cbn [name orientation] in E;
        destruct n, o0; cbn in E; try discriminate E; injection E as <-;
        eexists; (split; [reflexivity |]); (split; [discriminate |]); cbn; auto. }
    exists t, tk.
    destruct H as [H | H]; apply bind_Ok in H; destruct H as (tk' & E & H).
    + destruct (R rotateClockwise (or_introl eq_refl) tk' E) as (o & -> & Hn & Ho).
      exists o. split; [reflexivity |]. split; [exact Et |]. split; [exact Hn |].
      split; [exact Ho |]. apply (rotate_selected_unlogged fuel ctl ctl' t tk o Et). exact H.
    + destruct (R rotateAntiClockwise (or_intror eq_refl) tk' E) as (o & -> & Hn & Ho).
      exists o. split; [reflexivity |]. split; [exact Et |]. split; [exact Hn |].
      split; [exact Ho |]. apply (rotate_selected_unlogged fuel ctl ctl' t tk o Et). exact H.
Qed.

(** The clockwise command with nothing selected, and with the blue switch
    of (4, 4) selected in the fresh game: the switch turns from up to right,
    the red laser destroys the red deflector of (3, 0), and the log holds
    that destruction only. *)
Lemma selected_rotation_fresh_switch :
  rotateSelectedTokenClockwise 2 fresh_controller = Raise AttributeError
  /\ rotateSelectedTokenClockwise 2 switch_selected = Ok switch_turned
  /\ log (game switch_turned) = [EDestruction 6%nat]
  /\ exists t tk o,
       selected_token switch_selected = Some t
       /\ tokens (game switch_selected) !! t = Some tk
       /\ name tk <> queen
       /\ (if Name_eqb (name tk) laser then o = partner (orientation tk)
           else adjacent (orientation tk) o)
       /\ selected_token switch_turned = None
       /\ red_player switch_turned = red_player switch_selected
       /\ blue_player switch_turned = blue_player switch_selected
       /\ rotated_unlogged (game switch_selected) (game switch_turned) t o.
Proof.
  split.
  - apply (selected_rotation_is_not_logged 2 fresh_controller). reflexivity.
  - split; [vm_compute; reflexivity |]. split; [reflexivity |].
    apply (selected_rotation_is_not_logged 2 switch_selected).
    left. vm_compute. reflexivity.
Defined.

(** ** The computer's turn *)

(** The action the maximizing loop remembers is one of those it tried. *)
Lemma minimax_max_loop_best
  (recurse : Game -> float -> float -> result (Game * Returned))
  (fuel : nat) (c : Color.t) :
  forall actions g m ba alpha beta r,
    minimax_max_loop recurse fuel c actions g m ba alpha beta = Ok r ->
    snd r = ba \/ exists a, In a actions /\ snd r = Some a.
Proof.
  induction actions as [| a rest IH]; intros g m ba alpha beta r H.
  - injection H as <-. left. reflexivity.
  - cbn [minimax_max_loop] in H.
    apply bind_Ok in H. destruct H as (g1 & _ & H).
    apply bind_Ok in H. destruct H as (g2 & _ & H).
    apply bind_Ok in H. destruct H as (rr & _ & H).
    apply bind_Ok in H. destruct H as (g3 & _ & H).
    apply bind_Ok in H. destruct H as (ev & _ & H).
    cbv zeta in H.
    assert (B : forall ba' : option Action,
               ba' = (if PrimFloat.ltb m ev then Some a else ba) ->
               ba' = ba \/ exists a', In a' (a :: rest) /\ ba' = Some a').
    { intros ba' ->. destruct (PrimFloat.ltb m ev); [right; exists a; cbn; auto | left; reflexivity]. }
    destruct (PrimFloat.ltb beta _) in H.
    + injection H as <-. apply B. reflexivity.
    + apply IH in H. destruct H as [H | (a' & Hin & H)].
      * apply B. exact H.
      * right. exists a'. split; [right; exact Hin | exact H].
Qed.

(** At the root the search answers with an action offered to its colour. *)
Lemma minimax_root_action (fuel : nat) (ai : AI) (g g' : Game) (a : Action) :
  consistent g ->
  minimax_root fuel ai g = Ok (g', RAction a) ->
  offered g (ai_color ai) a
  /\ tokens g' = tokens g /\ log g' = log g /\ turn g' = turn g /\ consistent g'.
Proof.
  intros Hc H. split; [| apply (minimax_keeps fuel ai 0 true g _ _ (g', RAction a) Hc H)].
  unfold minimax_root in H. destruct fuel as [| fuel]; [discriminate |].
  cbn [minimax] in H. destruct (0 >? depth_limit ai).
  - apply bind_Ok in H. destruct H as (v & _ & H). discriminate.
  - apply bind_Ok in H. destruct H as (((g1 & final_eval) & best_action) & Hl & H).
    cbn [Z.eqb] in H. apply bind_Ok in H. destruct H as (a0 & Eb & H).
    injection H as <- <-.
    apply bind_Ok in Hl. destruct Hl as (actions & Ea & Hl).
    apply minimax_max_loop_best in Hl. cbn [snd] in Hl.
    destruct best_action as [b |]; [| discriminate]. injection Eb as ->.
    destruct Hl as [Hl | (a' & Hin & Hl)]; [discriminate |]. injection Hl as ->.
    pose proof Hc as (Hg & _).
    destruct (getAllPossibleActions_spec g (ai_color ai) Hg) as (actions' & E' & Hspec).
    assert (actions' = actions) by congruence. subst actions'.
    apply Hspec. exact Hin.
Qed.

(** [test_AI] returns only when the player to move is an [AI].  On a
    coherent position the action it plays is one that
    [getAllPossibleActions] offers to that AI's colour in the position; it
    is played on the tokens as they were, logged, and followed by the laser
    of the colour to move, which may destroy one token; the turn advances by
    one, the players and the selection stay, and the position is coherent
    again. *)
Theorem test_AI_plays_an_offered_action (fuel : nat) (ctl ctl' : GameController) :
  consistent (game ctl) ->
  test_AI fuel ctl = Ok ctl' ->
  exists ai a e ts1,
    (if turn (game ctl) mod 2 =? 0 then red_player ctl else blue_player ctl) = Computer ai
    /\ offered (game ctl) (ai_color ai) a
    /\ logged (tokens (game ctl)) a e ts1
    /\ turn (game ctl') = turn (game ctl) + 1
    /\ consistent (game ctl')
    /\ ((tokens (game ctl') = ts1 /\ log (game ctl') = e :: log (game ctl))
        \/ exists t',
             tokens (game ctl') = alter (with_destroyed true) t' ts1
             /\ log (game ctl') = EDestruction t' :: e :: log (game ctl))
    /\ red_player ctl' = red_player ctl /\ blue_player ctl' = blue_player ctl
    /\ selected_token ctl' = selected_token ctl.
Proof.
  intros Hc H. unfold test_AI in H.
  destruct (turn (game ctl) mod 2 =? 0); cbn [negb] in H.
  all: match type of H with
       | match ?p with _ => _ end = _ => destruct p as [? | ai] eqn:Ep; [discriminate |]
       end.
  all: apply bind_Ok in H; destruct H as ([g0 [a | v]] & Er & H); cbn [fst snd] in H;
    [| discriminate].
  all: apply bind_Ok in H; destruct H as (g1 & E1 & H).
  all: unfold finishTurn in H; apply bind_Ok in H; destruct H as (g2 & Ef & H);
    injection H as <-; cbn [game set_game] in Ef.
  all: destruct (minimax_root_action fuel ai (game ctl) g0 a Hc Er)
    as (Ho & Rt & Rl & Rn & Rc).
  all: pose proof Hc as (Hg & _).
  all: pose proof (sound_action_tokens (game ctl) g0 a Rt
                     (offered_sound_action (game ctl) (ai_color ai) a Hg Ho)) as Hs.
  all: destruct (doAction_sound g0 a Rc Hs) as (g1' & e & E1' & Hc1 & El & Etn & Hl).
  all: assert (g1' = g1) by congruence; subst g1'.
  all: destruct (activate_laser_effect fuel g1 g2 _ Hc1 Ef) as (Hc2 & Etn2 & Hcase).
  all: exists ai, a, e, (tokens g1).
  all: split; [reflexivity |].
  all: split; [exact Ho |].
  all: split; [rewrite <- Rt; exact Hl |].
  all: cbn [game set_game set_turn turn tokens log red_player blue_player selected_token].
  all: split; [congruence |].
  all: split; [exact Hc2 |].
  all: split; [| auto].
  all: destruct Hcase as [(_ & Et & Elog) | (t' & tk' & _ & _ & _ & _ & Et & Elog)];
    [left; split; [exact Et | congruence]
    | right; exists t'; split; [exact Et | congruence]].
Qed.

(** Red, played by the computer, on the fresh game. *)
Lemma test_AI_on_the_fresh_game :
  test_AI 4 red_ai_controller = Ok red_ai_moved
  /\ exists ai a e ts1,
       Computer red_ai = Computer ai
       /\ offered fresh_game (ai_color ai) a
       /\ logged (tokens fresh_game) a e ts1
       /\ turn (game red_ai_moved) = 0 + 1
       /\ consistent (game red_ai_moved)
       /\ ((tokens (game red_ai_moved) = ts1 /\ log (game red_ai_moved) = [e])
           \/ exists t',
                tokens (game red_ai_moved) = alter (with_destroyed true) t' ts1
                /\ log (game red_ai_moved) = [EDestruction t'; e])
       /\ red_player red_ai_moved = Computer red_ai
       /\ blue_player red_ai_moved = Human Color.blue
       /\ selected_token red_ai_moved = None.
Proof.
  split; [vm_compute; reflexivity |].
  apply (test_AI_plays_an_offered_action 4 red_ai_controller red_ai_moved).
  - apply consistentb_sound. vm_compute. reflexivity.
  - vm_compute. reflexivity.
Defined.

(** ** Selecting a square *)

Lemma lookup_map {A B : Type} (f : A -> B) (l : list A) (i : nat) :
  map f l !! i = f <$> l !! i.
Proof. revert i. induction l as [| x l IH]; intros [| i]; cbn; auto. Qed.

Lemma py_index_map {A B : Type} (f : A -> B) (l : list A) (i : Z) :
  py_index (map f l) i = bind (py_index l i) (fun x => Ok (f x)).
Proof.
  unfold py_index. rewrite length_map, !lookup_map.
  destruct ((0 <=? i) && (i <? Z.of_nat (length l))).
  - destruct (l !! Z.to_nat i); reflexivity.
  - destruct ((- Z.of_nat (length l) <=? i) && (i <? 0)); [| reflexivity].
    destruct (l !! Z.to_nat (Z.of_nat (length l) + i)); reflexivity.
Qed.

(** Reading a square once the highlights are off. *)
Lemma get_square_unhighlight (g : Game) (r c : Z) :
  get_square (unhighlightAllSquares g) r c
  = bind (get_square g r c) (fun square => Ok (with_highlighted false square)).
Proof.
  unfold get_square, unhighlightAllSquares. cbn [squares set_squares].
  rewrite py_index_map. destruct (py_index (squares g) r) as [line | |]; cbn [bind];
    [| reflexivity | reflexivity].
  apply py_index_map.
Qed.

Lemma grid_at_unhighlight (g : Game) (s : Z * Z) :
  grid_at (squares (unhighlightAllSquares g)) s
  = with_highlighted false <$> grid_at (squares g) s.
Proof.
  unfold grid_at, unhighlightAllSquares. cbn [squares set_squares].
  rewrite lookup_map. destruct (squares g !! Z.to_nat (fst s)) as [line |]; cbn;
    [| reflexivity].
  apply lookup_map.
Qed.

(** The highlights play no part in the possible moves. *)
Lemma getPossibleMoves_unhighlight (g : Game) (token : option nat) :
  getPossibleMoves (unhighlightAllSquares g) token = getPossibleMoves g token.
Proof.
  destruct token as [t |]; [| reflexivity]. unfold getPossibleMoves, get_token.
  change (tokens (unhighlightAllSquares g)) with (tokens g).
  destruct (tokens g !! t) as [tk |]; cbn [of_option bind]; [| reflexivity].
  destruct (Name_eqb (name tk) laser); [reflexivity |].
  induction neighbourhood as [| [i j] rest IH]; [reflexivity |].
  cbn [getPossibleMoves_loop]. rewrite IH, get_square_unhighlight.
  destruct (_ || _); [reflexivity |].
  destruct (get_square g (row tk + i) (column tk + j)) as [square | |]; reflexivity.
Qed.

Lemma grid_ok_unhighlight (g : Game) :
  board_grid g -> board_grid (unhighlightAllSquares g).
Proof.
  intros (Hlen & Hrows & Hl). split; [| split].
  - unfold unhighlightAllSquares. cbn [squares set_squares]. rewrite length_map. exact Hlen.
  - intros i line. unfold unhighlightAllSquares. cbn [squares set_squares].
    rewrite lookup_map. destruct (squares g !! i) as [line0 |] eqn:E; [| discriminate].
    cbn. intros H. injection H as <-. rewrite length_map. eapply Hrows. exact E.
  - intros r c Hr Hc. destruct (Hl r c Hr Hc) as (square & Hs & Hrc & Hk).
    exists (with_highlighted false square). rewrite grid_at_unhighlight, Hs. auto.
Qed.

(** Reading the grid after an update, by the place read. *)
Lemma grid_at_alter_dec (l : list (list Square)) (s s' : Z * Z) (f : Square -> Square) :
  grid_at (grid_alter f s l) s'
  = if decide (Z.to_nat (fst s) = Z.to_nat (fst s') /\ Z.to_nat (snd s) = Z.to_nat (snd s'))
    then f <$> grid_at l s'
    else grid_at l s'.
Proof.
  unfold grid_at, grid_alter.
  destruct (decide (Z.to_nat (fst s) = Z.to_nat (fst s'))) as [E | N].
  - rewrite <- E, list_lookup_alter_eq.
    destruct (l !! Z.to_nat (fst s)) as [line |]; cbn.
    + destruct (decide (Z.to_nat (snd s) = Z.to_nat (snd s'))) as [E2 | N2].
      * rewrite <- E2, list_lookup_alter_eq.
        destruct (decide _) as [_ | N']; [reflexivity | tauto].
      * rewrite list_lookup_alter_ne by exact N2.
        destruct (decide _) as [(_ & E') | _]; [tauto | reflexivity].
    + destruct (decide _); reflexivity.
  - rewrite list_lookup_alter_ne by exact N.
    destruct (decide _) as [(E' & _) | _]; [tauto | reflexivity].
Qed.

(** The loop that highlights: the squares listed are lit, the others and
    everything else stay. *)
Lemma highlight_moves_spec :
  forall (moves : list (Z * Z)) (g : Game),
    board_grid g ->
    (forall s, In s moves -> 0 <= fst s < 8 /\ 0 <= snd s < 10) ->
    exists g',
      highlight_moves g moves = Ok g'
      /\ tokens g' = tokens g /\ log g' = log g /\ turn g' = turn g
      /\ positions_log g' = positions_log g
      /\ forall s square,
           grid_at (squares g) s = Some square ->
           exists square',
             grid_at (squares g') s = Some square'
             /\ inhabiting_token square' = inhabiting_token square
             /\ (highlighted square' = true
                 <-> highlighted square = true \/ In (ref_of square) moves).
Proof.
  induction moves as [| [r c] rest IH]; intros g Hg Hm.
  - exists g. split; [reflexivity |]. repeat (split; [reflexivity |]).
    intros s square E. exists square. split; [exact E |]. split; [reflexivity |].
    cbn. tauto.
  - destruct (Hm (r, c)) as (Hr & Hc); [left; reflexivity |]. cbn [fst snd] in Hr, Hc.
    destruct (board_grid_get_square g r c Hg Hr Hc) as (sq0 & Hs & _ & Hrc & _).
    cbn [highlight_moves]. rewrite Hs. cbn [bind]. rewrite Hrc.
    set (g1 := update_square (r, c) (with_highlighted true) g).
    assert (Hg1 : board_grid g1)
      by (apply grid_ok_alter; [intros x; split; reflexivity | exact Hg]).
    destruct (IH g1 Hg1) as (g' & E' & Ht & Hl & Hn & Hp & Hsq);
      [intros s Hin; apply Hm; right; exact Hin |].
    exists g'. split; [exact E' |]. repeat (split; [assumption |]).
    intros s square E.
    pose proof (grid_at_alter_dec (squares g) (r, c) s (with_highlighted true)) as D.
    cbn [fst snd] in D. rewrite E in D.
    destruct (grid_ok_place _ s square Hg E) as (Hp1 & _).
    destruct (decide _) as [(E1 & E2) | N] in D.
    + destruct (Hsq s _ D) as (square' & Es' & Hi' & Hh').
      exists square'. split; [exact Es' |]. split; [exact Hi' |].
      rewrite Hh'. cbn [highlighted with_highlighted fmap option_fmap option_map In].
      assert (F : (r, c) = ref_of square)
        by (rewrite Hp1, <- E1, <- E2, !Z2Nat.id by lia; reflexivity).
      split; [intros _; right; left; exact F | intros _; left; reflexivity].
    + destruct (Hsq s _ D) as (square' & Es' & Hi' & Hh').
      exists square'. split; [exact Es' |]. split; [exact Hi' |].
      rewrite Hh'. cbn [In]. split; [tauto |].
      intros [H | [H | H]]; [tauto | | tauto]. exfalso. apply N.
      rewrite Hp1 in H. injection H as -> ->. rewrite !Nat2Z.id. auto.
Qed.

(** Selecting a square that is not highlighted never raises on a coherent
    position and plays nothing: the tokens, the log, the turn and the
    occupant of every square stay.  The selection becomes the occupant of
    the square, or nothing when the square is empty or when the occupant's
    colour is the one [getCurrentPlayerColor] returns; the squares
    highlighted afterwards are exactly the possible moves of the new
    selection. *)
Theorem selection_highlights_the_possible_moves (fuel : nat) (ctl : GameController)
  (row column : Z) (square : Square) :
  consistent (game ctl) ->
  get_square (game ctl) row column = Ok square ->
  highlighted square = false ->
  exists ctl' moves,
    squareSelected fuel ctl row column = Ok ctl'
    /\ tokens (game ctl') = tokens (game ctl)
    /\ log (game ctl') = log (game ctl)
    /\ turn (game ctl') = turn (game ctl)
    /\ red_player ctl' = red_player ctl /\ blue_player ctl' = blue_player ctl
    /\ match inhabiting_token square with
       | None => selected_token ctl' = None
       | Some t =>
           exists tk,
             tokens (game ctl) !! t = Some tk
             /\ selected_token ctl'
                = if Color.eqb (color tk) (getCurrentPlayerColor ctl) then None
                  else Some t
       end
    /\ getPossibleMoves (game ctl) (selected_token ctl') = Ok moves
    /\ forall s sq,
         grid_at (squares (game ctl)) s = Some sq ->
         exists sq',
           grid_at (squares (game ctl')) s = Some sq'
           /\ inhabiting_token sq' = inhabiting_token sq
           /\ (highlighted sq' = true <-> In (ref_of sq) moves).
Proof.
  intros Hc Hs Hh. pose proof Hc as (Hg & Hb & Ho).
  unfold squareSelected. rewrite Hs. cbn [bind]. rewrite Hh.
  cbn [game set_game]. rewrite get_square_unhighlight, Hs. cbn [bind].
  cbn [selected_token set_selected_token inhabiting_token with_highlighted game].
  set (g0 := unhighlightAllSquares (game ctl)).
  assert (Hg0 : board_grid g0) by (apply grid_ok_unhighlight; exact Hg).
  assert (U : forall s sq,
             grid_at (squares (game ctl)) s = Some sq ->
             exists sq',
               grid_at (squares g0) s = Some sq'
               /\ inhabiting_token sq' = inhabiting_token sq
               /\ (highlighted sq' = true <-> In (ref_of sq) [])).
  { intros s sq E. exists (with_highlighted false sq). unfold g0.
    rewrite grid_at_unhighlight, E. split; [reflexivity |]. split; [reflexivity |].
    cbn. split; [discriminate | tauto]. }
  destruct (inhabiting_token square) as [t |] eqn:Hi.
  - destruct (get_square_Ok_grid _ _ _ _ Hs) as (s0 & Hs0).
    destruct (Ho s0 square t Hs0 Hi) as (tk & Et & _ & _).
    unfold get_token.
    cbn [game set_game set_selected_token selected_token red_player blue_player].
    change (tokens g0) with (tokens (game ctl)).
    rewrite Et. cbn [of_option bind].
    change (getCurrentPlayerColor (set_selected_token (Some t) (set_game g0 ctl)))
      with (getCurrentPlayerColor ctl).
    destruct (Color.eqb (color tk) (getCurrentPlayerColor ctl)) eqn:Ec.
    + eexists. exists []. split; [reflexivity |].
      cbn [game selected_token red_player blue_player set_selected_token set_game].
      do 5 (split; [reflexivity |]).
      split; [exists tk; split; [first [exact Et | reflexivity] | rewrite ?Ec; reflexivity] |].
      split; [reflexivity | exact U].
    + unfold g0 at 1. rewrite getPossibleMoves_unhighlight.
      assert (exists moves, getPossibleMoves (game ctl) (Some t) = Ok moves
                            /\ forall s, In s moves -> 0 <= fst s < 8 /\ 0 <= snd s < 10)
        as (moves & Em & Hm).
      { unfold getPossibleMoves, get_token. rewrite Et. cbn [of_option bind].
        destruct (Name_eqb (name tk) laser); [exists []; split; [reflexivity | intros s []] |].
        destruct (getPossibleMoves_loop_spec (game ctl) tk Hg neighbourhood)
          as (moves & Hm & Hspec).
        exists moves. split; [exact Hm |]. intros [r c] Hin. apply Hspec in Hin.
        cbn [fst snd]. lia. }
      rewrite Em. cbn [bind].
      destruct (highlight_moves_spec moves g0 Hg0 Hm) as (g' & E' & Ht & Hl & Hn & _ & Hsq).
      rewrite E'. cbn [bind]. eexists. exists moves. split; [reflexivity |].
      cbn [game selected_token red_player blue_player set_game].
      split; [exact Ht |]. split; [exact Hl |]. split; [exact Hn |].
      split; [reflexivity |]. split; [reflexivity |].
      split; [exists tk; split; [first [exact Et | reflexivity] | rewrite ?Ec; reflexivity] |].
      split; [exact Em |].
      intros s sq E. destruct (U s sq E) as (sq0 & E0 & Hi0 & Hh0).
      destruct (Hsq s sq0 E0) as (sq' & Es' & Hi' & Hh').
      exists sq'. split; [exact Es' |]. split; [congruence |].
      rewrite Hh'. assert (R : ref_of sq0 = ref_of sq).
      { unfold g0 in E0. rewrite grid_at_unhighlight, E in E0. injection E0 as <-.
        reflexivity. }
      rewrite R. cbn in Hh0. tauto.
  - eexists. exists []. split; [reflexivity |].
    cbn [game selected_token red_player blue_player set_selected_token set_game].
    do 7 (split; [reflexivity |]). exact U.
Qed.

(** The blue switch of (4, 4) selected in the fresh game. *)
Lemma selecting_the_blue_switch :
  exists ctl' moves,
    squareSelected 0 fresh_controller 4 4 = Ok ctl'
    /\ tokens (game ctl') = tokens fresh_game
    /\ log (game ctl') = log fresh_game
    /\ turn (game ctl') = turn fresh_game
    /\ red_player ctl' = Human Color.red /\ blue_player ctl' = Human Color.blue
    /\ (exists tk,
          tokens fresh_game !! 24%nat = Some tk
          /\ selected_token ctl'
             = if Color.eqb (color tk) (getCurrentPlayerColor fresh_controller) then None
               else Some 24%nat)
    /\ getPossibleMoves fresh_game (selected_token ctl') = Ok moves
    /\ forall s sq,
         grid_at (squares fresh_game) s = Some sq ->
         exists sq',
           grid_at (squares (game ctl')) s = Some sq'
           /\ inhabiting_token sq' = inhabiting_token sq
           /\ (highlighted sq' = true <-> In (ref_of sq) moves).
Proof.
  apply (selection_highlights_the_possible_moves 0 fresh_controller 4 4
           (mkSquare 4 4 Color.none (Some 24%nat) false)).
  - apply consistentb_sound. vm_compute. reflexivity.
  - reflexivity.
  - reflexivity.
Defined.

(** When [squareSelected] returns on a highlighted square of a coherent
    position, a token was selected and has been moved to that square by
    [moveToken], which logged the move; the laser of the colour to move has
    fired and may have destroyed one token; the turn has advanced by one,
    the selection is cleared, the players are the same and no square is
    highlighted any more. *)
Theorem click_on_a_highlighted_square_moves_the_selection (fuel : nat)
  (ctl ctl' : GameController) (r c : Z) (square : Square) :
  consistent (game ctl) ->
  get_square (game ctl) r c = Ok square ->
  highlighted square = true ->
  squareSelected fuel ctl r c = Ok ctl' ->
  exists t tk,
    selected_token ctl = Some t
    /\ tokens (game ctl) !! t = Some tk
    /\ selected_token ctl' = None
    /\ red_player ctl' = red_player ctl /\ blue_player ctl' = blue_player ctl
    /\ turn (game ctl') = turn (game ctl) + 1
    /\ (forall s sq', grid_at (squares (game ctl')) s = Some sq' -> highlighted sq' = false)
    /\ ((tokens (game ctl')
         = alter (with_position (sq_row square) (sq_column square)) t (tokens (game ctl))
         /\ log (game ctl') = EMove t (row tk, column tk) :: log (game ctl))
        \/ exists t',
             tokens (game ctl')
             = alter (with_destroyed true) t'
                 (alter (with_position (sq_row square) (sq_column square)) t
                    (tokens (game ctl)))
             /\ log (game ctl')
                = EDestruction t' :: EMove t (row tk, column tk) :: log (game ctl)).
Proof.
  intros Hc Hs Hh H. pose proof Hc as (Hg & Hb & _).
  unfold squareSelected in H. rewrite Hs in H. cbn [bind] in H. rewrite Hh in H.
  destruct (selected_token ctl) as [t |] eqn:Es; [| discriminate].
  cbn [of_option bind] in H.
  apply bind_Ok in H. destruct H as (g1 & Em & H).
  apply bind_Ok in H. destruct H as (ctl1 & Ef & H). injection H as <-.
  destruct (tokens (game ctl) !! t) as [tk |] eqn:Et;
    [| unfold moveToken, get_token in Em; rewrite Et in Em; discriminate].
  destruct (Hb t tk Et) as (Br & Bc).
  destruct (board_grid_get_square (game ctl) _ _ Hg Br Bc) as (a & Ha & _ & Hrc & _).
  rewrite (moveToken_result (game ctl) t tk a (ref_of square) true Et Ha Hrc) in Em.
  injection Em as <-.
  unfold finishTurn in Ef. apply bind_Ok in Ef. destruct Ef as (g2 & Hf & Ef).
  injection Ef as <-. cbn [game set_game] in Hf.
  apply activate_laser_marks in Hf. destruct Hf as (Hn & Hf).
  cbn [tokens log turn ref_of fst snd] in Hn, Hf.
  exists t, tk. split; [first [exact Es | reflexivity] |]. split; [exact Et |].
  cbn [game set_game set_selected_token selected_token red_player blue_player].
  split; [reflexivity |]. split; [reflexivity |]. split; [reflexivity |].
  split; [cbn; rewrite Hn; reflexivity |]. split.
  - intros s sq' E. rewrite grid_at_unhighlight in E.
    destruct (grid_at _ s) as [sq0 |]; [| discriminate]. injection E as <-. reflexivity.
  - exact Hf.
Qed.

(** The blue switch of (4, 4), picked in the fresh game, dropped on
    (5, 4). *)
Lemma dropping_the_blue_switch :
  squareSelected 2 switch_picked 5 4 = Ok switch_dropped
  /\ exists t tk,
       selected_token switch_picked = Some t
       /\ tokens (game switch_picked) !! t = Some tk
       /\ selected_token switch_dropped = None
       /\ red_player switch_dropped = red_player switch_picked
       /\ blue_player switch_dropped = blue_player switch_picked
       /\ turn (game switch_dropped) = turn (game switch_picked) + 1
       /\ (forall s sq',
             grid_at (squares (game switch_dropped)) s = Some sq' ->
             highlighted sq' = false)
       /\ ((tokens (game switch_dropped)
            = alter (with_position 5 4) t (tokens (game switch_picked))
            /\ log (game switch_dropped)
               = EMove t (row tk, column tk) :: log (game switch_picked))
           \/ exists t',
                tokens (game switch_dropped)
                = alter (with_destroyed true) t'
                    (alter (with_position 5 4) t (tokens (game switch_picked)))
                /\ log (game switch_dropped)
                   = EDestruction t' :: EMove t (row tk, column tk)
                       :: log (game switch_picked)).
Proof.
  split; [vm_compute; reflexivity |].
  apply (click_on_a_highlighted_square_moves_the_selection 2 switch_picked switch_dropped
           5 4 (mkSquare 5 4 Color.none None true)).
  - apply consistentb_sound. vm_compute. reflexivity.
  - reflexivity.
  - reflexivity.
  - vm_compute. reflexivity.
Defined.

(** * The positions the program reaches *)










(** ** No beam strikes a laser *)







(** ** Every position of play is in order *)









(** ** The lasers *)



(** ** The search never runs out of actions *)









(** * Queens and switches under fire *)

(** No hit, on whatever token and however often reflected, changes a
    switch. *)
Lemma hitToken_spares_switches (fuel : nat) :
  forall (g g' : Game) (t0 : nat) (direction : Orientation.t),
    hitToken fuel g t0 direction = Ok g' ->
    forall t tk, tokens g !! t = Some tk -> name tk = switch -> tokens g' !! t = Some tk.
Proof.
  induction fuel as [| fuel IH]; intros g g' t0 direction H t tk Et Hn; [discriminate |].
  cbn [hitToken] in H. unfold get_token at 1 in H.
  destruct (tokens g !! t0) as [tk0 |] eqn:E0; cbn [of_option bind] in H; [| discriminate].
  set (g1 := append_positions [Pos (row tk0) (column tk0)] g) in H.
  destruct (is_destroyed tk0 direction) eqn:Hd.
  - unfold destroy in H.
    destruct (get_token (update_token t0 (with_destroyed true) g1) t0) as [tk' | |];
      cbn [bind] in H; try discriminate.
    destruct (get_square (update_token t0 (with_destroyed true) g1) (row tk') (column tk'))
      as [sq | |]; cbn [bind] in H; try discriminate.
    injection H as <-. cbn [tokens set_log append_positions set_positions_log update_square
                              set_squares update_token set_tokens g1].
    rewrite list_lookup_alter_ne; [exact Et |]. intros <-.
    assert (tk0 = tk) by congruence. subst tk0.
    unfold is_destroyed in Hd. rewrite Hn in Hd. discriminate.
  - assert (B : forall d, reflect_beam_with (hitToken fuel) fuel g1 t0 d = Ok g' ->
                tokens g' !! t = Some tk).
    { intros d Hb. unfold reflect_beam_with in Hb.
      destruct (get_token g1 t0) as [tk1 | |]; cbn [bind] in Hb; try discriminate.
      destruct (reflect_beam_while fuel g1 d (row tk1) (column tk1))
        as [[[[t' |] r] c] | |]; cbn [bind] in Hb; try discriminate.
      - apply (IH g1 g' t' d Hb t tk); [exact Et | exact Hn].
      - injection Hb as <-. exact Et. }
    unfold reflect_with in H.
    destruct (get_token g1 t0) as [tk1 | |]; cbn [bind] in H; try discriminate.
    destruct (name tk1);
      repeat match type of H with
             | (if ?b then _ else _) = _ => destruct b
             end;
      try (apply B in H; exact H);
      injection H as <-; exact Et.
Qed.

(** The table of [reflect] for a switch. *)
Lemma reflect_switch
  (beam : Game -> token_ref -> Orientation.t -> result Game)
  (g : Game) (t : nat) (tk : Token) (direction : Orientation.t) :
  tokens g !! t = Some tk ->
  name tk = switch ->
  reflect_with beam g t direction
  = beam g t (switch_reflection (orientation tk) direction).
Proof.
  intros Et Hn. unfold reflect_with, get_token. rewrite Et. cbn [of_option bind].
  rewrite Hn. destruct direction, (orientation tk); reflexivity.
Qed.

(** C8: a hit on a queen that stands on its square destroys it, whatever
    the direction of the beam: [is_destroyed] is true, and [hitToken]
    returns a game in which the queen is marked destroyed, its square has no
    occupant, the destruction is logged and nothing else has changed but the
    trace.  A hit on a switch that stands on its square never destroys it,
    whatever the direction and the orientation: [is_destroyed] is false, the
    hit is resolved by [reflect], which sends the beam on from the switch in
    the direction of the specification's table, a quarter turn from the
    incoming one; the call then never returns (in Python it ends in
    [RecursionError]), and no hit that does return, on whatever token,
    changes the switch. *)
Theorem queen_is_destroyed_switch_never (g : Game) (t : token_ref) (tk : Token)
  (direction : Orientation.t) :
  board_grid g ->
  stands_on_board g t tk ->
  (name tk = queen ->
     is_destroyed tk direction = true
     /\ forall fuel,
          exists g',
            hitToken (S fuel) g t direction = Ok g'
            /\ tokens g' = alter (with_destroyed true) t (tokens g)
            /\ tokens g' !! t = Some (with_destroyed true tk)
            /\ squares g'
               = grid_alter (with_inhabiting None) (row tk, column tk) (squares g)
            /\ (exists square,
                  grid_at (squares g') (row tk, column tk) = Some square
                  /\ inhabiting_token square = None)
            /\ log g' = EDestruction t :: log g
            /\ turn g' = turn g
            /\ positions_log g'
               = positions_log g ++ [Pos (row tk) (column tk); Marker_destroyed])
  /\ (name tk = switch ->
        is_destroyed tk direction = false
        /\ adjacent direction (switch_reflection (orientation tk) direction)
        /\ (forall beam,
              reflect_with beam g t direction
              = beam g t (switch_reflection (orientation tk) direction))
        /\ (forall fuel,
              hitToken (S fuel) g t direction
              = reflect_beam fuel (append_positions [Pos (row tk) (column tk)] g) t
                  (switch_reflection (orientation tk) direction))
        /\ (forall fuel, hitToken fuel g t direction = Diverge)
        /\ forall fuel t0 d0 g',
             hitToken fuel g t0 d0 = Ok g' -> tokens g' !! t = Some tk).
Proof.
  intros Hg Hb. pose proof Hb as (Et & Hr & Hc & square & Hs & Hi). split; intros Hn.
  - assert (Hd : is_destroyed tk direction = true)
      by (unfold is_destroyed; rewrite Hn; reflexivity).
    split; [exact Hd |]. intros fuel. eexists. split.
    + cbn [hitToken]. unfold get_token. rewrite Et. cbn [of_option bind]. rewrite Hd.
      apply (destroy_result _ t tk); [exact Hg | exact Et | exact Hr | exact Hc].
    + cbn [tokens squares log turn positions_log append_positions set_positions_log].
      split; [reflexivity |].
      split; [rewrite list_lookup_alter_eq, Et; reflexivity |].
      split; [reflexivity |]. split.
      * exists (with_inhabiting None square). rewrite grid_at_alter_eq.
        apply get_square_grid_at in Hs; [| lia | lia]. rewrite Hs. split; reflexivity.
      * split; [reflexivity |]. split; [reflexivity |].
        rewrite <- app_assoc. reflexivity.
  - assert (Hd : is_destroyed tk direction = false)
      by (unfold is_destroyed; rewrite Hn; reflexivity).
    split; [exact Hd |].
    split; [unfold adjacent; destruct direction, (orientation tk); cbn; auto |].
    split; [intros beam; apply (reflect_switch beam g t tk direction Et Hn) |].
    split.
    + intros fuel. cbn [hitToken]. unfold get_token at 1. rewrite Et.
      cbn [of_option bind]. rewrite Hd.
      apply (reflect_switch _ _ t tk direction); [exact Et | exact Hn].
    + split; [intros fuel; apply (switch_hit_never_returns fuel g t tk direction Hb Hn) |].
      intros fuel t0 d0 g' H.
      apply (hitToken_spares_switches fuel g g' t0 d0 H t tk Et Hn).
Qed.

(** The red queen of (1, 5) and the red switch of (3, 4) after red's
    first ply, each struck by a beam that travels left; and the blue
    deflector of (4, 9), whose destruction leaves the switch as it is. *)
Lemma queen_and_switch_after_queen_step :
  (exists g',
      hitToken 1 after_queen_step 1%nat Orientation.left = Ok g'
      /\ tokens g' !! 1%nat = Some (mkToken queen 1 5 Color.red true Orientation.up)
      /\ (exists square,
            grid_at (squares g') (1, 5) = Some square /\ inhabiting_token square = None)
      /\ log g' = EDestruction 1%nat :: log after_queen_step)
  /\ is_destroyed (mkToken switch 3 4 Color.red false Orientation.right)
       Orientation.left = false
  /\ switch_reflection Orientation.right Orientation.left = Orientation.up
  /\ (forall fuel, hitToken fuel after_queen_step 11%nat Orientation.left = Diverge)
  /\ exists g',
       hitToken 2 after_queen_step 20%nat Orientation.up = Ok g'
       /\ tokens g' !! 20%nat
          = Some (mkToken deflector 4 9 Color.blue true Orientation.left)
       /\ tokens g' !! 11%nat
          = Some (mkToken switch 3 4 Color.red false Orientation.right).
Proof.
  assert (Hg : board_grid after_queen_step)
    by (apply grid_okb_sound; vm_compute; reflexivity).
  destruct (queen_is_destroyed_switch_never after_queen_step 1%nat
              (mkToken queen 1 5 Color.red false Orientation.up) Orientation.left Hg)
    as (Q & _).
  { split; [reflexivity |]. split; [cbn; lia |]. split; [cbn; lia |].
    eexists. split; reflexivity. }
  destruct (queen_is_destroyed_switch_never after_queen_step 11%nat
              (mkToken switch 3 4 Color.red false Orientation.right) Orientation.left Hg)
    as (_ & W).
  { split; [reflexivity |]. split; [cbn; lia |]. split; [cbn; lia |].
    eexists. split; reflexivity. }
  destruct (Q eq_refl) as (_ & Q1). destruct (Q1 0%nat) as (g' & E & _ & T & _ & V & L & _).
  destruct (W eq_refl) as (D & _ & _ & _ & N & K).
  split; [exists g'; auto |]. split; [exact D |]. split; [reflexivity |].
  split; [exact N |].
  eexists. split; [vm_compute; reflexivity |]. split; [reflexivity |].
  eapply (K 2%nat 20%nat Orientation.up). vm_compute. reflexivity.
Defined.
